(** * sjournal: a slog handler for the systemd journal protocol

    A shallow embedding of [handler.go], [large_yes.go], [large_no.go], the
    two [createNonlinkedFile] variants, the level constants and the field
    loop of the receiver in [handler_test.go], followed by
    the properties of the encoder, of handler derivation and of the oversize
    fallback.

    Conventions of the embedding:
    - a Go [string] and a Go [[]byte] are both [list byte];
    - a Go [int] / [slog.Level] is a [Z] in the 64-bit signed range, with the
      wrap-around of arithmetic written out ([wrap64]);
    - a Go panic is [None];
    - the operating system (socket, anonymous file) is an oracle record [OS]
      answering each call, and the calls made are collected in a trace. *)

From Stdlib Require Import ZArith Lia List.
From Stdlib Require Import Strings.Byte Strings.String Numbers.DecimalString.
From stdpp Require Import base option list gmap.

Local Open Scope Z_scope.

(** ** Bytes and strings *)

Definition gostring := list byte.

(** A Go string literal. *)
Definition str (s : string) : gostring := list_byte_of_string s.

#[global] Instance byte_eq_decision : EqDecision byte := Byte.byte_eq_dec.

Definition byte_of_Z (z : Z) : byte :=
  default x00 (Byte.of_N (Z.to_N (z mod 256))).

Definition Z_of_byte (b : byte) : Z := Z.of_N (Byte.to_N b).

Definition len {A} (l : list A) : Z := Z.of_nat (length l).

(** ** Machine integers *)

Definition wrap64 (z : Z) : Z := (z + 2^63) mod 2^64 - 2^63.
Definition MaxInt64 : Z := 2^63 - 1.
Definition MinInt64 : Z := - 2^63.
Definition int64_range (z : Z) : Prop := MinInt64 <= z <= MaxInt64.

(** [uint64(x)] of an [int]. *)
Definition uint64 (z : Z) : Z := z mod 2^64.

(** ** strconv *)

(** [strconv.AppendInt(dst, i, 10)] and [strconv.AppendUint]. *)
Definition FormatInt (i : Z) : gostring :=
  str (NilZero.string_of_int (Z.to_int i)).

Definition AppendInt (dst : list byte) (i : Z) : list byte := dst ++ FormatInt i.

Definition AppendBool (dst : list byte) (b : bool) : list byte :=
  dst ++ (if b then str "true" else str "false").

Definition lowerhex (n : Z) : byte :=
  nth (Z.to_nat n) (str "0123456789abcdef") x00.

(** [strconv.appendEscapedRune] with the double quote as quote character and
    neither [ASCIIonly] nor [graphicOnly], for a rune below
    [utf8.RuneSelf]; [unicode.IsPrint] on that range is [0x20 <= r < 0x7f]. *)
Definition appendEscapedRune (buf : list byte) (c : byte) : list byte :=
  let r := Z_of_byte c in
  if (r =? 34) || (r =? 92) then buf ++ [x5c; c]
  else if (32 <=? r) && (r <? 127) then buf ++ [c]
  else if r =? 7 then buf ++ str "\a"
  else if r =? 8 then buf ++ str "\b"
  else if r =? 12 then buf ++ str "\f"
  else if r =? 10 then buf ++ str "\n"
  else if r =? 13 then buf ++ str "\r"
  else if r =? 9 then buf ++ str "\t"
  else if r =? 11 then buf ++ str "\v"
  else buf ++ str "\x" ++ [lowerhex (Z.shiftr r 4); lowerhex (Z.land r 15)].

(** [strconv.AppendQuote(buf, s)].  Bytes from [utf8.RuneSelf] up are copied
    through, which is what Go does for valid UTF-8 encodings of printable
    runes; the Unicode tables for the other runes are not part of the model. *)
Definition AppendQuote (buf : list byte) (s : gostring) : list byte :=
  fold_left
    (fun buf c => if Z_of_byte c <? 128 then appendEscapedRune buf c else buf ++ [c])
    s (buf ++ [x22])
  ++ [x22].

(** ** Quoting rule *)

Definition isSpace (c : byte) : bool :=
  let r := Z_of_byte c in
  (r =? 32) || ((9 <=? r) && (r <=? 13)).

Definition isControl (c : byte) : bool :=
  let r := Z_of_byte c in
  (r <? 32) || (r =? 127).

Definition isQuote (c : byte) : bool := Z_of_byte c =? 34.

(** Modelled from the spec: [needsQuoting] is called by [appendString] but its
    definition is not among the sources.  The spec (4.1, rule 6) quotes a value
    "if and only if the raw value contains whitespace, control characters, or
    the quote character". *)
Definition needsQuoting (s : gostring) : bool :=
  existsb (fun c => isSpace c || isControl c || isQuote c) s.

(** ** log/slog values *)

(** [time.Time]: seconds since January 1 of year 1, and nanoseconds. *)
Record Time := { sec : Z; nsec : Z }.

Definition Time_IsZero (t : Time) : bool := (sec t =? 0) && (nsec t =? 0).

Definition internalToUnix : Z := -62135596800.

Definition Time_Unix (t : Time) : Z := wrap64 (sec t + internalToUnix).

(** [slog.Source]. *)
Record Source := { Function : gostring; File : gostring; Line : Z }.

(** What an [any] holds, as far as the handler tells values apart: nil, a
    [*slog.Source], an error with its message, or some other value known by
    an opaque handle. *)
Inductive any :=
| AnyNil
| AnySource (src : Source)
| AnyError (msg : gostring)
| AnyOther (x : Z).

(** [slog.Value] and [slog.Attr].  Floats are kept as their IEEE bits, as
    [slog.Value] does.  A [LogValuer] is given by the value that its
    [LogValue] method answers. *)
Inductive Value :=
| StringValue (s : gostring)
| Int64Value (i : Z)
| Uint64Value (u : Z)
| Float64Value (bits : Z)
| BoolValue (b : bool)
| DurationValue (d : Z)
| TimeValue (t : Time)
| AnyValue (a : any)
| GroupValue (g : list Attr)
| LogValuerValue (lv : Value)
with Attr :=
| mkAttr (Key : gostring) (Val : Value).

Definition Key (a : Attr) : gostring := match a with mkAttr k _ => k end.
Definition Val (a : Attr) : Value := match a with mkAttr _ v => v end.

Inductive Kind :=
| KindAny | KindBool | KindDuration | KindFloat64 | KindInt64 | KindString
| KindTime | KindUint64 | KindGroup | KindLogValuer.

#[global] Instance Kind_eq_decision : EqDecision Kind.
Proof. solve_decision. Defined.

Definition Value_Kind (v : Value) : Kind :=
  match v with
  | StringValue _ => KindString
  | Int64Value _ => KindInt64
  | Uint64Value _ => KindUint64
  | Float64Value _ => KindFloat64
  | BoolValue _ => KindBool
  | DurationValue _ => KindDuration
  | TimeValue _ => KindTime
  | AnyValue _ => KindAny
  | GroupValue _ => KindGroup
  | LogValuerValue _ => KindLogValuer
  end.

(** [a.Equal(slog.Attr{})]: the zero [Attr] has the empty key and the zero
    [Value], which is of [KindAny] and holds nil. *)
Definition Attr_isZero (a : Attr) : bool :=
  match a with
  | mkAttr [] (AnyValue AnyNil) => true
  | _ => false
  end.

(** [runtime.Frame], the part that [Handle] prints. *)
Record Frame := { Frame_File : gostring; Frame_Line : Z; Frame_Function : gostring }.

(** The Go standard library functions whose output the handler copies without
    looking at it. *)
Class GoRuntime := {
  (** [strconv.AppendFloat(dst, f, 'g', -1, 64)] *)
  FormatFloat : Z -> gostring;
  (** [time.Duration.String] *)
  Duration_String : Z -> gostring;
  (** [time.Time.Format] *)
  Time_Format : Time -> gostring -> gostring;
  (** [time.Time.String] *)
  Time_String : Time -> gostring;
  (** [fmt.Sprint] of a value behind an opaque handle, of a group and of a
      [LogValuer] *)
  Sprint : Z -> gostring;
  Sprint_group : list Attr -> gostring;
  Sprint_LogValuer : Value -> gostring;
  (** the [%T] of the [LogValuer] in a value *)
  LogValuer_TypeName : Value -> gostring;
  (** [runtime.CallersFrames([]uintptr{pc}).Next()] *)
  CallersFrame : Z -> Frame;
}.

Section Runtime.
Context `{GoRuntime}.

(** [Value.String]. *)
Definition Value_String (v : Value) : gostring :=
  match v with
  | StringValue s => s
  | Int64Value i => FormatInt i
  | Uint64Value u => FormatInt u
  | Float64Value f => FormatFloat f
  | BoolValue b => AppendBool [] b
  | DurationValue d => Duration_String d
  | TimeValue t => Time_String t
  | GroupValue g => Sprint_group g
  | AnyValue AnyNil => str "<nil>"
  | AnyValue (AnySource src) =>
      str "&{" ++ Function src ++ str " " ++ File src ++ str " " ++ FormatInt (Line src) ++ str "}"
  | AnyValue (AnyError msg) => msg
  | AnyValue (AnyOther x) => Sprint x
  | LogValuerValue _ => Sprint_LogValuer v
  end.

Definition maxLogValues : nat := 100.

(** What [Resolve] answers when the loop runs out. *)
Definition tooManyLogValues (orig : Value) : Value :=
  AnyValue (AnyError (str "LogValue called too many times on Value of type "
                      ++ LogValuer_TypeName orig)).

(** The loop of [Value.Resolve] with [i] rounds to go. *)
Fixpoint resolveLoop (i : nat) (orig v : Value) : Value :=
  match i with
  | O => tooManyLogValues orig
  | S i =>
      match v with
      | LogValuerValue lv => resolveLoop i orig lv
      | _ => v
      end
  end.

(** [Value.Resolve]; a [LogValue] that panics is not part of the model. *)
Definition Resolve (v : Value) : Value := resolveLoop maxLogValues v v.

End Runtime.

(** ** Levels *)

Definition slog_LevelDebug : Z := -4.
Definition slog_LevelInfo : Z := 0.
Definition slog_LevelWarn : Z := 4.
Definition slog_LevelError : Z := 8.

Definition LevelDebug : Z := slog_LevelDebug.
Definition LevelInfo : Z := slog_LevelInfo.
Definition LevelNotice : Z := slog_LevelInfo + 2.
Definition LevelWarn : Z := slog_LevelWarn.
Definition LevelError : Z := slog_LevelError.
Definition LevelCrit : Z := slog_LevelError + 4.
Definition LevelAlert : Z := slog_LevelError + 8.

(** ** The handler *)

Definition defaultSocket : gostring := str "/run/systemd/journal/socket".

Definition RFC3339Nano : gostring := str "2006-01-02T15:04:05.999999999Z07:00".

Record HandlerOptions := {
  opt_Level : option Z;
  opt_Prefix : gostring;
  opt_TimeFormat : gostring;
  opt_Socket : gostring;
}.

Record UnixAddr := { Net : gostring; Name : gostring }.

(** [level] is the [slog.Leveler]: [None] for nil, [Some l] for one whose
    [Level()] answers [l].  [sock] is the descriptor of the sending socket. *)
Record Handler := {
  level : option Z;
  preformattedAttrs : list byte;
  groupPrefix : gostring;
  groups : list gostring;
  nOpenGroups : Z;
  sock : Z;
  addr : UnixAddr;
  timeFormat : gostring;
  msgPrefix : gostring;
}.

Definition set_level (v : option Z) (h : Handler) : Handler :=
  {| level := v; preformattedAttrs := preformattedAttrs h;
     groupPrefix := groupPrefix h; groups := groups h;
     nOpenGroups := nOpenGroups h; sock := sock h; addr := addr h;
     timeFormat := timeFormat h; msgPrefix := msgPrefix h |}.

Definition set_preformattedAttrs (v : list byte) (h : Handler) : Handler :=
  {| level := level h; preformattedAttrs := v;
     groupPrefix := groupPrefix h; groups := groups h;
     nOpenGroups := nOpenGroups h; sock := sock h; addr := addr h;
     timeFormat := timeFormat h; msgPrefix := msgPrefix h |}.

Definition set_groupPrefix (v : gostring) (h : Handler) : Handler :=
  {| level := level h; preformattedAttrs := preformattedAttrs h;
     groupPrefix := v; groups := groups h;
     nOpenGroups := nOpenGroups h; sock := sock h; addr := addr h;
     timeFormat := timeFormat h; msgPrefix := msgPrefix h |}.

Definition set_groups (v : list gostring) (h : Handler) : Handler :=
  {| level := level h; preformattedAttrs := preformattedAttrs h;
     groupPrefix := groupPrefix h; groups := v;
     nOpenGroups := nOpenGroups h; sock := sock h; addr := addr h;
     timeFormat := timeFormat h; msgPrefix := msgPrefix h |}.

Definition set_nOpenGroups (v : Z) (h : Handler) : Handler :=
  {| level := level h; preformattedAttrs := preformattedAttrs h;
     groupPrefix := groupPrefix h; groups := groups h;
     nOpenGroups := v; sock := sock h; addr := addr h;
     timeFormat := timeFormat h; msgPrefix := msgPrefix h |}.

Definition set_msgPrefix (v : gostring) (h : Handler) : Handler :=
  {| level := level h; preformattedAttrs := preformattedAttrs h;
     groupPrefix := groupPrefix h; groups := groups h;
     nOpenGroups := nOpenGroups h; sock := sock h; addr := addr h;
     timeFormat := timeFormat h; msgPrefix := v |}.

Definition set_addr (v : UnixAddr) (h : Handler) : Handler :=
  {| level := level h; preformattedAttrs := preformattedAttrs h;
     groupPrefix := groupPrefix h; groups := groups h;
     nOpenGroups := nOpenGroups h; sock := sock h; addr := v;
     timeFormat := timeFormat h; msgPrefix := msgPrefix h |}.

Definition set_timeFormat (v : gostring) (h : Handler) : Handler :=
  {| level := level h; preformattedAttrs := preformattedAttrs h;
     groupPrefix := groupPrefix h; groups := groups h;
     nOpenGroups := nOpenGroups h; sock := sock h; addr := addr h;
     timeFormat := v; msgPrefix := msgPrefix h |}.

(** [net.ListenUnixgram] answers a socket or an error; errors are introduced
    with the transport below, so [NewHandler] is parametric in them. *)
Definition NewHandler {E} (listen : Z + E) (opts : option HandlerOptions) : Handler + E :=
  match listen with
  | inr err => inr err
  | inl sock =>
      let h := {| level := None; preformattedAttrs := []; groupPrefix := [];
                  groups := []; nOpenGroups := 0; sock := sock;
                  addr := {| Net := str "unixgram"; Name := defaultSocket |};
                  timeFormat := RFC3339Nano; msgPrefix := [] |} in
      match opts with
      | None => inl h
      | Some opts =>
          let h := set_level (opt_Level opts) h in
          let h := if bool_decide (opt_Socket opts <> [])
                   then set_addr {| Net := Net (addr h); Name := opt_Socket opts |} h
                   else h in
          let h := if bool_decide (opt_TimeFormat opts <> [])
                   then set_timeFormat (opt_TimeFormat opts) h
                   else h in
          inl (set_msgPrefix (opt_Prefix opts) h)
      end
  end.

(** [slices.Clip] keeps the elements and drops the spare capacity; capacity is
    modelled in [Mem] below. *)
Definition slices_Clip {A} (l : list A) : list A := l.

Definition clone (h : Handler) : Handler :=
  set_groups (slices_Clip (groups h))
    (set_preformattedAttrs (slices_Clip (preformattedAttrs h)) h).

Definition ExtendPrefix (h : Handler) (s : gostring) : Handler :=
  let h2 := clone h in
  set_msgPrefix (msgPrefix h ++ s) h2.

Definition Enabled (h : Handler) (l : Z) : bool :=
  let minLevel := match level h with
                  | Some lv => lv
                  | None => slog_LevelDebug
                  end in
  minLevel <=? l.

Definition WithGroup (h : Handler) (name : gostring) : Handler :=
  let h2 := clone h in
  set_groups (groups h2 ++ [name]) h2.

(** ** Rendering state *)

(** Modelled from the spec: the [buffer] type and [newBuffer] are not among the
    sources.  The spec (2, Buffer/Scratch Pool) describes "reusable growable
    byte buffers for building entries": a buffer is its bytes, a new buffer is
    empty, writing appends, and [Free] gives the storage back to the pool. *)
Definition buffer := list byte.
Definition newBuffer : buffer := [].
Definition buffer_WriteString (b : buffer) (s : gostring) : buffer := b ++ s.
Definition buffer_Write (b : buffer) (p : list byte) : buffer := b ++ p.
Definition buffer_WriteByte (b : buffer) (c : byte) : buffer := b ++ [c].
Definition buffer_Len (b : buffer) : Z := len b.

(** [buf] and [prefix] are pointers to buffers in the source; the state holds
    what they point at.  In [WithAttrs], where [buf] points into the handler,
    the bytes are stored back into the handler at the end. *)
Record handleState := {
  h : Handler;
  buf : buffer;
  freeBuf : bool;
  sep : gostring;
  prefix : buffer;
}.

Definition set_buf (v : buffer) (s : handleState) : handleState :=
  {| h := h s; buf := v; freeBuf := freeBuf s; sep := sep s; prefix := prefix s |}.

Definition set_sep (v : gostring) (s : handleState) : handleState :=
  {| h := h s; buf := buf s; freeBuf := freeBuf s; sep := v; prefix := prefix s |}.

Definition set_prefix (v : buffer) (s : handleState) : handleState :=
  {| h := h s; buf := buf s; freeBuf := freeBuf s; sep := sep s; prefix := v |}.

Definition newHandleState (h : Handler) (buf : buffer) (freeBuf : bool) (sep : gostring)
  : handleState :=
  {| h := h; buf := buf; freeBuf := freeBuf; sep := sep; prefix := newBuffer |}.

(** Separator for group names and keys. *)
Definition keyComponentSep : byte := x2e.

Definition openGroup (s : handleState) (name : gostring) : handleState :=
  set_prefix (buffer_WriteByte (buffer_WriteString (prefix s) name) keyComponentSep) s.

(** [s.h.groups[s.h.nOpenGroups:]] panics when the index is out of range. *)
Definition openGroups (s : handleState) : option handleState :=
  let n := nOpenGroups (h s) in
  if (0 <=? n) && (n <=? len (groups (h s)))
  then Some (fold_left openGroup (drop (Z.to_nat n) (groups (h s))) s)
  else None.

(** Cutting the prefix at [len(prefix) - len(name) - 1] panics when that bound
    is negative. *)
Definition closeGroup (s : handleState) (name : gostring) : option handleState :=
  let n := len (prefix s) - len name - 1 in
  if 0 <=? n
  then Some (set_sep (str " ") (set_prefix (take (Z.to_nat n) (prefix s)) s))
  else None.

Definition appendString (s : handleState) (str : gostring) : handleState :=
  if needsQuoting str
  then set_buf (AppendQuote (buf s) str) s
  else set_buf (buffer_WriteString (buf s) str) s.

Definition appendKey (s : handleState) (key : gostring) : handleState :=
  let s := set_buf (buffer_WriteString (buf s) (sep s)) s in
  let s := if 0 <? len (prefix s)
           then appendString s (prefix s ++ key)
           else appendString s key in
  let s := set_buf (buffer_WriteByte (buf s) x3d) s in
  set_sep (str " ") s.

Section Runtime.
Context `{GoRuntime}.

(** The two special cases of [appendAttr]; neither applies to a group nor
    yields one. *)
Definition specialCases (s : handleState) (v : Value) : Value :=
  match v with
  | AnyValue (AnySource src) =>
      StringValue (File src ++ str ":" ++ FormatInt (Line src))
  | TimeValue t => StringValue (Time_Format t (timeFormat (h s)))
  | _ => v
  end.

(** [appendAttr] on a resolved value that is not a group: the test for the
    empty [Attr], the special cases, the key and the value. *)
Definition appendLeaf (s : handleState) (key : gostring) (v : Value) : option handleState :=
  if Attr_isZero (mkAttr key v) then Some s
  else
    let v := specialCases s v in
    let s := appendKey s key in
    Some (appendString s (Value_String v)).

(** [appendAttr].  To keep the recursion structural the loop of [Resolve] is
    run inside it ([appendResolved], with [i] rounds to go), and the group is
    matched on the resolved value before the special cases, which leave groups
    alone; a group is never the empty [Attr].  The lemma [appendAttr_unfold]
    below gives the function in the order of the source. *)
Fixpoint appendAttr (s : handleState) (a : Attr) {struct a} : option handleState :=
  match a with
  | mkAttr key v => appendResolved maxLogValues v s key v
  end
with appendResolved (i : nat) (orig : Value) (s : handleState) (key : gostring)
    (v : Value) {struct v} : option handleState :=
  match i with
  | O => appendLeaf s key (tooManyLogValues orig)
  | S i =>
      match v with
      | LogValuerValue lv => appendResolved i orig s key lv
      | GroupValue attrs =>
          if 0 <? len attrs then
            let s := if bool_decide (key <> []) then openGroup s key else s in
            s ← (fix range (l : list Attr) (s : handleState) : option handleState :=
                   match l with
                   | [] => Some s
                   | aa :: l => s ← appendAttr s aa; range l s
                   end) attrs s;
            if bool_decide (key <> []) then closeGroup s key else Some s
          else Some s
      | _ => appendLeaf s key v
      end
  end.

(** [for _, a := range as { state.appendAttr(a) }] *)
Fixpoint appendAttrs (s : handleState) (l : list Attr) : option handleState :=
  match l with
  | [] => Some s
  | a :: l => s ← appendAttr s a; appendAttrs s l
  end.

End Runtime.

(** ** Priorities *)

Definition zeros8 : list byte := [x00; x00; x00; x00; x00; x00; x00; x00].

Definition priorityPrefix (digit : byte) : gostring :=
  str "PRIORITY=" ++ [digit; x0a] ++ str "MESSAGE" ++ [x0a] ++ zeros8.

Definition prefixEmerg : gostring := priorityPrefix x30.
Definition prefixAlert : gostring := priorityPrefix x31.
Definition prefixCrit : gostring := priorityPrefix x32.
Definition prefixErr : gostring := priorityPrefix x33.
Definition prefixWarning : gostring := priorityPrefix x34.
Definition prefixNotice : gostring := priorityPrefix x35.
Definition prefixInfo : gostring := priorityPrefix x36.
Definition prefixDebug : gostring := priorityPrefix x37.

Definition priorityPrefixes : list gostring :=
  [ prefixDebug;   (* LevelDebug *)
    prefixInfo;
    prefixInfo;
    prefixInfo;
    prefixInfo;    (* LevelInfo *)
    prefixNotice;  (* LevelInfo + 1 *)
    prefixNotice;  (* LevelNotice *)
    prefixNotice;  (* LevelWarn - 1 *)
    prefixWarning; (* LevelWarn *)
    prefixErr;
    prefixErr;
    prefixErr;
    prefixErr;     (* LevelError *)
    prefixCrit;    (* LevelError + 1 *)
    prefixCrit;
    prefixCrit;
    prefixCrit     (* LevelCrit *)
  ].

(** The [switch] at the head of [Handle]; the subtraction is done on [int]
    and wraps around. *)
Definition selectPrefix (lvl : Z) : option gostring :=
  let i := wrap64 (lvl - slog_LevelDebug) in
  if i <? 0 then Some prefixDebug
  else if i <? len priorityPrefixes then priorityPrefixes !! Z.to_nat i
  else Some prefixAlert.

(** The number after [PRIORITY=] in an entry prefix. *)
Definition priorityOf (p : gostring) : option Z :=
  match drop 9 p with
  | d :: _ => Some (Z_of_byte d - 48)
  | [] => None
  end.

Definition priority (lvl : Z) : option Z := selectPrefix lvl ≫= priorityOf.

(** ** encoding/binary *)

(** The bytes [byte(v)], [byte(v >> 8)], ..., [byte(v >> 56)]. *)
Definition le64 (v : Z) : list byte :=
  map (fun i => byte_of_Z (Z.shiftr v (8 * i))) [0; 1; 2; 3; 4; 5; 6; 7].

(** [binary.LittleEndian.PutUint64(b, v)]; its bounds check panics on a slice
    shorter than eight bytes. *)
Definition PutUint64 (b : list byte) (v : Z) : option (list byte) :=
  if 8 <=? len b
  then Some (le64 v ++ drop 8 b)
  else None.

(** [binary.LittleEndian.Uint64(b)], as the journal and the test's
    [parseProtocolMessage] read the length back. *)
Definition Uint64 (b : list byte) : option Z :=
  match b with
  | b0 :: b1 :: b2 :: b3 :: b4 :: b5 :: b6 :: b7 :: _ =>
      Some (Z.lor (Z_of_byte b0)
           (Z.lor (Z.shiftl (Z_of_byte b1) 8)
           (Z.lor (Z.shiftl (Z_of_byte b2) 16)
           (Z.lor (Z.shiftl (Z_of_byte b3) 24)
           (Z.lor (Z.shiftl (Z_of_byte b4) 32)
           (Z.lor (Z.shiftl (Z_of_byte b5) 40)
           (Z.lor (Z.shiftl (Z_of_byte b6) 48)
                  (Z.shiftl (Z_of_byte b7) 56))))))))
  | _ => None
  end.

(** ** Errors and the operating system *)

Inductive Errno :=
| EMSGSIZE
| ENOBUFS
| EOTHER (n : Z).

#[global] Instance Errno_eq_decision : EqDecision Errno.
Proof. solve_decision. Defined.

(** An error is a [syscall.Errno], an error that wraps another one (as
    [*net.OpError] and [*os.SyscallError] do, with [Unwrap]), or an error with
    nothing inside. *)
Inductive error :=
| ErrnoError (e : Errno)
| WrapError (op : gostring) (err : error)
| OpaqueError (msg : gostring).

(** [errors.Is(err, target)] for a [syscall.Errno] target. *)
Fixpoint errors_Is (err : error) (target : Errno) : bool :=
  match err with
  | ErrnoError e => bool_decide (e = target)
  | WrapError _ err => errors_Is err target
  | OpaqueError _ => false
  end.

(** [*os.File]. *)
Record OSFile := { Fd : Z; File_Name : gostring }.

(** The answers of the operating system. *)
Record OS := {
  (** [net.UnixConn.WriteMsgUnix(b, oob, addr)] on a socket; the
      out-of-band data is the list of descriptors passed *)
  os_WriteMsgUnix : Z -> list byte -> list Z -> UnixAddr -> option error;
  (** [unix.MemfdCreate(name, flags)] *)
  os_MemfdCreate : gostring -> Z + error;
  (** [os.CreateTemp(dir, pattern)] *)
  os_CreateTemp : gostring -> gostring -> OSFile + error;
  (** [os.File.Write(b)] *)
  os_Write : OSFile -> list byte -> option error;
}.

(** The calls made to the operating system, in order. *)
Inductive event :=
| EvWriteMsgUnix (sock : Z) (b : list byte) (oob : list Z) (addr : UnixAddr)
| EvMemfdCreate (name : gostring)
| EvCreateTemp (dir pattern : gostring)
| EvRemove (name : gostring)
| EvWrite (f : OSFile) (b : list byte)
| EvClose (f : OSFile).

(** [syscall.UnixRights(fd)]. *)
Definition UnixRights (fd : Z) : list Z := [fd].

(** Build targets, as selected by the build constraints of the files. *)
Inductive GOOS :=
| linux        (* linux *)
| unix_other   (* (darwin || unix) && !linux *)
| non_unix.    (* !(darwin || unix) *)

Definition LargeMessageSupport (goos : GOOS) : bool :=
  match goos with
  | non_unix => false
  | _ => true
  end.

(** [createNonlinkedFile], linux. *)
Definition createNonlinkedFile_linux (os : OS) : (OSFile + error) * list event :=
  match os_MemfdCreate os (str "journal-entry") with
  | inr err => (inr err, [EvMemfdCreate (str "journal-entry")])
  | inl fd =>
      (inl {| Fd := fd; File_Name := str "journal-entry" |},
       [EvMemfdCreate (str "journal-entry")])
  end.

(** [createNonlinkedFile], the other unix systems.  The deferred function
    closes the file only when [ok] is unset, which no return path after a
    successful [CreateTemp] leaves it. *)
Definition createNonlinkedFile_other (os : OS) : (OSFile + error) * list event :=
  match os_CreateTemp os [] (str "journal-entry-*") with
  | inr err => (inr err, [EvCreateTemp [] (str "journal-entry-*")])
  | inl f =>
      (inl f, [EvCreateTemp [] (str "journal-entry-*"); EvRemove (File_Name f)])
  end.

(** [sendViaFileIfTooLarge] of [large_yes.go], given the [createNonlinkedFile]
    of the build. *)
Definition sendViaFileIfTooLarge_yes
    (create : OS -> (OSFile + error) * list event)
    (os : OS) (h : Handler) (err : error) (b : list byte)
  : option error * list event :=
  if negb (errors_Is err EMSGSIZE || errors_Is err ENOBUFS) then (Some err, [])
  else
    match create os with
    | (inr err, t) => (Some err, t)
    | (inl f, t) =>
        (* defer f.Close() *)
        match os_Write os f b with
        | Some err => (Some err, t ++ [EvWrite f b; EvClose f])
        | None =>
            match os_WriteMsgUnix os (sock h) [] (UnixRights (Fd f)) (addr h) with
            | Some err =>
                (Some err,
                 t ++ [EvWrite f b;
                       EvWriteMsgUnix (sock h) [] (UnixRights (Fd f)) (addr h);
                       EvClose f])
            | None =>
                (None,
                 t ++ [EvWrite f b;
                       EvWriteMsgUnix (sock h) [] (UnixRights (Fd f)) (addr h);
                       EvClose f])
            end
        end
    end.

(** [sendViaFileIfTooLarge] of [large_no.go]. *)
Definition sendViaFileIfTooLarge_no
    (os : OS) (h : Handler) (err : error) (b : list byte)
  : option error * list event :=
  (Some err, []).

(** The [createNonlinkedFile] that a build has, where it has one. *)
Definition createNonlinkedFile (goos : GOOS) : OS -> (OSFile + error) * list event :=
  match goos with
  | linux => createNonlinkedFile_linux
  | _ => createNonlinkedFile_other
  end.

(** The [sendViaFileIfTooLarge] of a build. *)
Definition sendViaFileIfTooLarge (goos : GOOS) :=
  if LargeMessageSupport goos
  then sendViaFileIfTooLarge_yes (createNonlinkedFile goos)
  else sendViaFileIfTooLarge_no.

(** ** Handling a record *)

(** [slog.Record]; [rec_Attrs] is what [r.Attrs] iterates over. *)
Record slogRecord := {
  rec_Time : Time;
  rec_Message : gostring;
  rec_Level : Z;
  rec_PC : Z;
  rec_Attrs : list Attr;
}.

Section Runtime.
Context `{GoRuntime}.

Definition appendNonBuiltIns (s : handleState) (r : slogRecord) : option handleState :=
  (* preformatted Attrs *)
  let s := if 0 <? len (preformattedAttrs (h s))
           then
             let s := set_buf (buffer_WriteString (buf s) (sep s)) s in
             let s := set_buf (buffer_Write (buf s) (preformattedAttrs (h s))) s in
             set_sep (str " ") s
           else s in
  (* Attrs in Record *)
  let s := set_prefix (buffer_WriteString (prefix s) (groupPrefix (h s))) s in
  s ← openGroups s;
  appendAttrs s (rec_Attrs r).

(** [fmt.Sprintf] of the location fields. *)
Definition formatSuffix (f : Frame) : gostring :=
  [x0a] ++ str "CODE_FILE=" ++ Frame_File f ++
  [x0a] ++ str "CODE_LINE=" ++ FormatInt (Frame_Line f) ++
  [x0a] ++ str "CODE_FUNC=" ++ Frame_Function f ++ [x0a].

(** The [suffixCache] lookup of [Handle]: the suffix and the cache after. *)
Definition loadSuffix (suffixCache : gmap Z gostring) (pc : Z)
  : gostring * gmap Z gostring :=
  match suffixCache !! pc with
  | Some x => (x, suffixCache)
  | None =>
      let f := CallersFrame pc in
      let suffix := formatSuffix f in
      (suffix, <[pc := suffix]> suffixCache)
  end.

(** [Handle] from the creation of the state to the patched entry [b]. *)
Definition Handle_entry (h : Handler) (r : slogRecord) (prefix suffix : gostring)
  : option (list byte) :=
  let state := newHandleState h newBuffer true [] in
  let state := set_buf (buffer_WriteString (buf state) prefix) state in
  let messageOffset := buffer_Len (buf state) in
  let state := set_buf (buffer_WriteString (buf state) (msgPrefix h)) state in
  let state := set_buf (buffer_WriteString (buf state) (rec_Message r)) state in
  let state := set_sep (str ": ") state in
  state ← appendNonBuiltIns state r;
  let messageLen := buffer_Len (buf state) - messageOffset in
  let state := set_buf (buffer_WriteString (buf state) suffix) state in
  let state :=
    if negb (Time_IsZero (rec_Time r)) then
      let state := set_buf (buffer_WriteString (buf state) (str "SYSLOG_TIMESTAMP=")) state in
      let state := set_buf (AppendInt (buf state) (Time_Unix (rec_Time r))) state in
      set_buf (buffer_WriteByte (buf state) x0a) state
    else state in
  let b := buf state in
  let off := messageOffset - 8 in
  if (0 <=? off) && (off <=? len b) then
    tail ← PutUint64 (drop (Z.to_nat off) b) (uint64 messageLen);
    Some (take (Z.to_nat off) b ++ tail)
  else None.

(** [Handle]: the error returned, the calls made to the operating system and
    the suffix cache afterwards; [None] is a panic. *)
Definition Handle (os : OS) (goos : GOOS) (suffixCache : gmap Z gostring)
    (h : Handler) (r : slogRecord)
  : option (option error * list event * gmap Z gostring) :=
  prefix ← selectPrefix (rec_Level r);
  let '(suffix, suffixCache) := loadSuffix suffixCache (rec_PC r) in
  b ← Handle_entry h r prefix suffix;
  match os_WriteMsgUnix os (sock h) b [] (addr h) with
  | Some err =>
      let '(res, t) := sendViaFileIfTooLarge goos os h err b in
      Some (res, EvWriteMsgUnix (sock h) b [] (addr h) :: t, suffixCache)
  | None => Some (None, [EvWriteMsgUnix (sock h) b [] (addr h)], suffixCache)
  end.

(** [WithAttrs].  The state's [buf] points at [h2.preformattedAttrs], so what
    the state has written is the new value of that field. *)
Definition WithAttrs (h : Handler) (as_ : list Attr) : option Handler :=
  let h2 := clone h in
  (* Pre-format the attributes as an optimization. *)
  let state := newHandleState h2 (preformattedAttrs h2) false [] in
  let state := set_prefix (buffer_WriteString (prefix state) (groupPrefix h)) state in
  let state := if 0 <? len (preformattedAttrs h2)
               then set_sep (str " ") state else state in
  state ← openGroups state;
  state ← appendAttrs state as_;
  let h2 := set_preformattedAttrs (buf state) h2 in
  (* Remember the new prefix for later keys. *)
  let h2 := set_groupPrefix (prefix state) h2 in
  (* Remember how many opened groups are in preformattedAttrs. *)
  Some (set_nOpenGroups (len (groups h2)) h2).

End Runtime.

(** ** Handlers that a program can hold *)

(** Handlers obtained from [NewHandler] by [WithAttrs], [WithGroup] and
    [ExtendPrefix]. *)
Inductive reachable `{GoRuntime} : Handler -> Prop :=
| reach_NewHandler (listen : Z + error) opts h :
    NewHandler listen opts = inl h -> reachable h
| reach_WithAttrs h as_ h2 :
    reachable h -> WithAttrs h as_ = Some h2 -> reachable h2
| reach_WithGroup h name :
    reachable h -> reachable (WithGroup h name)
| reach_ExtendPrefix h s :
    reachable h -> reachable (ExtendPrefix h s).

(** A runtime for examples that involve none of the library formatters. *)
Definition noRuntime : GoRuntime :=
  {| FormatFloat := fun _ => [];
     Duration_String := fun _ => [];
     Time_Format := fun _ _ => [];
     Time_String := fun _ => [];
     Sprint := fun _ => [];
     Sprint_group := fun _ => [];
     Sprint_LogValuer := fun _ => [];
     LogValuer_TypeName := fun _ => str "main.valuer";
     CallersFrame := fun pc =>
       {| Frame_File := str "main.go"; Frame_Line := pc; Frame_Function := str "main.main" |} |}.

(** ** Slices and their backing arrays

    The handler above holds the contents of [preformattedAttrs] and [groups].
    In Go the two fields are slices: a pointer to a backing array, a length
    and a capacity, and a derived handler starts out pointing at the arrays of
    its parent.  This module gives the derivations on that representation, so
    that what they do to the arrays of the parent can be stated. *)
Module Mem.

Record slice := { ptr : nat; slen : nat; scap : nat }.

(** The nil slice. *)
Definition nilSlice : slice := {| ptr := 0; slen := 0; scap := 0 |}.

Section Arrays.
Context {A : Type}.
(** The zero value of the element type, which fills new arrays. *)
Variable zero : A.
(** The capacity that the runtime picks when it grows a slice of a given
    capacity to hold a given number of elements. *)
Variable growslice : nat -> nat -> nat.

(** The elements of a slice. *)
Definition contents (arrays : gmap nat (list A)) (s : slice) : list A :=
  take (slen s) (default [] (arrays !! ptr s)).

(** [slices.Clip(s)], which is [s[:len(s):len(s)]]. *)
Definition Clip (s : slice) : slice :=
  {| ptr := ptr s; slen := slen s; scap := slen s |}.

(** [append(s, xs...)]: within the capacity the elements are written into the
    backing array of [s]; beyond it a new array is allocated, and the old one
    is left as it is. *)
Definition append (arrays : gmap nat (list A)) (s : slice) (xs : list A)
  : gmap nat (list A) * slice :=
  let n := (slen s + length xs)%nat in
  if (n <=? scap s)%nat then
    (alter (fun arr => take (slen s) arr ++ xs ++ drop n arr) (ptr s) arrays,
     {| ptr := ptr s; slen := n; scap := scap s |})
  else
    let p := fresh (dom arrays) in
    let c := Nat.max n (growslice (scap s) n) in
    (<[p := contents arrays s ++ xs ++ replicate (c - n) zero]> arrays,
     {| ptr := p; slen := n; scap := c |}).

(** A run of appends, as a buffer receives them. *)
Fixpoint appends (arrays : gmap nat (list A)) (s : slice) (chunks : list (list A))
  : gmap nat (list A) * slice :=
  match chunks with
  | [] => (arrays, s)
  | xs :: chunks =>
      let '(arrays, s) := append arrays s xs in
      appends arrays s chunks
  end.

(** Every array of the first store is in the second one, unchanged. *)
Definition preserved (arrays arrays' : gmap nat (list A)) : Prop :=
  forall p arr, arrays !! p = Some arr -> arrays' !! p = Some arr.

(** A slice lies within an array of the store. *)
Definition valid (arrays : gmap nat (list A)) (s : slice) : Prop :=
  (slen s <= scap s)%nat /\
  ((0 < scap s)%nat ->
   exists arr, arrays !! ptr s = Some arr /\ (scap s <= length arr)%nat).

End Arrays.

(** The arrays of bytes and the arrays of strings. *)
Record store := {
  byteArrays : gmap nat (list byte);
  stringArrays : gmap nat (list gostring);
}.

(** A handler with its two slices; [fields] carries the other fields. *)
Record HandlerM := {
  fields : Handler;
  preformattedAttrs_slice : slice;
  groups_slice : slice;
}.

(** The handler that a [HandlerM] stands for in a store. *)
Definition view (st : store) (m : HandlerM) : Handler :=
  set_groups (contents (stringArrays st) (groups_slice m))
    (set_preformattedAttrs (contents (byteArrays st) (preformattedAttrs_slice m))
       (fields m)).

Definition validHandler (st : store) (m : HandlerM) : Prop :=
  valid (byteArrays st) (preformattedAttrs_slice m) /\
  valid (stringArrays st) (groups_slice m).

Section Derivation.
Context `{GoRuntime}.
Variable growslice : nat -> nat -> nat.

Definition NewHandler {E} (listen : Z + E) (opts : option HandlerOptions)
  : HandlerM + E :=
  match NewHandler listen opts with
  | inl h => inl {| fields := h; preformattedAttrs_slice := nilSlice;
                    groups_slice := nilSlice |}
  | inr err => inr err
  end.

Definition clone (m : HandlerM) : HandlerM :=
  {| fields := fields m;
     preformattedAttrs_slice := Clip (preformattedAttrs_slice m);
     groups_slice := Clip (groups_slice m) |}.

Definition ExtendPrefix (m : HandlerM) (s : gostring) : HandlerM :=
  let h2 := clone m in
  {| fields := set_msgPrefix (msgPrefix (fields m) ++ s) (fields h2);
     preformattedAttrs_slice := preformattedAttrs_slice h2;
     groups_slice := groups_slice h2 |}.

Definition WithGroup (st : store) (m : HandlerM) (name : gostring)
  : store * HandlerM :=
  let h2 := clone m in
  let '(arrays, g) :=
    append [] growslice (stringArrays st) (groups_slice h2) [name] in
  ({| byteArrays := byteArrays st; stringArrays := arrays |},
   {| fields := fields h2;
      preformattedAttrs_slice := preformattedAttrs_slice h2;
      groups_slice := g |}).

(** [WithAttrs]: the state writes through a pointer to the slice of the clone,
    by [append]; the bytes written are those that the rendering adds to the
    contents, in the chunks given by [chunking]. *)
Definition WithAttrs (chunking : list byte -> list (list byte))
    (st : store) (m : HandlerM) (as_ : list Attr)
  : option (store * HandlerM) :=
  let h2 := clone m in
  h' ← WithAttrs (view st h2) as_;
  let written := drop (slen (preformattedAttrs_slice h2)) (preformattedAttrs h') in
  let '(arrays, p) :=
    appends x00 growslice (byteArrays st) (preformattedAttrs_slice h2)
      (chunking written) in
  Some ({| byteArrays := arrays; stringArrays := stringArrays st |},
        {| fields := set_nOpenGroups (nOpenGroups h')
                       (set_groupPrefix (groupPrefix h') (fields h2));
           preformattedAttrs_slice := p;
           groups_slice := groups_slice h2 |}).

End Derivation.

End Mem.

(** ** The priority table as the specification words it *)

(** Debug and below: 7; up to Info: 6; up to just under Warn: 5; Warn: 4; up to
    Error: 3; up to Crit: 2; above: 1. *)
Definition tablePriority (lvl : Z) : Z :=
  if lvl <=? LevelDebug then 7
  else if lvl <=? LevelInfo then 6
  else if lvl <? LevelWarn then 5
  else if lvl =? LevelWarn then 4
  else if lvl <=? LevelError then 3
  else if lvl <=? LevelCrit then 2
  else 1.

(** ** Notions used to state the properties *)

(** What [appendString] adds to the buffer for a string. *)
Definition quoted (x : gostring) : list byte :=
  if needsQuoting x then AppendQuote [] x else x.

(** A value without the [LogValuer]s around it. *)
Fixpoint stripped (v : Value) : Value :=
  match v with
  | LogValuerValue lv => stripped lv
  | _ => v
  end.

(** The raw value "contains whitespace, control characters, or the quote
    character". *)
Definition hasSpecial (x : gostring) : Prop :=
  exists c, c ∈ x /\ (isSpace c = true \/ isControl c = true \/ isQuote c = true).

(** The key prefix that a list of group names opens. *)
Definition dotted (names : list gostring) : gostring :=
  concat (map (fun name => name ++ [keyComponentSep]) names).

(** The groups of a handler can be opened without a panic. *)
Definition groupsInRange (h : Handler) : Prop :=
  0 <= nOpenGroups h <= len (groups h).

(** The key prefix of a handler is that of the groups already opened in its
    buffer. *)
Definition wellFormed (h : Handler) : Prop :=
  groupsInRange h /\
  groupPrefix h = dotted (take (Z.to_nat (nOpenGroups h)) (groups h)).

(** The separator that [WithAttrs] starts with. *)
Definition firstSep (h : Handler) : gostring :=
  if 0 <? len (preformattedAttrs h) then str " " else [].

(** The state with another handler. *)
Definition set_h (v : Handler) (s : handleState) : handleState :=
  {| h := v; buf := buf s; freeBuf := freeBuf s; sep := sep s; prefix := prefix s |}.

(** The two lines that open an entry, before the length slot. *)
Definition entryHeader (digit : byte) : gostring :=
  str "PRIORITY=" ++ [digit; x0a] ++ str "MESSAGE" ++ [x0a].

(** The field that ends the entry of a record with a time. *)
Definition timestampField (r : slogRecord) : gostring :=
  if negb (Time_IsZero (rec_Time r))
  then str "SYSLOG_TIMESTAMP=" ++ FormatInt (Time_Unix (rec_Time r)) ++ [x0a]
  else [].

(** The second state continues the first: same handler, key prefix and
    ownership flag, and a buffer that has only grown. *)
Definition extends (s s' : handleState) : Prop :=
  h s' = h s /\ prefix s' = prefix s /\ freeBuf s' = freeBuf s /\
  exists d, buf s' = buf s ++ d.

(** The calls that create the anonymous file, and the calls that send a
    datagram. *)
Definition isCreate (ev : event) : bool :=
  match ev with
  | EvMemfdCreate _ | EvCreateTemp _ _ => true
  | _ => false
  end.

Definition isDatagram (ev : event) : bool :=
  match ev with
  | EvWriteMsgUnix _ _ _ _ => true
  | _ => false
  end.

(** The send failed for the size of the message. *)
Definition tooLarge (err : error) : bool :=
  errors_Is err EMSGSIZE || errors_Is err ENOBUFS.

(** ** Sample inputs *)

(** An operating system where every call succeeds. *)
Definition okOS : OS :=
  {| os_WriteMsgUnix := fun _ _ _ _ => None;
     os_MemfdCreate := fun _ => inl 7;
     os_CreateTemp := fun _ _ => inl {| Fd := 7; File_Name := str "/tmp/journal-entry-1" |};
     os_Write := fun _ _ => None |}.

(** An operating system whose datagrams carry at most [limit] bytes. *)
Definition limitedOS (limit : Z) : OS :=
  {| os_WriteMsgUnix := fun _ b _ _ =>
       if limit <? len b
       then Some (WrapError (str "write") (ErrnoError EMSGSIZE))
       else None;
     os_MemfdCreate := fun _ => inl 7;
     os_CreateTemp := fun _ _ => inl {| Fd := 7; File_Name := str "/tmp/journal-entry-1" |};
     os_Write := fun _ _ => None |}.

(** The handler of [NewHandler(nil)] on socket 3. *)
Definition sampleHandler : Handler :=
  {| level := None; preformattedAttrs := []; groupPrefix := []; groups := [];
     nOpenGroups := 0; sock := 3;
     addr := {| Net := str "unixgram"; Name := defaultSocket |};
     timeFormat := RFC3339Nano; msgPrefix := [] |}.

(** The record of [logger.Info] with message m and attributes a=1 and b=x y,
    logged on 2024-10-05. *)
Definition sampleRecord : slogRecord :=
  {| rec_Time := {| sec := 63863725191; nsec := 931748000 |};
     rec_Message := str "m";
     rec_Level := slog_LevelInfo;
     rec_PC := 25;
     rec_Attrs := [mkAttr (str "a") (StringValue (str "1"));
                   mkAttr (str "b") (StringValue (str "x y"))] |}.

(** ** Notions used to state the further properties *)

(** A state that renders into an empty buffer. *)
Definition renderState (h0 : Handler) (pfx sep0 : gostring) : handleState :=
  {| h := h0; buf := []; freeBuf := false; sep := sep0; prefix := pfx |}.

(** The same state over a buffer that already holds [b0]. *)
Definition shiftBuf (b0 : list byte) (fb : bool) (s : handleState) : handleState :=
  {| h := h s; buf := b0 ++ buf s; freeBuf := fb; sep := sep s; prefix := prefix s |}.

(** A record with other attributes, and with another message. *)
Definition set_rec_Attrs (l : list Attr) (r : slogRecord) : slogRecord :=
  {| rec_Time := rec_Time r; rec_Message := rec_Message r; rec_Level := rec_Level r;
     rec_PC := rec_PC r; rec_Attrs := l |}.

Definition set_rec_Message (m : gostring) (r : slogRecord) : slogRecord :=
  {| rec_Time := rec_Time r; rec_Message := m; rec_Level := rec_Level r;
     rec_PC := rec_PC r; rec_Attrs := rec_Attrs r |}.

(** The separator after an attribute is one space, unless nothing was
    written and the separator is the one before. *)
Definition sepStep (s s' : handleState) : Prop :=
  sep s' = str " " \/ (sep s' = sep s /\ buf s' = buf s).

Section Runtime.
Context `{GoRuntime}.

(** What a list of attributes adds to a buffer, and the separator left
    behind, under a key prefix and a first separator. *)
Definition renderAttrs (h0 : Handler) (pfx sep0 : gostring) (l : list Attr)
  : option (list byte * gostring) :=
  s ← appendAttrs (renderState h0 pfx sep0) l; Some (buf s, sep s).

(** An attribute that is written as one key and one value. *)
Definition isLeaf (a : Attr) : Prop :=
  Value_Kind (Resolve (Val a)) <> KindGroup /\
  Attr_isZero (mkAttr (Key a) (Resolve (Val a))) = false.

(** An attribute that is left out: the empty [Attr], after resolution. *)
Definition isElided (a : Attr) : Prop :=
  Attr_isZero (mkAttr (Key a) (Resolve (Val a))) = true.

(** The text of a value under the time format of a handler. *)
Definition valueText (h0 : Handler) (v : Value) : gostring :=
  Value_String (specialCases (newHandleState h0 [] false []) (Resolve v)).

(** Keys and values, each pair after a separator: the first separator is
    given, the others are one space. *)
Fixpoint leavesText (h0 : Handler) (pfx sep0 : gostring) (l : list Attr) : list byte :=
  match l with
  | [] => []
  | a :: l =>
      sep0 ++ quoted (pfx ++ Key a) ++ [x3d] ++ quoted (valueText h0 (Val a))
      ++ leavesText h0 pfx (str " ") l
  end.

(** Every suffix in the cache is the one that [Handle] formats for its
    program counter. *)
Definition cacheConsistent (cache : gmap Z gostring) : Prop :=
  forall pc x, cache !! pc = Some x -> x = formatSuffix (CallersFrame pc).

End Runtime.

(** The call that closes a file. *)
Definition isClose (ev : event) : bool :=
  match ev with
  | EvClose _ => true
  | _ => false
  end.

(** The handlers that a program gets from a handler by [WithAttrs],
    [WithGroup] and [ExtendPrefix]. *)
Inductive derives `{GoRuntime} (h0 : Handler) : Handler -> Prop :=
  | derives_refl : derives h0 h0
  | derives_WithAttrs h1 l h2 :
      derives h0 h1 -> WithAttrs h1 l = Some h2 -> derives h0 h2
  | derives_WithGroup h1 name :
      derives h0 h1 -> derives h0 (WithGroup h1 name)
  | derives_ExtendPrefix h1 x :
      derives h0 h1 -> derives h0 (ExtendPrefix h1 x).

(** A run of a program that holds handlers over backing arrays: each step
    derives a handler from one that the program holds, and keeps both. *)
Inductive derivations `{GoRuntime} (growslice : nat -> nat -> nat)
    (chunking : list byte -> list (list byte))
  : Mem.store -> list Mem.HandlerM -> Mem.store -> list Mem.HandlerM -> Prop :=
  | derivations_nil st pool : derivations growslice chunking st pool st pool
  | derivations_WithAttrs st pool st1 pool1 m l st2 m2 :
      derivations growslice chunking st pool st1 pool1 ->
      m ∈ pool1 ->
      Mem.WithAttrs growslice chunking st1 m l = Some (st2, m2) ->
      derivations growslice chunking st pool st2 (m2 :: pool1)
  | derivations_WithGroup st pool st1 pool1 m name :
      derivations growslice chunking st pool st1 pool1 ->
      m ∈ pool1 ->
      derivations growslice chunking st pool
        (Mem.WithGroup growslice st1 m name).1
        ((Mem.WithGroup growslice st1 m name).2 :: pool1)
  | derivations_ExtendPrefix st pool st1 pool1 m x :
      derivations growslice chunking st pool st1 pool1 ->
      m ∈ pool1 ->
      derivations growslice chunking st pool st1 (Mem.ExtendPrefix m x :: pool1).

(** ** The receiver of the test *)

(** The field loop of [parseProtocolMessage] in [handler_test.go], which
    reads a datagram into a map from field names to values. *)

#[global] Instance byte_countable : Countable byte :=
  inj_countable Byte.to_nat Byte.of_nat Byte.of_to_nat.

(** The errors that the loop returns: [io.EOF], [io.ErrUnexpectedEOF] and the
    error of [fmt.Errorf] for a missing newline. *)
Inductive parseError :=
| io_EOF
| io_ErrUnexpectedEOF
| NewlineExpected (key value : gostring).

(** What the loop comes to: the map, an error, a panic, or more rounds than
    the fuel given. *)
Inductive outcome :=
| Fields (data : gmap gostring gostring)
| Error (err : parseError)
| Panic
| OutOfFuel.

(** [bytes.Buffer.ReadString(delim)] on the unread bytes: the line up to and
    with the delimiter, whether the end came before one, and the bytes left. *)
Fixpoint Buffer_ReadString (r : list byte) (delim : byte) : gostring * bool * list byte :=
  match r with
  | [] => ([], true, [])
  | c :: r =>
      if decide (c = delim) then ([c], false, r)
      else
        let '(line, eof, rest) := Buffer_ReadString r delim in
        (c :: line, eof, rest)
  end.

(** [io.ReadFull(r, b)] for a [b] of [n] bytes: the bytes or the error, and
    the bytes left. *)
Definition io_ReadFull (r : list byte) (n : Z) : (list byte + parseError) * list byte :=
  if n <=? 0 then (inl [], r)
  else if bool_decide (r = []) then (inr io_EOF, r)
  else if len r <? n then (inr io_ErrUnexpectedEOF, [])
  else (inl (take (Z.to_nat n) r), drop (Z.to_nat n) r).

(** [bytes.Buffer.ReadByte]; [None] is [io.EOF]. *)
Definition Buffer_ReadByte (r : list byte) : option (byte * list byte) :=
  match r with
  | [] => None
  | c :: r => Some (c, r)
  end.

(** [strings.Index(s, sep)] for a separator of one byte; [None] is -1. *)
Fixpoint strings_IndexByte (s : gostring) (sep : byte) : option nat :=
  match s with
  | [] => None
  | c :: s => if decide (c = sep) then Some 0%nat else S <$> strings_IndexByte s sep
  end.

(** [strings.SplitN(s, sep, 2)] for a separator of one byte. *)
Definition strings_SplitN2 (s : gostring) (sep : byte) : list gostring :=
  match strings_IndexByte s sep with
  | Some m => [take m s; drop (S m) s]
  | None => [s]
  end.

(** The loop, lines 116 to 159; [make([]byte, size)] panics for a size above
    [maxAlloc]. *)
Fixpoint parseProtocolMessage_loop (maxAlloc : Z) (fuel : nat) (r : list byte)
    (data : gmap gostring gostring) : outcome :=
  match fuel with
  | O => OutOfFuel
  | S fuel =>
      let '(line, eof, r) := Buffer_ReadString r x0a in
      if eof then
        if bool_decide (line = []) then Fields data else Error io_EOF
      else
        let line := take (Z.to_nat (len line - 1)) line in
        match strings_SplitN2 line x3d with
        | [key; value] =>
            parseProtocolMessage_loop maxAlloc fuel r (<[key := value]> data)
        | _ =>
            let key := line in
            match io_ReadFull r 8 with
            | (inr err, _) => Error err
            | (inl b, r) =>
                match Uint64 b with
                | None => Panic
                | Some size =>
                    if maxAlloc <? size then Panic
                    else
                      match io_ReadFull r size with
                      | (inr err, _) => Error err
                      | (inl b, r) =>
                          let value := b in
                          match Buffer_ReadByte r with
                          | None => Error io_EOF
                          | Some (c, r) =>
                              if bool_decide (c <> x0a)
                              then Error (NewlineExpected key value)
                              else parseProtocolMessage_loop maxAlloc fuel r
                                     (<[key := value]> data)
                          end
                      end
                end
            end
        end
  end.



(** Bytes without a control character among them. *)
Definition plain (d : list byte) : Prop := Forall (fun c => isControl c = false) d.

(** ** More sample inputs *)

(** The handler of [WithAttrs] on the sample handler, for the attributes of
    the sample record. *)
Definition sampleBound : Handler :=
  set_preformattedAttrs (str "a=1 b=" ++ [x22] ++ str "x y" ++ [x22]) sampleHandler.

(** A send error for a datagram that is too large. *)
Definition sampleError : error := WrapError (str "write") (ErrnoError EMSGSIZE).

(** A rendering state at the start of the attributes of a record, and an
    attribute whose value has a newline in it. *)
Definition sampleState : handleState :=
  newHandleState sampleHandler [] false (str ": ").

Definition sampleAttr : Attr :=
  mkAttr (str "k") (StringValue [x61; x0a; x62]).

(** The sample handler over backing arrays, in a store without arrays. *)
Definition sampleHandlerM : Mem.HandlerM :=
  {| Mem.fields := sampleHandler;
     Mem.preformattedAttrs_slice := Mem.nilSlice;
     Mem.groups_slice := Mem.nilSlice |}.

Definition emptyStore : Mem.store :=
  {| Mem.byteArrays := ∅; Mem.stringArrays := ∅ |}.

(** * Properties *)

(** Bounds on the groups of a handler that is given in full. *)
Ltac solve_groupsInRange :=
  unfold groupsInRange; simpl; unfold len; simpl; lia.

(** ** The model of strconv at work *)

Example FormatInt_negative : FormatInt (-1728128391) = str "-1728128391".
Proof. reflexivity. Qed.

Example FormatInt_zero : FormatInt 0 = str "0".
Proof. reflexivity. Qed.

Example AppendQuote_space : AppendQuote [] (str "x y") = [x22] ++ str "x y" ++ [x22].
Proof. reflexivity. Qed.

(** The bytes a, newline, double quote, 0x01 and backslash are written as a,
    backslash n, backslash double quote, backslash x01 and two backslashes. *)
Example AppendQuote_escapes :
  AppendQuote (str "k=") [x61; x0a; x22; x01; x5c] =
  str "k=" ++ [x22; x61; x5c; x6e; x5c; x22; x5c; x78; x30; x31; x5c; x5c; x22].
Proof. reflexivity. Qed.

Example needsQuoting_examples :
  needsQuoting (str "x y") = true /\ needsQuoting (str "req.id") = false /\
  needsQuoting [] = false /\ needsQuoting [x61; x09] = true.
Proof. by repeat split. Qed.

(** ** Integers and bytes *)

Lemma len_app {A} (l1 l2 : list A) : len (l1 ++ l2) = len l1 + len l2.
Proof. unfold len. rewrite length_app. lia. Qed.

Lemma len_nonneg {A} (l : list A) : 0 <= len l.
Proof. unfold len. lia. Qed.

Lemma len_nil_iff {A} (l : list A) : len l = 0 <-> l = [].
Proof. unfold len. destruct l; simpl; split; intros; try done; lia. Qed.

Lemma wrap64_small z : int64_range z -> wrap64 z = z.
Proof.
  unfold int64_range, MinInt64, MaxInt64, wrap64. intros Hz.
  rewrite Z.mod_small; lia.
Qed.

Lemma wrap64_above z :
  MaxInt64 < z <= MaxInt64 + 2^63 -> wrap64 z = z - 2^64.
Proof.
  unfold MaxInt64, wrap64. intros Hz.
  replace (z + 2^63) with ((z - 2^63) + 1 * 2^64) by lia.
  rewrite Z.mod_add by lia. rewrite Z.mod_small; lia.
Qed.

Lemma Z_of_byte_of_Z z : Z_of_byte (byte_of_Z z) = z mod 256.
Proof.
  unfold Z_of_byte, byte_of_Z.
  pose proof (Z.mod_pos_bound z 256 ltac:(lia)) as Hz.
  destruct (Byte.of_N (Z.to_N (z mod 256))) as [b |] eqn:Hb; simpl.
  - apply Byte.to_of_N in Hb. rewrite Hb. lia.
  - apply Byte.of_N_None_iff in Hb. lia.
Qed.

Lemma testbit_byte_at v i n :
  0 <= i -> 0 <= n ->
  Z.testbit (Z.shiftl (Z.shiftr v (8 * i) mod 256) (8 * i)) n =
  (8 * i <=? n) && (n <? 8 * i + 8) && Z.testbit v n.
Proof.
  intros Hi Hn. destruct (Z.leb_spec (8 * i) n) as [Hle | Hlt]; simpl.
  - rewrite Z.shiftl_spec by lia.
    change 256 with (2 ^ 8). rewrite Z.testbit_mod_pow2 by lia.
    rewrite Z.shiftr_spec by lia.
    replace (n - 8 * i + 8 * i) with n by lia.
    f_equal. destruct (Z.ltb_spec (n - 8 * i) 8), (Z.ltb_spec n (8 * i + 8)); try done; lia.
  - by rewrite Z.shiftl_spec_low by lia.
Qed.

Lemma Uint64_le64 v rest : Uint64 (le64 v ++ rest) = Some (v mod 2 ^ 64).
Proof.
  unfold le64, Uint64. simpl. f_equal.
  rewrite !Z_of_byte_of_Z.
  rewrite <- (Z.shiftl_0_r (Z.shiftr v (8 * 0) mod 256)).
  change (Z.shiftl ?x 0) with (Z.shiftl x (8 * 0)).
  change (Z.shiftl ?x 8) with (Z.shiftl x (8 * 1)).
  change (Z.shiftl ?x 16) with (Z.shiftl x (8 * 2)).
  change (Z.shiftl ?x 24) with (Z.shiftl x (8 * 3)).
  change (Z.shiftl ?x 32) with (Z.shiftl x (8 * 4)).
  change (Z.shiftl ?x 40) with (Z.shiftl x (8 * 5)).
  change (Z.shiftl ?x 48) with (Z.shiftl x (8 * 6)).
  change (Z.shiftl ?x 56) with (Z.shiftl x (8 * 7)).
  apply Z.bits_inj'. intros n Hn.
  rewrite !Z.lor_spec, !testbit_byte_at by lia.
  rewrite Z.testbit_mod_pow2 by lia.
  assert (Hcases : n < 8 \/ 8 <= n < 16 \/ 16 <= n < 24 \/ 24 <= n < 32 \/
                   32 <= n < 40 \/ 40 <= n < 48 \/ 48 <= n < 56 \/ 56 <= n < 64 \/
                   64 <= n) by lia.
  destruct (Z.testbit v n); rewrite ?andb_false_r; simpl.
  2: by destruct (n <? 64).
  rewrite !andb_true_r.
  destruct_or!;
    repeat match goal with
    | |- context [?a <=? ?b] =>
        first [ rewrite (proj2 (Z.leb_le a b)) by lia
              | rewrite (proj2 (Z.leb_gt a b)) by lia ]
    | |- context [?a <? ?b] =>
        first [ rewrite (proj2 (Z.ltb_lt a b)) by lia
              | rewrite (proj2 (Z.ltb_ge a b)) by lia ]
    end; reflexivity.
Qed.

Lemma length_le64 v : length (le64 v) = 8%nat.
Proof. reflexivity. Qed.

(** ** Priorities *)

Lemma selectPrefix_below lvl :
  int64_range lvl -> lvl < LevelDebug -> selectPrefix lvl = Some prefixDebug.
Proof.
  unfold selectPrefix.
  unfold int64_range, MinInt64, MaxInt64, LevelDebug, slog_LevelDebug.
  intros Hr Hl. rewrite wrap64_small.
  - destruct (Z.ltb_spec (lvl - -4) 0); [done | lia].
  - unfold int64_range, MinInt64, MaxInt64. lia.
Qed.

Lemma selectPrefix_above lvl :
  LevelCrit < lvl <= MaxInt64 - 4 -> selectPrefix lvl = Some prefixAlert.
Proof.
  unfold selectPrefix.
  unfold MaxInt64, LevelCrit, slog_LevelError, slog_LevelDebug.
  intros Hl. rewrite wrap64_small.
  - destruct (Z.ltb_spec (lvl - -4) 0); [lia |].
    destruct (Z.ltb_spec (lvl - -4) (len priorityPrefixes)); [|done].
    unfold len in *. simpl in *. lia.
  - unfold int64_range, MinInt64, MaxInt64. lia.
Qed.

Lemma selectPrefix_wraps lvl :
  MaxInt64 - 4 < lvl <= MaxInt64 -> selectPrefix lvl = Some prefixDebug.
Proof.
  unfold selectPrefix. unfold MaxInt64, slog_LevelDebug.
  intros Hl. rewrite wrap64_above by (unfold MaxInt64; lia).
  destruct (Z.ltb_spec (lvl - -4 - 2^64) 0); [done | lia].
Qed.

Lemma priority_table lvl :
  LevelDebug <= lvl <= LevelCrit -> priority lvl = Some (tablePriority lvl).
Proof.
  unfold LevelDebug, slog_LevelDebug, LevelCrit, slog_LevelError. intros Hl.
  assert (Hcases : lvl = -4 \/ lvl = -3 \/ lvl = -2 \/ lvl = -1 \/ lvl = 0 \/
                   lvl = 1 \/ lvl = 2 \/ lvl = 3 \/ lvl = 4 \/ lvl = 5 \/
                   lvl = 6 \/ lvl = 7 \/ lvl = 8 \/ lvl = 9 \/ lvl = 10 \/
                   lvl = 11 \/ lvl = 12) by lia.
  destruct_or!; subst lvl; reflexivity.
Qed.

Lemma priority_below lvl :
  int64_range lvl -> lvl < LevelDebug -> priority lvl = Some 7.
Proof.
  intros Hr Hl. unfold priority. by rewrite selectPrefix_below.
Qed.

Lemma priority_above lvl :
  LevelCrit < lvl <= MaxInt64 - 4 -> priority lvl = Some 1.
Proof.
  intros Hl. unfold priority. by rewrite selectPrefix_above.
Qed.

Lemma priority_wraps lvl :
  MaxInt64 - 4 < lvl <= MaxInt64 -> priority lvl = Some 7.
Proof.
  intros Hl. unfold priority. by rewrite selectPrefix_wraps.
Qed.

(** Up to the last four values of [int], the code follows the table. *)
Lemma priority_tablePriority lvl :
  MinInt64 <= lvl <= MaxInt64 - 4 -> priority lvl = Some (tablePriority lvl).
Proof.
  intros Hl.
  destruct (Z.lt_ge_cases lvl LevelDebug) as [Hlo | Hlo].
  - rewrite priority_below; [| unfold int64_range; lia | done].
    unfold tablePriority. destruct (Z.leb_spec lvl LevelDebug); [done | lia].
  - destruct (Z.le_gt_cases lvl LevelCrit) as [Hhi | Hhi].
    + by apply priority_table.
    + rewrite priority_above by lia.
      unfold tablePriority, LevelDebug, LevelInfo, LevelWarn, LevelError, LevelCrit,
        slog_LevelDebug, slog_LevelInfo, slog_LevelWarn, slog_LevelError in *.
      repeat case_match; try done; lia.
Qed.

Lemma tablePriority_antitone l1 l2 :
  l1 <= l2 -> tablePriority l2 <= tablePriority l1.
Proof.
  unfold tablePriority, LevelDebug, LevelInfo, LevelWarn, LevelError, LevelCrit,
    slog_LevelDebug, slog_LevelInfo, slog_LevelWarn, slog_LevelError.
  intros Hl. repeat case_match; lia.
Qed.

(** Below the wrap-around the priority falls as the level rises. *)
Lemma priority_antitone_below_wrap l1 l2 p1 p2 :
  MinInt64 <= l1 -> l1 <= l2 -> l2 <= MaxInt64 - 4 ->
  priority l1 = Some p1 -> priority l2 = Some p2 -> p2 <= p1.
Proof.
  intros H1 H12 H2. rewrite !priority_tablePriority by lia.
  intros [= <-] [= <-]. by apply tablePriority_antitone.
Qed.

(** [selectPrefix] indexes the table only within its bounds. *)
Lemma selectPrefix_is_Some lvl : is_Some (selectPrefix lvl).
Proof.
  unfold selectPrefix.
  destruct (Z.ltb_spec (wrap64 (lvl - slog_LevelDebug)) 0); [done |].
  destruct (Z.ltb_spec (wrap64 (lvl - slog_LevelDebug)) (len priorityPrefixes)); [|done].
  apply lookup_lt_is_Some. unfold len in *. lia.
Qed.

(** *** C2 *)

(** C2, as the code has it: a level below [LevelDebug] gets priority 7; a
    level above [LevelCrit], as long as subtracting [LevelDebug] from it does
    not overflow, gets priority 1; and no level gets priority 0. *)
Theorem C2_priority_clamps lvl :
  int64_range lvl ->
  (lvl < LevelDebug -> priority lvl = Some 7) /\
  (LevelCrit < lvl <= MaxInt64 - 4 -> priority lvl = Some 1) /\
  priority lvl <> Some 0.
Proof.
  intros Hr. split; [|split].
  - by apply priority_below.
  - by apply priority_above.
  - destruct (Z.le_gt_cases lvl (MaxInt64 - 4)) as [Hle | Hgt].
    + rewrite priority_tablePriority by (unfold int64_range in Hr; lia).
      unfold tablePriority. repeat case_match; discriminate.
    + rewrite priority_wraps by (unfold int64_range in Hr; lia). discriminate.
Qed.

Lemma C2_priority_clamps_witness :
  priority (-5) = Some 7 /\ priority 17 = Some 1 /\ priority 17 <> Some 0.
Proof.
  assert (H5 : int64_range (-5)) by (unfold int64_range, MinInt64, MaxInt64; lia).
  assert (H17 : int64_range 17) by (unfold int64_range, MinInt64, MaxInt64; lia).
  split; [| split].
  - apply (proj1 (C2_priority_clamps (-5) H5)).
    unfold LevelDebug, slog_LevelDebug. lia.
  - apply (proj1 (proj2 (C2_priority_clamps 17 H17))).
    unfold LevelCrit, slog_LevelError, MaxInt64. lia.
  - apply (proj2 (proj2 (C2_priority_clamps 17 H17))).
Defined.

(** A level above every named level, [LevelAlert] included, gets priority 1
    and not 0. *)
Lemma C2_counterexample :
  int64_range 17 /\ LevelCrit < 17 /\ LevelAlert < 17 /\
  priority 17 = Some 1 /\ priority 17 <> Some 0.
Proof.
  unfold int64_range, MinInt64, MaxInt64, LevelCrit, LevelAlert, slog_LevelError.
  repeat split; try lia; try reflexivity. discriminate.
Qed.

(** *** C3 *)

(** C3 at the top of the range of [int]: [LevelInfo] is below the largest
    level, yet it gets priority 6 and the largest level gets priority 7,
    because [r.Level - slog.LevelDebug] wraps around to a negative index. *)
Theorem C3_priority_rises_at_wrap :
  int64_range LevelInfo /\ int64_range MaxInt64 /\ LevelInfo <= MaxInt64 /\
  priority LevelInfo = Some 6 /\ priority MaxInt64 = Some 7 /\
  wrap64 (MaxInt64 - slog_LevelDebug) = MinInt64 + 3.
Proof.
  unfold int64_range, MinInt64, MaxInt64, LevelInfo, slog_LevelInfo.
  repeat split; try lia; reflexivity.
Qed.

(** ** Induction on attributes *)

Section Resolving.
Context `{GoRuntime}.

Lemma resolveLoop_stripped i orig v :
  resolveLoop i orig v = tooManyLogValues orig \/ resolveLoop i orig v = stripped v.
Proof.
  revert v. induction i as [| i IH]; intros v; simpl; [by left |].
  destruct v; try (by right). simpl. apply IH.
Qed.

Lemma Resolve_group v g : Resolve v = GroupValue g -> stripped v = GroupValue g.
Proof.
  unfold Resolve. intros Hres.
  destruct (resolveLoop_stripped maxLogValues v v) as [Herr | Hs].
  - rewrite Herr in Hres. discriminate.
  - by rewrite <- Hs.
Qed.

Lemma Resolve_not_LogValuer v : Value_Kind (Resolve v) <> KindLogValuer.
Proof.
  unfold Resolve. generalize maxLogValues. generalize v at 1.
  intros orig i. revert v. induction i as [| i IH]; intros v; simpl; [discriminate |].
  destruct v; try discriminate. apply IH.
Qed.

(** What [Resolve] does to a value that is not a [LogValuer]. *)
Lemma Resolve_id v : Value_Kind v <> KindLogValuer -> Resolve v = v.
Proof. by destruct v. Qed.

(** Induction on an attribute, going through [Resolve] to the children. *)
Lemma Attr_resolve_ind (P : Attr -> Prop) :
  (forall key v, (forall g, Resolve v = GroupValue g -> Forall P g) -> P (mkAttr key v)) ->
  forall a, P a.
Proof.
  intros Hstep.
  fix recA 1 with (recV (v : Value) {struct v} :
                     forall g, stripped v = GroupValue g -> Forall P g).
  - intros [key v]. apply Hstep. intros g Hres. apply (recV v). by apply Resolve_group.
  - intros v g. destruct v; try discriminate.
    + simpl. intros [= <-].
      induction g0 as [| a g0 IH]; constructor; [apply recA | exact IH].
    + simpl. apply recV.
Qed.

End Resolving.

(** ** Writing strings and keys *)

Lemma AppendQuote_app buf0 x : AppendQuote buf0 x = buf0 ++ AppendQuote [] x.
Proof.
  unfold AppendQuote. rewrite app_assoc. f_equal.
  change (buf0 ++ [x22]) with (buf0 ++ ([] ++ [x22])).
  generalize ([] ++ [x22] : list byte). 
  induction x as [| c x IH]; intros acc; simpl; [done |].
  destruct (Z_of_byte c <? 128).
  - assert (Hc : forall b, appendEscapedRune b c = b ++ appendEscapedRune [] c).
    { intros b. unfold appendEscapedRune. repeat case_match; by rewrite ?app_nil_l, ?app_assoc. }
    rewrite (Hc (buf0 ++ acc)), (Hc acc), <- app_assoc. apply IH.
  - rewrite <- app_assoc. apply IH.
Qed.

Lemma buf_appendString s x : buf (appendString s x) = buf s ++ quoted x.
Proof.
  unfold appendString, quoted. destruct (needsQuoting x); simpl; [|done].
  apply AppendQuote_app.
Qed.

Lemma appendString_frame s x :
  h (appendString s x) = h s /\ prefix (appendString s x) = prefix s /\
  sep (appendString s x) = sep s /\ freeBuf (appendString s x) = freeBuf s.
Proof. unfold appendString. by destruct (needsQuoting x). Qed.

Lemma buf_appendKey s key :
  buf (appendKey s key) = buf s ++ sep s ++ quoted (prefix s ++ key) ++ [x3d].
Proof.
  unfold appendKey. simpl.
  destruct (Z.ltb_spec 0 (len (prefix s))) as [Hp | Hp].
  - simpl. rewrite buf_appendString. simpl. unfold buffer_WriteString, buffer_WriteByte.
    by rewrite <- !app_assoc.
  - assert (prefix s = []) as -> by (apply len_nil_iff; pose proof (len_nonneg (prefix s)); lia).
    simpl. rewrite buf_appendString. simpl. unfold buffer_WriteString, buffer_WriteByte.
    by rewrite <- !app_assoc.
Qed.

Lemma appendKey_frame s key :
  h (appendKey s key) = h s /\ prefix (appendKey s key) = prefix s /\
  sep (appendKey s key) = str " " /\ freeBuf (appendKey s key) = freeBuf s.
Proof.
  unfold appendKey. simpl.
  destruct (0 <? len (prefix s)); simpl;
    match goal with |- context [appendString ?s ?x] =>
      destruct (appendString_frame s x) as (-> & -> & _ & ->) end; done.
Qed.

(** ** Rendering attributes *)

Section Render.
Context `{GoRuntime}.

Lemma appendAttrs_range l s :
  (fix range (l : list Attr) (s : handleState) : option handleState :=
     match l with
     | [] => Some s
     | aa :: l => s ← appendAttr s aa; range l s
     end) l s = appendAttrs s l.
Proof.
  revert s. induction l as [| a l IH]; intros s; [done |].
  simpl. destruct (appendAttr s a); simpl; [apply IH | done].
Qed.

(** [appendAttr] in the order of the source: resolve, return on the empty
    [Attr], then the group or, after the special cases, the key and value. *)
Lemma appendAttr_unfold s key v :
  appendAttr s (mkAttr key v) =
    if Attr_isZero (mkAttr key (Resolve v)) then Some s
    else match Resolve v with
         | GroupValue attrs =>
             if 0 <? len attrs then
               s' ← appendAttrs (if bool_decide (key <> []) then openGroup s key else s) attrs;
               if bool_decide (key <> []) then closeGroup s' key else Some s'
             else Some s
         | v' => Some (appendString (appendKey s key) (Value_String (specialCases s v')))
         end.
Proof.
  change (appendAttr s (mkAttr key v)) with (appendResolved maxLogValues v s key v).
  unfold Resolve. generalize maxLogValues. generalize v at 1 3 5.
  intros orig i. revert v. induction i as [| i IH]; intros v.
  - destruct v; cbn [appendResolved resolveLoop]; unfold appendLeaf, tooManyLogValues;
      by destruct key.
  - destruct v; cbn [appendResolved resolveLoop];
      try (unfold appendLeaf; by destruct (Attr_isZero _)).
    + replace (Attr_isZero (mkAttr key (GroupValue g))) with false by (by destruct key).
      destruct (0 <? len g); [| done].
      by rewrite appendAttrs_range.
    + apply IH.
Qed.

Lemma extends_refl s : extends s s.
Proof. repeat split. exists []. by rewrite app_nil_r. Qed.

Lemma extends_trans s1 s2 s3 : extends s1 s2 -> extends s2 s3 -> extends s1 s3.
Proof.
  intros (Hh1 & Hp1 & Hf1 & d1 & Hb1) (Hh2 & Hp2 & Hf2 & d2 & Hb2).
  repeat split; try congruence.
  exists (d1 ++ d2). rewrite Hb2, Hb1. by rewrite app_assoc.
Qed.

Lemma closeGroup_openGroup s s' key :
  prefix s' = prefix (openGroup s key) ->
  closeGroup s' key = Some (set_sep (str " ") (set_prefix (prefix s) s')).
Proof.
  intros Hp. unfold closeGroup. rewrite Hp. simpl.
  unfold buffer_WriteByte, buffer_WriteString. rewrite !len_app.
  replace (len (prefix s) + len key + len [keyComponentSep] - len key - 1)
    with (len (prefix s)) by (unfold len; simpl; lia).
  destruct (Z.leb_spec 0 (len (prefix s))) as [_ | Hneg];
    [| pose proof (len_nonneg (prefix s)); lia].
  unfold len. rewrite Nat2Z.id, <- app_assoc, take_app_length. done.
Qed.

Lemma appendAttrs_extends l :
  Forall (fun a => forall s, exists s', appendAttr s a = Some s' /\ extends s s') l ->
  forall s, exists s', appendAttrs s l = Some s' /\ extends s s'.
Proof.
  induction 1 as [| a l Ha _ IH]; intros s; simpl.
  - exists s. split; [done | apply extends_refl].
  - destruct (Ha s) as (s1 & -> & He1). simpl.
    destruct (IH s1) as (s2 & -> & He2).
    exists s2. split; [done |]. by eapply extends_trans.
Qed.

Lemma appendAttr_extends a s :
  exists s', appendAttr s a = Some s' /\ extends s s'.
Proof.
  revert s. induction a as [key v IH] using Attr_resolve_ind. intros s.
  rewrite appendAttr_unfold.
  destruct (Attr_isZero (mkAttr key (Resolve v)));
    [exists s; split; [done | apply extends_refl] |].
  destruct (Resolve v) as [| | | | | | | | g |] eqn:Hres.
  9: { specialize (IH g eq_refl).
       destruct (0 <? len g); [| exists s; split; [done | apply extends_refl]].
       destruct (decide (key = [])) as [-> | Hkey].
       - rewrite bool_decide_eq_false_2 by (intros Hk; by apply Hk).
         destruct (appendAttrs_extends g IH s) as (s' & -> & He). simpl. by exists s'.
       - rewrite bool_decide_eq_true_2 by done.
         destruct (appendAttrs_extends g IH (openGroup s key)) as (s' & -> & He). simpl.
         destruct He as (Hh & Hp & Hf & d & Hb).
         rewrite (closeGroup_openGroup s s' key Hp).
         eexists. split; [done |]. repeat split; simpl; try done. by exists d. }
  all: eexists; split; [done |].
  all: match goal with |- extends ?s0 (appendString (appendKey ?s0 ?k) ?x) =>
         destruct (appendString_frame (appendKey s0 k) x) as (Hh & Hp & _ & Hf);
         destruct (appendKey_frame s0 k) as (Hh' & Hp' & _ & Hf');
         repeat split; try congruence;
         rewrite buf_appendString, buf_appendKey, <- !app_assoc; by eexists
       end.
Qed.

Lemma appendAttrs_total l s :
  exists s', appendAttrs s l = Some s' /\ extends s s'.
Proof.
  apply appendAttrs_extends. apply Forall_forall. intros a _ s0. apply appendAttr_extends.
Qed.

End Render.

(** ** Opening the groups of a handler *)

Lemma set_prefix_id s : set_prefix (prefix s) s = s.
Proof. by destruct s. Qed.

Lemma fold_openGroup names s :
  fold_left openGroup names s = set_prefix (prefix s ++ dotted names) s.
Proof.
  revert s. induction names as [| name names IH]; intros s; simpl.
  - unfold dotted. simpl. by rewrite app_nil_r, set_prefix_id.
  - rewrite IH. unfold openGroup, dotted, buffer_WriteByte, buffer_WriteString. simpl.
    unfold set_prefix. simpl. by rewrite <- !app_assoc.
Qed.

Lemma openGroups_spec s :
  groupsInRange (h s) ->
  openGroups s =
    Some (set_prefix
            (prefix s ++ dotted (drop (Z.to_nat (nOpenGroups (h s))) (groups (h s)))) s).
Proof.
  unfold groupsInRange, openGroups. intros [Hlo Hhi].
  destruct (Z.leb_spec 0 (nOpenGroups (h s))); [| lia].
  destruct (Z.leb_spec (nOpenGroups (h s)) (len (groups (h s)))); [| lia].
  simpl. by rewrite fold_openGroup.
Qed.

Lemma openGroups_None s : ~ groupsInRange (h s) -> openGroups s = None.
Proof.
  unfold groupsInRange, openGroups. intros Hn.
  destruct (Z.leb_spec 0 (nOpenGroups (h s))); [| done].
  destruct (Z.leb_spec (nOpenGroups (h s)) (len (groups (h s)))); [| done].
  lia.
Qed.

(** ** The entry of a record *)

Lemma selectPrefix_shape lvl :
  exists digit, selectPrefix lvl = Some (priorityPrefix digit).
Proof.
  unfold selectPrefix.
  destruct (Z.ltb_spec (wrap64 (lvl - slog_LevelDebug)) 0); [by exists x37 |].
  destruct (Z.ltb_spec (wrap64 (lvl - slog_LevelDebug)) (len priorityPrefixes));
    [| by exists x31].
  assert (Hall : Forall (fun p => exists digit, p = priorityPrefix digit) priorityPrefixes).
  { unfold priorityPrefixes. repeat constructor; by eexists. }
  destruct (priorityPrefixes !! Z.to_nat (wrap64 (lvl - slog_LevelDebug))) as [p |] eqn:Hp.
  - rewrite Forall_lookup in Hall. destruct (Hall _ _ Hp) as [digit ->]. by exists digit.
  - apply lookup_ge_None in Hp. unfold len in *. lia.
Qed.

Section Entry.
Context `{GoRuntime}.

Lemma appendNonBuiltIns_extends s r :
  groupsInRange (h s) ->
  exists s' d, appendNonBuiltIns s r = Some s' /\ buf s' = buf s ++ d.
Proof.
  intros Hr. unfold appendNonBuiltIns.
  set (s1 := if 0 <? len (preformattedAttrs (h s)) then _ else s).
  assert (Hs1 : h s1 = h s /\ exists d, buf s1 = buf s ++ d).
  { subst s1. destruct (0 <? len (preformattedAttrs (h s))); simpl.
    - split; [done |]. unfold buffer_Write, buffer_WriteString.
      rewrite <- app_assoc. by eexists.
    - split; [done |]. exists []. by rewrite app_nil_r. }
  destruct Hs1 as (Hh1 & d1 & Hb1).
  rewrite openGroups_spec by (simpl; by rewrite Hh1). simpl.
  match goal with |- context [appendAttrs ?s0 ?l] =>
    destruct (appendAttrs_total l s0) as (s' & -> & _ & _ & _ & d2 & Hb2) end.
  exists s', (d1 ++ d2). split; [done |].
  rewrite Hb2. simpl. rewrite Hb1. by rewrite app_assoc.
Qed.

Lemma patch_slot (hd rest : list byte) v :
  length hd = 19%nat ->
  (let b := hd ++ zeros8 ++ rest in
   let off := len (hd ++ zeros8) - 8 in
   if (0 <=? off) && (off <=? len b) then
     tail ← PutUint64 (drop (Z.to_nat off) b) v;
     Some (take (Z.to_nat off) b ++ tail)
   else None) = Some (hd ++ le64 v ++ rest).
Proof.
  intros Hhd. cbv zeta.
  assert (Hoff : len (hd ++ zeros8) - 8 = Z.of_nat (length hd)).
  { rewrite len_app. unfold len. simpl. lia. }
  rewrite Hoff, Nat2Z.id.
  rewrite drop_app_length, take_app_length.
  replace ((0 <=? Z.of_nat (length hd)) && (Z.of_nat (length hd) <=? len (hd ++ zeros8 ++ rest)))
    with true.
  2: { symmetry. apply andb_true_iff. split; apply Z.leb_le; [lia |].
       rewrite len_app. pose proof (len_nonneg (zeros8 ++ rest)). unfold len in *. lia. }
  unfold PutUint64.
  replace (8 <=? len (zeros8 ++ rest)) with true.
  2: { symmetry. apply Z.leb_le. rewrite len_app. pose proof (len_nonneg rest).
       unfold len in *. simpl. lia. }
  reflexivity.
Qed.

Lemma Handle_entry_Some h0 r digit suffix s' payload :
  appendNonBuiltIns
    (set_sep (str ": ")
       (set_buf (priorityPrefix digit ++ msgPrefix h0 ++ rec_Message r)
          (newHandleState h0 newBuffer true []))) r = Some s' ->
  buf s' = priorityPrefix digit ++ payload ->
  Handle_entry h0 r (priorityPrefix digit) suffix =
    Some (entryHeader digit ++ le64 (uint64 (len payload)) ++ payload
          ++ suffix ++ timestampField r).
Proof.
  intros Hs' Hbuf. unfold Handle_entry.
  match goal with |- context [appendNonBuiltIns ?s0 r] =>
    replace (appendNonBuiltIns s0 r) with (Some s') end.
  change (Some s' ≫= ?f) with (f s'). cbv beta zeta.
  change (priorityPrefix digit) with (entryHeader digit ++ zeros8) in Hbuf.
  rewrite <- app_assoc in Hbuf.
  set (b := buf (if negb (Time_IsZero (rec_Time r)) then _ else _)).
  assert (Hbdef : b = entryHeader digit ++ zeros8 ++ payload ++ suffix ++ timestampField r).
  { subst b. unfold timestampField.
    destruct (negb (Time_IsZero (rec_Time r))); simpl;
      unfold buffer_WriteByte, buffer_WriteString, AppendInt;
      rewrite Hbuf, <- ?app_assoc; simpl; by rewrite ?app_nil_r. }
  clearbody b. subst b.
  change (buf (set_buf ?x _)) with x.
  change (buf (newHandleState _ ?x _ _)) with x.
  unfold buffer_Len, buffer_WriteString, newBuffer. rewrite app_nil_l.
  replace (len (buf s') - len (priorityPrefix digit)) with (len payload).
  2: { rewrite Hbuf. unfold priorityPrefix, entryHeader. rewrite !len_app.
       unfold len. simpl. lia. }
  change (priorityPrefix digit) with (entryHeader digit ++ zeros8).
  by apply (patch_slot (entryHeader digit)).
Qed.

Lemma Handle_entry_spec h0 r digit suffix :
  groupsInRange h0 ->
  exists attrs,
    Handle_entry h0 r (priorityPrefix digit) suffix =
      Some (entryHeader digit
            ++ le64 (uint64 (len (msgPrefix h0 ++ rec_Message r ++ attrs)))
            ++ (msgPrefix h0 ++ rec_Message r ++ attrs)
            ++ suffix ++ timestampField r).
Proof.
  intros Hr.
  match goal with |- context [Handle_entry h0 r ?p _] =>
    destruct (appendNonBuiltIns_extends
                (set_sep (str ": ")
                   (set_buf (p ++ msgPrefix h0 ++ rec_Message r)
                      (newHandleState h0 newBuffer true []))) r Hr)
      as (s' & attrs & Hs' & Hb) end.
  exists attrs. apply (Handle_entry_Some _ _ _ _ s'); [done |].
  rewrite Hb. simpl. by rewrite <- !app_assoc.
Qed.

End Entry.

Section EntryTheorems.
Context `{GoRuntime}.

Lemma Handle_spec os goos cache h0 r digit b :
  selectPrefix (rec_Level r) = Some (priorityPrefix digit) ->
  Handle_entry h0 r (priorityPrefix digit) (loadSuffix cache (rec_PC r)).1 = Some b ->
  exists res t,
    Handle os goos cache h0 r =
      Some (res, EvWriteMsgUnix (sock h0) b [] (addr h0) :: t,
            (loadSuffix cache (rec_PC r)).2).
Proof.
  intros Hp Hb. unfold Handle. rewrite Hp. simpl.
  destruct (loadSuffix cache (rec_PC r)) as [suffix cache'] eqn:Hl. simpl in *.
  rewrite Hb. simpl.
  destruct (os_WriteMsgUnix os (sock h0) b [] (addr h0)) as [err |].
  - destruct (sendViaFileIfTooLarge goos os h0 err b) as [res t]. by eexists _, _.
  - by eexists _, _.
Qed.

(** C1: for a handler whose groups can be opened, [Handle] sends a datagram
    that is the two header lines, an eight-byte slot, the payload (message
    prefix, message and rendered attributes), the location suffix and the
    timestamp field; the slot, read as a little-endian 64-bit number, is the
    length of the payload.  For the handler of [NewHandler(nil)] and a record
    with message m and attributes a=1, b=x y, the payload is the text
    m: a=1 b=, followed by x y in double quotes. *)
Theorem C1_message_length_prefix :
  (forall os goos cache h0 r,
     groupsInRange h0 ->
     exists digit slot attrs res t,
       let payload := msgPrefix h0 ++ rec_Message r ++ attrs in
       Handle os goos cache h0 r =
         Some (res,
               EvWriteMsgUnix (sock h0)
                 (entryHeader digit ++ slot ++ payload
                  ++ (loadSuffix cache (rec_PC r)).1 ++ timestampField r)
                 [] (addr h0) :: t,
               (loadSuffix cache (rec_PC r)).2) /\
       length slot = 8%nat /\
       (len payload < 2 ^ 64 -> Uint64 slot = Some (len payload))) /\
  (forall os goos cache sock r h0,
     NewHandler (E:=error) (inl sock) None = inl h0 ->
     rec_Message r = str "m" ->
     rec_Attrs r = [mkAttr (str "a") (StringValue (str "1"));
                    mkAttr (str "b") (StringValue (str "x y"))] ->
     exists digit slot res t,
       let payload := str "m: a=1 b=" ++ [x22] ++ str "x y" ++ [x22] in
       Handle os goos cache h0 r =
         Some (res,
               EvWriteMsgUnix sock
                 (entryHeader digit ++ slot ++ payload
                  ++ (loadSuffix cache (rec_PC r)).1 ++ timestampField r)
                 [] (addr h0) :: t,
               (loadSuffix cache (rec_PC r)).2) /\
       length slot = 8%nat /\
       Uint64 slot = Some (len payload)).
Proof.
  split.
  - intros os goos cache h0 r Hr.
    destruct (selectPrefix_shape (rec_Level r)) as [digit Hp].
    destruct (Handle_entry_spec h0 r digit (loadSuffix cache (rec_PC r)).1 Hr)
      as [attrs Hb].
    destruct (Handle_spec os goos cache h0 r digit _ Hp Hb) as (res & t & HH).
    exists digit, (le64 (uint64 (len (msgPrefix h0 ++ rec_Message r ++ attrs)))),
      attrs, res, t.
    cbv zeta. split; [exact HH |]. split; [reflexivity |].
    intros Hlen. rewrite <- (app_nil_r (le64 _)), Uint64_le64.
    unfold uint64. rewrite Z.mod_mod by lia.
    rewrite Z.mod_small; [done |]. split; [apply len_nonneg | done].
  - intros os goos cache sock0 r h0 Hnew Hmsg Hattrs.
    injection Hnew as <-.
    destruct (selectPrefix_shape (rec_Level r)) as [digit Hp].
    set (h0 := {| level := None; preformattedAttrs := []; groupPrefix := []; groups := [];
                  nOpenGroups := 0; sock := sock0;
                  addr := {| Net := str "unixgram"; Name := defaultSocket |};
                  timeFormat := RFC3339Nano; msgPrefix := [] |}).
    assert (Hr : groupsInRange h0) by solve_groupsInRange.
    assert (Hb : Handle_entry h0 r (priorityPrefix digit) (loadSuffix cache (rec_PC r)).1 =
                 Some (entryHeader digit ++ le64 14
                       ++ (str "m: a=1 b=" ++ [x22] ++ str "x y" ++ [x22])
                       ++ (loadSuffix cache (rec_PC r)).1 ++ timestampField r)).
    { eapply (Handle_entry_Some h0 r digit _ _
                (str "m: a=1 b=" ++ [x22] ++ str "x y" ++ [x22])).
      - unfold appendNonBuiltIns. rewrite Hattrs, Hmsg. reflexivity.
      - reflexivity. }
    destruct (Handle_spec os goos cache h0 r digit _ Hp Hb) as (res & t & HH).
    exists digit, (le64 14), res, t. cbv zeta.
    split; [exact HH |]. split; reflexivity.
Qed.

End EntryTheorems.

Lemma C1_message_length_prefix_witness :
  groupsInRange sampleHandler /\
  (exists digit slot attrs res t,
     let payload := msgPrefix sampleHandler ++ rec_Message sampleRecord ++ attrs in
     Handle (H:=noRuntime) okOS linux ∅ sampleHandler sampleRecord =
       Some (res,
             EvWriteMsgUnix (sock sampleHandler)
               (entryHeader digit ++ slot ++ payload
                ++ (loadSuffix (H:=noRuntime) ∅ (rec_PC sampleRecord)).1
                ++ timestampField sampleRecord)
               [] (addr sampleHandler) :: t,
             (loadSuffix (H:=noRuntime) ∅ (rec_PC sampleRecord)).2) /\
     length slot = 8%nat /\
     (len payload < 2 ^ 64 -> Uint64 slot = Some (len payload))) /\
  exists digit slot res t,
    let payload := str "m: a=1 b=" ++ [x22] ++ str "x y" ++ [x22] in
    Handle (H:=noRuntime) okOS linux ∅ sampleHandler sampleRecord =
      Some (res,
            EvWriteMsgUnix 3
              (entryHeader digit ++ slot ++ payload
               ++ (loadSuffix (H:=noRuntime) ∅ (rec_PC sampleRecord)).1
               ++ timestampField sampleRecord)
              [] (addr sampleHandler) :: t,
            (loadSuffix (H:=noRuntime) ∅ (rec_PC sampleRecord)).2) /\
    length slot = 8%nat /\
    Uint64 slot = Some (len payload).
Proof.
  assert (Hr : groupsInRange sampleHandler).
  { solve_groupsInRange. }
  split; [exact Hr | split].
  - apply (proj1 (C1_message_length_prefix (H:=noRuntime))
             okOS linux ∅ sampleHandler sampleRecord Hr).
  - apply (proj2 (C1_message_length_prefix (H:=noRuntime))
             okOS linux ∅ 3 sampleRecord sampleHandler);
      reflexivity.
Defined.

(** ** Quoting *)

Lemma needsQuoting_hasSpecial x : needsQuoting x = true <-> hasSpecial x.
Proof.
  unfold needsQuoting, hasSpecial. rewrite existsb_exists. split.
  - intros (c & Hin & Hc). exists c. split; [by apply list_elem_of_In |].
    rewrite !orb_true_iff in Hc. tauto.
  - intros (c & Hin & Hc). exists c. split; [by apply list_elem_of_In |].
    rewrite !orb_true_iff. tauto.
Qed.

Lemma length_appendEscapedRune b c :
  (length b < length (appendEscapedRune b c))%nat.
Proof.
  unfold appendEscapedRune. repeat case_match; rewrite ?length_app; simpl; lia.
Qed.

Lemma length_AppendQuote x : (length x + 2 <= length (AppendQuote [] x))%nat.
Proof.
  unfold AppendQuote. rewrite length_app. simpl.
  assert (Hfold : forall acc,
    (length acc + length x <=
     length (fold_left (fun buf c => if (Z_of_byte c <? 128)%Z
                                    then appendEscapedRune buf c else buf ++ [c]) x acc))%nat).
  { induction x as [| c x IH]; intros acc; simpl; [lia |].
    etransitivity; [| apply IH].
    destruct (Z_of_byte c <? 128).
    - pose proof (length_appendEscapedRune acc c). lia.
    - rewrite length_app. simpl. lia. }
  specialize (Hfold [x22]). simpl in Hfold. lia.
Qed.

Lemma AppendQuote_neq x : AppendQuote [] x <> x.
Proof.
  intros Heq. pose proof (length_AppendQuote x) as Hl. rewrite Heq in Hl. lia.
Qed.

Section Quoting.
Context `{GoRuntime}.

Lemma appendAttr_leaf s key v :
  Value_Kind (Resolve v) <> KindGroup -> Attr_isZero (mkAttr key (Resolve v)) = false ->
  appendAttr s (mkAttr key v) =
    Some (appendString (appendKey s key) (Value_String (specialCases s (Resolve v)))).
Proof.
  intros Hk Hz. rewrite appendAttr_unfold, Hz.
  by destruct (Resolve v).
Qed.

(** C5: for every attribute whose resolved value is not a group (and which is
    not the empty attribute), [appendAttr] writes the key and then the value; the value is written by
    [strconv.AppendQuote] exactly when its text has whitespace, a control
    character or the double quote, and verbatim exactly when it has none. *)
Theorem C5_value_quoted_iff_special s key v :
  Value_Kind (Resolve v) <> KindGroup -> Attr_isZero (mkAttr key (Resolve v)) = false ->
  let raw := Value_String (specialCases s (Resolve v)) in
  exists s' emitted,
    appendAttr s (mkAttr key v) = Some s' /\
    buf s' = buf (appendKey s key) ++ emitted /\
    (hasSpecial raw <-> emitted = AppendQuote [] raw) /\
    (~ hasSpecial raw <-> emitted = raw).
Proof.
  intros Hk Hz raw. rewrite appendAttr_leaf by done. fold raw.
  exists (appendString (appendKey s key) raw), (quoted raw).
  split; [done |]. split; [apply buf_appendString |].
  unfold quoted. rewrite <- needsQuoting_hasSpecial.
  destruct (needsQuoting raw); split; split; try done.
  - intros Heq. by destruct (AppendQuote_neq raw).
  - intros Heq. symmetry in Heq. by destruct (AppendQuote_neq raw).
Qed.

End Quoting.

Lemma C5_value_quoted_iff_special_witness :
  exists s' emitted,
    appendAttr (H:=noRuntime) (newHandleState sampleHandler [] false [])
      (mkAttr (str "b") (StringValue (str "x y"))) = Some s' /\
    buf s' = buf (appendKey (newHandleState sampleHandler [] false []) (str "b")) ++ emitted /\
    (hasSpecial (str "x y") <-> emitted = AppendQuote [] (str "x y")) /\
    (~ hasSpecial (str "x y") <-> emitted = str "x y").
Proof.
  apply (C5_value_quoted_iff_special (H:=noRuntime)
           (newHandleState sampleHandler [] false [])
           (str "b") (StringValue (str "x y"))).
  - discriminate.
  - reflexivity.
Defined.
(** ** Groups *)

Section Groups.
Context `{GoRuntime}.

Lemma appendAttr_group s key v g :
  Resolve v = GroupValue g -> key <> [] -> g <> [] ->
  exists s1,
    appendAttrs (openGroup s key) g = Some s1 /\
    prefix s1 = prefix s ++ key ++ [keyComponentSep] /\
    appendAttr s (mkAttr key v) =
      Some (set_sep (str " ") (set_prefix (prefix s) s1)).
Proof.
  intros Hres Hkey Hg. rewrite appendAttr_unfold, Hres.
  replace (Attr_isZero (mkAttr key (GroupValue g))) with false by (by destruct key).
  replace (0 <? len g) with true by (by destruct g).
  rewrite bool_decide_eq_true_2 by done.
  destruct (appendAttrs_total g (openGroup s key)) as (s1 & Hs1 & _ & Hp & _).
  exists s1. rewrite Hs1. simpl.
  split; [done |]. split.
  - rewrite Hp. simpl. unfold buffer_WriteByte, buffer_WriteString. by rewrite <- app_assoc.
  - by apply closeGroup_openGroup.
Qed.

Lemma appendAttr_group_empty s key v :
  Resolve v = GroupValue [] -> appendAttr s (mkAttr key v) = Some s.
Proof. intros Hres. rewrite appendAttr_unfold, Hres. by destruct key. Qed.

Lemma appendAttr_group_inline s v g :
  Resolve v = GroupValue g -> appendAttr s (mkAttr [] v) = appendAttrs s g.
Proof.
  intros Hres. rewrite appendAttr_unfold, Hres.
  destruct g as [| a g]; [done |].
  replace (0 <? len (a :: g)) with true by done.
  rewrite bool_decide_eq_false_2 by (intros Hk; by apply Hk).
  change (Attr_isZero (mkAttr [] (GroupValue (a :: g)))) with false. cbv iota.
  by destruct (appendAttrs s (a :: g)).
Qed.

(** C4: a value that resolves to a group with at least one child, under a
    key that is not empty, has the children rendered in a state whose key
    prefix is extended by the key and a dot, after which the prefix is put
    back, so that the key of a child is written as the prefix, the group key,
    a dot and the child key; a value that resolves to a group without
    children renders nothing; under the empty key a group renders as its
    children do in the enclosing state; the attribute with the empty key and
    the zero value renders nothing.  The group req with child id=7 gives
    req.id=7, the empty group req gives nothing, and the group with the empty
    key and child x=1 gives x=1. *)
Theorem C4_groups :
  (forall s key v g, Resolve v = GroupValue g -> key <> [] -> g <> [] ->
     exists s1,
       appendAttrs (openGroup s key) g = Some s1 /\
       prefix (openGroup s key) = prefix s ++ key ++ [keyComponentSep] /\
       appendAttr s (mkAttr key v) =
         Some (set_sep (str " ") (set_prefix (prefix s) s1))) /\
  (forall s key k1 v1, key <> [] ->
     exists s',
       appendAttr s (mkAttr key (GroupValue [mkAttr k1 (StringValue v1)])) = Some s' /\
       buf s' = buf s ++ sep s
                ++ quoted (prefix s ++ key ++ [keyComponentSep] ++ k1) ++ [x3d]
                ++ quoted v1 /\
       prefix s' = prefix s) /\
  (forall s key v, Resolve v = GroupValue [] -> appendAttr s (mkAttr key v) = Some s) /\
  (forall s v g, Resolve v = GroupValue g -> appendAttr s (mkAttr [] v) = appendAttrs s g) /\
  (forall s, appendAttr s (mkAttr [] (AnyValue AnyNil)) = Some s) /\
  (forall h0,
     let s0 := newHandleState h0 newBuffer false [] in
     buf <$> appendAttr s0
       (mkAttr (str "req") (GroupValue [mkAttr (str "id") (StringValue (str "7"))]))
     = Some (str "req.id=7") /\
     buf <$> appendAttr s0 (mkAttr (str "req") (GroupValue [])) = Some [] /\
     buf <$> appendAttr s0
       (mkAttr [] (GroupValue [mkAttr (str "x") (StringValue (str "1"))]))
     = Some (str "x=1") /\
     buf <$> appendAttr s0 (mkAttr [] (AnyValue AnyNil)) = Some [] /\
     buf <$> appendAttr s0
       (mkAttr (str "req")
          (LogValuerValue (GroupValue [mkAttr (str "id") (StringValue (str "7"))])))
     = Some (str "req.id=7")).
Proof.
  repeat apply conj.
  - intros s key v g Hres Hkey Hg.
    destruct (appendAttr_group s key v g Hres Hkey Hg) as (s1 & Hs1 & _ & Happ).
    exists s1. repeat split; try done.
    simpl. unfold buffer_WriteByte, buffer_WriteString. by rewrite <- app_assoc.
  - intros s key k1 v1 Hkey.
    destruct (appendAttr_group s key (GroupValue [mkAttr k1 (StringValue v1)])
                [mkAttr k1 (StringValue v1)] eq_refl Hkey ltac:(done))
      as (s1 & Hs1 & _ & ->).
    eexists. split; [done |].
    cbn [appendAttrs] in Hs1.
    rewrite appendAttr_leaf in Hs1; [| discriminate | by destruct k1].
    injection Hs1 as <-. simpl.
    split; [| done].
    rewrite buf_appendString, buf_appendKey. simpl.
    unfold buffer_WriteByte, buffer_WriteString. by rewrite <- !app_assoc.
  - apply appendAttr_group_empty.
  - apply appendAttr_group_inline.
  - done.
  - intros h0 s0. repeat apply conj; reflexivity.
Qed.

End Groups.

Lemma C4_groups_witness :
  (exists s1,
     appendAttrs (H:=noRuntime)
       (openGroup (newHandleState sampleHandler newBuffer false []) (str "req"))
       [mkAttr (str "id") (StringValue (str "7"))] = Some s1 /\
     prefix (openGroup (newHandleState sampleHandler newBuffer false []) (str "req"))
     = [] ++ str "req" ++ [keyComponentSep] /\
     appendAttr (H:=noRuntime) (newHandleState sampleHandler newBuffer false [])
       (mkAttr (str "req")
          (LogValuerValue (GroupValue [mkAttr (str "id") (StringValue (str "7"))])))
     = Some (set_sep (str " ") (set_prefix [] s1))) /\
  (exists s',
     appendAttr (H:=noRuntime) (newHandleState sampleHandler newBuffer false [])
       (mkAttr (str "req") (GroupValue [mkAttr (str "id") (StringValue (str "7"))]))
     = Some s' /\
     buf s' = [] ++ [] ++ quoted ([] ++ str "req" ++ [keyComponentSep] ++ str "id")
              ++ [x3d] ++ quoted (str "7") /\
     prefix s' = []).
Proof.
  split.
  - apply (proj1 (C4_groups (H:=noRuntime))
             (newHandleState sampleHandler newBuffer false [])
             (str "req")
             (LogValuerValue (GroupValue [mkAttr (str "id") (StringValue (str "7"))]))
             [mkAttr (str "id") (StringValue (str "7"))]);
      [reflexivity | discriminate | discriminate].
  - apply (proj1 (proj2 (C4_groups (H:=noRuntime)))
             (newHandleState sampleHandler newBuffer false [])
             (str "req") (str "id") (str "7")).
    discriminate.
Defined.

(** ** Derived handlers *)

Lemma NewHandler_groups {E} (listen : Z + E) opts h0 :
  NewHandler listen opts = inl h0 ->
  groups h0 = [] /\ nOpenGroups h0 = 0 /\ groupPrefix h0 = [] /\ preformattedAttrs h0 = [].
Proof.
  unfold NewHandler. destruct listen as [sk | err]; [| discriminate].
  destruct opts as [opts |]; intros [= <-]; [| done].
  by repeat case_bool_decide.
Qed.

Lemma WithGroup_groupsInRange h0 name :
  groupsInRange h0 -> groupsInRange (WithGroup h0 name).
Proof.
  unfold groupsInRange, WithGroup, clone, slices_Clip. simpl.
  rewrite len_app. pose proof (len_nonneg [name]). lia.
Qed.

Lemma ExtendPrefix_groupsInRange h0 s : groupsInRange h0 -> groupsInRange (ExtendPrefix h0 s).
Proof. done. Qed.

Section Derived.
Context `{GoRuntime}.

Lemma WithAttrs_Some h0 as_ :
  groupsInRange h0 ->
  exists s',
    appendAttrs
      (set_prefix (groupPrefix h0 ++ dotted (drop (Z.to_nat (nOpenGroups h0)) (groups h0)))
         (newHandleState h0 (preformattedAttrs h0) false
            (if 0 <? len (preformattedAttrs h0) then str " " else []))) as_ = Some s' /\
    WithAttrs h0 as_ =
      Some (set_nOpenGroups (len (groups h0))
              (set_groupPrefix (prefix s') (set_preformattedAttrs (buf s') h0))).
Proof.
  intros Hr. unfold WithAttrs.
  set (s0 := if 0 <? len (preformattedAttrs (clone h0)) then _ else _).
  assert (Hs0 : s0 = set_prefix (groupPrefix h0)
                       (newHandleState h0 (preformattedAttrs h0) false
                          (if 0 <? len (preformattedAttrs h0) then str " " else []))).
  { subst s0. unfold clone, slices_Clip. simpl.
    destruct (0 <? len (preformattedAttrs h0)); by destruct h0. }
  clearbody s0. subst s0.
  rewrite openGroups_spec by done. simpl.
  change (set_prefix ?p (set_prefix _ ?s)) with (set_prefix p s).
  match goal with |- context [appendAttrs ?s0 as_] =>
    destruct (appendAttrs_total as_ s0) as (s' & Hs' & _) end.
  exists s'. split; [done |]. rewrite Hs'. simpl.
  unfold clone, slices_Clip. by destruct h0.
Qed.

Lemma WithAttrs_None h0 as_ : ~ groupsInRange h0 -> WithAttrs h0 as_ = None.
Proof.
  intros Hn. unfold WithAttrs. rewrite openGroups_None; [done |].
  by destruct (0 <? len (preformattedAttrs (clone h0))).
Qed.

Lemma WithAttrs_groupsInRange h0 as_ h2 :
  WithAttrs h0 as_ = Some h2 ->
  nOpenGroups h2 = len (groups h2) /\ groups h2 = groups h0.
Proof.
  intros Hw. destruct (decide (groupsInRange h0)) as [Hr | Hn].
  - destruct (WithAttrs_Some h0 as_ Hr) as (s' & _ & Heq).
    rewrite Heq in Hw. by injection Hw as <-.
  - by rewrite WithAttrs_None in Hw.
Qed.

Lemma reachable_groupsInRange h0 : reachable h0 -> groupsInRange h0.
Proof.
  induction 1 as [listen opts h0 Hnew | h0 as_ h2 _ IH Hw | h0 name _ IH | h0 s _ IH].
  - destruct (NewHandler_groups _ _ _ Hnew) as (Hg & Hn & _).
    unfold groupsInRange. rewrite Hn, Hg. done.
  - destruct (WithAttrs_groupsInRange _ _ _ Hw) as [Hn _].
    unfold groupsInRange. rewrite Hn. pose proof (len_nonneg (groups h2)). lia.
  - by apply WithGroup_groupsInRange.
  - by apply ExtendPrefix_groupsInRange.
Qed.

(** C8: every handler reachable from [NewHandler] by [WithAttrs], [WithGroup]
    and [ExtendPrefix] has [nOpenGroups] at most the number of its groups;
    [NewHandler] establishes this, each of the three derivations preserves it,
    and on a reachable handler [WithAttrs] does not panic. *)
Theorem C8_nOpenGroups_le_groups :
  (forall h0, reachable h0 -> nOpenGroups h0 <= len (groups h0)) /\
  (forall (listen : Z + error) opts h0,
     NewHandler listen opts = inl h0 -> nOpenGroups h0 <= len (groups h0)) /\
  (forall h0 as_ h2,
     nOpenGroups h0 <= len (groups h0) -> WithAttrs h0 as_ = Some h2 ->
     nOpenGroups h2 <= len (groups h2)) /\
  (forall h0 name,
     nOpenGroups h0 <= len (groups h0) ->
     nOpenGroups (WithGroup h0 name) <= len (groups (WithGroup h0 name))) /\
  (forall h0 s,
     nOpenGroups h0 <= len (groups h0) ->
     nOpenGroups (ExtendPrefix h0 s) <= len (groups (ExtendPrefix h0 s))) /\
  (forall h0 as_, reachable h0 -> is_Some (WithAttrs h0 as_)).
Proof.
  repeat apply conj.
  - intros h0 Hreach. by destruct (reachable_groupsInRange h0 Hreach).
  - intros listen opts h0 Hnew.
    destruct (NewHandler_groups _ _ _ Hnew) as (-> & -> & _). done.
  - intros h0 as_ h2 _ Hw.
    destruct (WithAttrs_groupsInRange _ _ _ Hw) as [-> _]. lia.
  - intros h0 name Hle. unfold WithGroup, clone, slices_Clip. simpl.
    rewrite len_app. pose proof (len_nonneg [name]). lia.
  - intros h0 s Hle. done.
  - intros h0 as_ Hreach.
    destruct (WithAttrs_Some h0 as_ (reachable_groupsInRange h0 Hreach)) as (s' & _ & ->).
    done.
Qed.

End Derived.

Lemma C8_nOpenGroups_le_groups_witness :
  nOpenGroups (WithGroup sampleHandler (str "g"))
  <= len (groups (WithGroup sampleHandler (str "g"))).
Proof.
  apply (proj1 (C8_nOpenGroups_le_groups (H:=noRuntime))).
  apply reach_WithGroup.
  apply (reach_NewHandler (inl 3) None). reflexivity.
Defined.
(** ** The level floor *)

(** Rendering reads the handler of the state for its time format only. *)
Lemma closeGroup_set_h h' s key :
  closeGroup (set_h h' s) key = set_h h' <$> closeGroup s key.
Proof. unfold closeGroup. simpl. by destruct (0 <=? _). Qed.

Lemma appendString_set_h h' s x :
  appendString (set_h h' s) x = set_h h' (appendString s x).
Proof. unfold appendString. by destruct (needsQuoting x). Qed.

Lemma appendKey_set_h h' s key :
  appendKey (set_h h' s) key = set_h h' (appendKey s key).
Proof.
  unfold appendKey. simpl. destruct (0 <? len (prefix s)); simpl;
    unfold appendString; by destruct (needsQuoting _).
Qed.

Section Floor.
Context `{GoRuntime}.

Lemma appendAttrs_set_h h' l :
  Forall (fun a => forall s, timeFormat h' = timeFormat (h s) ->
                   appendAttr (set_h h' s) a = set_h h' <$> appendAttr s a) l ->
  forall s, timeFormat h' = timeFormat (h s) ->
    appendAttrs (set_h h' s) l = set_h h' <$> appendAttrs s l.
Proof.
  induction 1 as [| a l Ha _ IH]; intros s Ht; simpl; [done |].
  rewrite Ha by done.
  destruct (appendAttr_extends a s) as (s1 & -> & Hh1 & _). simpl.
  apply IH. by rewrite Hh1.
Qed.

Lemma appendAttr_set_h h' a s :
  timeFormat h' = timeFormat (h s) ->
  appendAttr (set_h h' s) a = set_h h' <$> appendAttr s a.
Proof.
  revert s. induction a as [key v IH] using Attr_resolve_ind. intros s Ht.
  destruct (Attr_isZero (mkAttr key (Resolve v))) eqn:Hz.
  { rewrite !appendAttr_unfold. by rewrite Hz. }
  destruct (decide (Value_Kind (Resolve v) = KindGroup)) as [Hg | Hng].
  - destruct (Resolve v) as [| | | | | | | | g |] eqn:Hres; try discriminate.
    specialize (IH g eq_refl).
    rewrite !appendAttr_unfold, Hres.
    replace (Attr_isZero (mkAttr key (GroupValue g))) with false by (by destruct key).
    destruct (0 <? len g); [| done].
    destruct (bool_decide (key <> [])).
    + change (openGroup (set_h h' s) key) with (set_h h' (openGroup s key)).
      rewrite (appendAttrs_set_h h' g IH) by done.
      destruct (appendAttrs (openGroup s key) g) as [s1 |]; simpl; [| done].
      apply closeGroup_set_h.
    + rewrite (appendAttrs_set_h h' g IH) by done.
      by destruct (appendAttrs s g).
  - rewrite !appendAttr_leaf by done.
    assert (Hsc : specialCases (set_h h' s) (Resolve v) = specialCases s (Resolve v)).
    { unfold specialCases. simpl. by rewrite Ht. }
    by rewrite Hsc, appendKey_set_h, appendString_set_h.
Qed.

Lemma appendAttrs_set_h_all h' l s :
  timeFormat h' = timeFormat (h s) ->
  appendAttrs (set_h h' s) l = set_h h' <$> appendAttrs s l.
Proof.
  apply appendAttrs_set_h. apply Forall_forall. intros a _ s0. apply appendAttr_set_h.
Qed.

Lemma Handle_entry_set_level v h0 r p suffix :
  Handle_entry (set_level v h0) r p suffix = Handle_entry h0 r p suffix.
Proof.
  unfold Handle_entry.
  match goal with |- context [appendNonBuiltIns ?s0 r ≫= ?f] =>
    match goal with |- context [appendNonBuiltIns ?s1 r ≫= ?g = appendNonBuiltIns s0 r ≫= f] =>
      assert (Hs : appendNonBuiltIns s1 r = set_h (set_level v h0) <$> appendNonBuiltIns s0 r)
    end
  end.
  { unfold appendNonBuiltIns, openGroups. simpl.
    destruct (0 <? len (preformattedAttrs h0)); simpl;
      (destruct ((0 <=? nOpenGroups h0) && (nOpenGroups h0 <=? len (groups h0)));
       [| done]); simpl; rewrite !fold_openGroup; simpl.
    all: match goal with |- appendAttrs ?s1 _ = _ <$> appendAttrs ?s0 _ =>
           change s1 with (set_h (set_level v h0) s0) end.
    all: by apply appendAttrs_set_h_all. }
  rewrite Hs.
  match goal with |- context [appendNonBuiltIns ?s0 r] =>
    destruct (appendNonBuiltIns s0 r) as [s' |] end; [| done].
  simpl. by destruct (negb (Time_IsZero (rec_Time r))).
Qed.

(** C9: [Enabled] answers true exactly for the levels at or above the floor,
    which is [LevelDebug] when no [Leveler] is configured; [Handle] does the
    same whatever the floor is; and for every record, of whatever level,
    [Handle] encodes an entry and sends it (on a handler whose groups can be
    opened, as every handler made by this package is). *)
Theorem C9_floor_only_in_Enabled :
  (forall h0 l,
     Enabled h0 l = true <->
     match level h0 with Some minLevel => minLevel | None => LevelDebug end <= l) /\
  (forall os goos cache h0 r v,
     Handle os goos cache (set_level v h0) r = Handle os goos cache h0 r) /\
  (forall os goos cache h0 r,
     groupsInRange h0 ->
     exists res b t cache',
       Handle os goos cache h0 r =
         Some (res, EvWriteMsgUnix (sock h0) b [] (addr h0) :: t, cache')).
Proof.
  repeat apply conj.
  - intros h0 l. unfold Enabled. rewrite Z.leb_le. by destruct (level h0).
  - intros os goos cache h0 r v. unfold Handle.
    destruct (selectPrefix (rec_Level r)) as [p |]; simpl; [| done].
    destruct (loadSuffix cache (rec_PC r)) as [suffix cache'].
    rewrite Handle_entry_set_level.
    destruct (Handle_entry h0 r p suffix) as [b |]; simpl; [| done].
    by destruct goos.
  - intros os goos cache h0 r Hr.
    destruct (selectPrefix_shape (rec_Level r)) as [digit Hp].
    destruct (Handle_entry_spec h0 r digit (loadSuffix cache (rec_PC r)).1 Hr)
      as [attrs Hb].
    destruct (Handle_spec os goos cache h0 r digit _ Hp Hb) as (res & t & HH).
    by eexists _, _, _, _.
Qed.

End Floor.

(** A record at [LevelDebug] is not enabled under a floor of [LevelError], and
    [Handle] sends it all the same. *)
Lemma C9_floor_only_in_Enabled_witness :
  Enabled (set_level (Some LevelError) sampleHandler) LevelDebug = false /\
  exists res b t cache',
    Handle (H:=noRuntime) okOS linux ∅ (set_level (Some LevelError) sampleHandler)
      {| rec_Time := rec_Time sampleRecord; rec_Message := str "m";
         rec_Level := LevelDebug; rec_PC := 25; rec_Attrs := [] |} =
      Some (res, EvWriteMsgUnix 3 b [] (addr sampleHandler) :: t, cache').
Proof.
  split; [reflexivity |].
  apply (proj2 (proj2 (C9_floor_only_in_Enabled (H:=noRuntime)))
           okOS linux ∅ (set_level (Some LevelError) sampleHandler)).
  solve_groupsInRange.
Defined.
(** ** The oversize fallback *)

Lemma createNonlinkedFile_events goos os :
  exists ev rest,
    (createNonlinkedFile goos os).2 = ev :: rest /\ isCreate ev = true /\
    existsb isDatagram (ev :: rest) = false.
Proof.
  destruct goos; simpl; unfold createNonlinkedFile_linux, createNonlinkedFile_other;
    repeat case_match; by eexists _, _.
Qed.

Lemma sendViaFileIfTooLarge_other goos os h0 err b :
  tooLarge err = false -> sendViaFileIfTooLarge goos os h0 err b = (Some err, []).
Proof.
  unfold tooLarge. intros Hn. unfold sendViaFileIfTooLarge.
  destruct (LargeMessageSupport goos); [| done].
  unfold sendViaFileIfTooLarge_yes. by rewrite Hn.
Qed.

Lemma sendViaFileIfTooLarge_attempt goos os h0 err b :
  LargeMessageSupport goos = true -> tooLarge err = true ->
  exists res rest,
    sendViaFileIfTooLarge goos os h0 err b =
      (res, (createNonlinkedFile goos os).2 ++ rest).
Proof.
  unfold tooLarge. intros Hs Hy. unfold sendViaFileIfTooLarge, sendViaFileIfTooLarge_yes.
  rewrite Hs, Hy. simpl.
  destruct (createNonlinkedFile goos os) as [[f | e] t]; simpl.
  - repeat case_match; by eexists _, _.
  - exists (Some e), []. by rewrite app_nil_r.
Qed.

(** C7: on a build with the fallback, the anonymous file is created exactly
    when the error of the datagram send is, or wraps, [EMSGSIZE] or [ENOBUFS];
    any other send error is returned as it is, with nothing else done; an
    error from creating the file, or from writing the entry into it, is
    returned as it is, and no datagram is sent after it; on a build without
    the fallback the send error is returned as it is; and [Handle] returns
    what the fallback returns when the send fails, and nil when it succeeds. *)
Theorem C7_oversize_fallback :
  (forall goos os h0 err b,
     LargeMessageSupport goos = true ->
     (existsb isCreate (sendViaFileIfTooLarge goos os h0 err b).2 = true <->
      tooLarge err = true)) /\
  (forall goos os h0 err b,
     tooLarge err = false ->
     sendViaFileIfTooLarge goos os h0 err b = (Some err, [])) /\
  (forall goos os h0 err b e t,
     LargeMessageSupport goos = true -> tooLarge err = true ->
     createNonlinkedFile goos os = (inr e, t) ->
     sendViaFileIfTooLarge goos os h0 err b = (Some e, t) /\
     existsb isDatagram t = false) /\
  (forall goos os h0 err b f t e,
     LargeMessageSupport goos = true -> tooLarge err = true ->
     createNonlinkedFile goos os = (inl f, t) -> os_Write os f b = Some e ->
     sendViaFileIfTooLarge goos os h0 err b = (Some e, t ++ [EvWrite f b; EvClose f]) /\
     existsb isDatagram (t ++ [EvWrite f b; EvClose f]) = false) /\
  (forall os h0 err b,
     sendViaFileIfTooLarge non_unix os h0 err b = (Some err, [])) /\
  (forall (H : GoRuntime) os goos cache h0 r res t cache',
     Handle os goos cache h0 r = Some (res, t, cache') ->
     exists b rest,
       t = EvWriteMsgUnix (sock h0) b [] (addr h0) :: rest /\
       match os_WriteMsgUnix os (sock h0) b [] (addr h0) with
       | None => res = None /\ rest = []
       | Some err => sendViaFileIfTooLarge goos os h0 err b = (res, rest)
       end).
Proof.
  repeat apply conj.
  - intros goos os h0 err b Hs. split.
    + intros Hc. destruct (tooLarge err) eqn:Hy; [done |].
      by rewrite sendViaFileIfTooLarge_other in Hc.
    + intros Hy.
      destruct (sendViaFileIfTooLarge_attempt goos os h0 err b Hs Hy) as (res & rest & ->).
      destruct (createNonlinkedFile_events goos os) as (ev & rest' & -> & Hev & _).
      simpl. by rewrite Hev.
  - apply sendViaFileIfTooLarge_other.
  - intros goos os h0 err b e t Hs Hy Hc.
    unfold sendViaFileIfTooLarge, sendViaFileIfTooLarge_yes. unfold tooLarge in Hy.
    rewrite Hs, Hy, Hc. simpl. split; [done |].
    destruct (createNonlinkedFile_events goos os) as (ev & rest' & Heq & _ & Hd).
    rewrite Hc in Heq. simpl in Heq. by rewrite Heq.
  - intros goos os h0 err b f t e Hs Hy Hc Hw.
    unfold sendViaFileIfTooLarge, sendViaFileIfTooLarge_yes. unfold tooLarge in Hy.
    rewrite Hs, Hy, Hc, Hw. simpl. split; [done |].
    destruct (createNonlinkedFile_events goos os) as (ev & rest' & Heq & _ & Hd).
    rewrite Hc in Heq. simpl in Heq. rewrite Heq, existsb_app, Hd. done.
  - done.
  - intros H os goos cache h0 r res t cache' HH. unfold Handle in HH.
    destruct (selectPrefix (rec_Level r)) as [p |]; simpl in HH; [| done].
    destruct (loadSuffix cache (rec_PC r)) as [suffix cache2].
    destruct (Handle_entry h0 r p suffix) as [b |]; simpl in HH; [| done].
    exists b. destruct (os_WriteMsgUnix os (sock h0) b [] (addr h0)) as [err |].
    + destruct (sendViaFileIfTooLarge goos os h0 err b) as [res' rest].
      injection HH as <- <- <-. by exists rest.
    + injection HH as <- <- <-. by exists [].
Qed.

(** On linux, with datagrams of at most 16 bytes, the entry of the sample
    record goes through the anonymous file. *)
Example Handle_oversize_trace :
  let f := {| Fd := 7; File_Name := str "journal-entry" |} in
  exists b,
    Handle (H:=noRuntime) (limitedOS 16) linux ∅ sampleHandler sampleRecord =
      Some (None,
            [EvWriteMsgUnix 3 b [] (addr sampleHandler);
             EvMemfdCreate (str "journal-entry");
             EvWrite f b;
             EvWriteMsgUnix 3 [] [Fd f] (addr sampleHandler);
             EvClose f],
            {[ 25 := formatSuffix (CallersFrame (GoRuntime:=noRuntime) 25) ]}).
Proof. eexists. vm_compute. reflexivity. Qed.

Lemma C7_oversize_fallback_witness :
  (existsb isCreate
     (sendViaFileIfTooLarge linux okOS sampleHandler
        (WrapError (str "write") (ErrnoError EMSGSIZE)) (str "entry")).2 = true <->
   tooLarge (WrapError (str "write") (ErrnoError EMSGSIZE)) = true) /\
  sendViaFileIfTooLarge linux okOS sampleHandler
    (WrapError (str "write") (ErrnoError (EOTHER 111))) (str "entry")
  = (Some (WrapError (str "write") (ErrnoError (EOTHER 111))), []) /\
  (sendViaFileIfTooLarge unix_other
     {| os_WriteMsgUnix := os_WriteMsgUnix okOS;
        os_MemfdCreate := os_MemfdCreate okOS;
        os_CreateTemp := fun _ _ => inr (ErrnoError (EOTHER 24));
        os_Write := os_Write okOS |}
     sampleHandler (ErrnoError ENOBUFS) (str "entry")
   = (Some (ErrnoError (EOTHER 24)), [EvCreateTemp [] (str "journal-entry-*")]) /\
   existsb isDatagram [EvCreateTemp [] (str "journal-entry-*")] = false).
Proof.
  split; [| split].
  - apply (proj1 C7_oversize_fallback linux okOS sampleHandler). reflexivity.
  - apply (proj1 (proj2 C7_oversize_fallback) linux okOS sampleHandler). reflexivity.
  - apply (proj1 (proj2 (proj2 C7_oversize_fallback)) unix_other); reflexivity.
Defined.

(** ** Binding attributes *)

Lemma dotted_app l1 l2 : dotted (l1 ++ l2) = dotted l1 ++ dotted l2.
Proof. unfold dotted. by rewrite map_app, concat_app. Qed.

Section Binding.
Context `{GoRuntime}.

Lemma WithAttrs_leaf h0 key v :
  groupsInRange h0 ->
  Value_Kind (Resolve v) <> KindGroup -> Attr_isZero (mkAttr key (Resolve v)) = false ->
  let P := groupPrefix h0 ++ dotted (drop (Z.to_nat (nOpenGroups h0)) (groups h0)) in
  WithAttrs h0 [mkAttr key v] =
    Some (set_nOpenGroups (len (groups h0))
            (set_groupPrefix P
               (set_preformattedAttrs
                  (preformattedAttrs h0 ++ firstSep h0 ++ quoted (P ++ key) ++ [x3d]
                   ++ quoted (Value_String
                                (specialCases (newHandleState h0 [] false [])
                                   (Resolve v))))
                  h0))).
Proof.
  intros Hr Hk Hz P.
  destruct (WithAttrs_Some h0 [mkAttr key v] Hr) as (s' & Hs' & ->).
  cbn [appendAttrs] in Hs'. rewrite appendAttr_leaf in Hs' by done.
  injection Hs' as <-.
  rewrite buf_appendString, buf_appendKey.
  destruct (appendString_frame
              (appendKey (set_prefix P (newHandleState h0 (preformattedAttrs h0) false
                                          (firstSep h0))) key)
              (Value_String (specialCases (newHandleState h0 [] false []) (Resolve v))))
    as (_ & Hp & _).
  destruct (appendKey_frame
              (set_prefix P (newHandleState h0 (preformattedAttrs h0) false (firstSep h0)))
              key) as (_ & Hp' & _).
  change (specialCases (set_prefix _ _) (Resolve v))
    with (specialCases (newHandleState h0 [] false []) (Resolve v)).
  fold (firstSep h0). fold P. rewrite Hp, Hp'. simpl.
  by rewrite <- !app_assoc.
Qed.

Lemma WithAttrs_wellFormed h0 as_ h2 :
  wellFormed h0 -> WithAttrs h0 as_ = Some h2 -> wellFormed h2.
Proof.
  intros [Hr Hp] Hw.
  destruct (WithAttrs_Some h0 as_ Hr) as (s' & Hs' & Heq).
  rewrite Heq in Hw. injection Hw as <-.
  destruct (appendAttrs_total as_
              (set_prefix (groupPrefix h0 ++ dotted (drop (Z.to_nat (nOpenGroups h0)) (groups h0)))
                 (newHandleState h0 (preformattedAttrs h0) false
                    (if 0 <? len (preformattedAttrs h0) then str " " else []))))
    as (s2 & Hs2 & _ & Hpre & _).
  rewrite Hs' in Hs2. injection Hs2 as <-.
  split.
  - unfold groupsInRange. simpl. pose proof (len_nonneg (groups h0)). lia.
  - simpl. rewrite Hpre. simpl. rewrite Hp, <- dotted_app, take_drop.
    unfold len. by rewrite Nat2Z.id, firstn_all.
Qed.

Lemma reachable_wellFormed h0 : reachable h0 -> wellFormed h0.
Proof.
  induction 1 as [listen opts h0 Hnew | h0 as_ h2 _ IH Hw | h0 name Hre IH | h0 s _ IH].
  - destruct (NewHandler_groups _ _ _ Hnew) as (Hg & Hn & Hp & _).
    split; [unfold groupsInRange; by rewrite Hn, Hg |].
    by rewrite Hp, Hn, Hg.
  - by eapply WithAttrs_wellFormed.
  - destruct IH as [Hr Hp]. split; [by apply WithGroup_groupsInRange |].
    unfold WithGroup, clone, slices_Clip. simpl. rewrite Hp.
    destruct Hr as [Hlo Hhi]. rewrite take_app_le; [done |].
    unfold len in Hhi. lia.
  - done.
Qed.

End Binding.

(** ** A group with the empty name *)

Section EmptyGroupName.
Context `{GoRuntime}.

(** C10: [WithGroup] with the empty name adds the empty name to the groups of
    the handler; opening that group adds a lone dot to the key prefix; an
    attribute bound afterwards has its key written after that dot; and a
    record with attribute a=1 handled by [NewHandler(nil)] under the group
    with the empty name carries the text m: .a=1. *)
Theorem C10_WithGroup_empty_name :
  (forall h0, groups (WithGroup h0 []) = groups h0 ++ [[]]) /\
  (forall s, prefix (openGroup s []) = prefix s ++ [keyComponentSep]) /\
  (forall h0 key v,
     groupsInRange h0 ->
     let P := groupPrefix h0 ++ dotted (drop (Z.to_nat (nOpenGroups h0)) (groups h0)) in
     exists h2,
       WithAttrs (WithGroup h0 []) [mkAttr key (StringValue v)] = Some h2 /\
       groupPrefix h2 = P ++ [keyComponentSep] /\
       preformattedAttrs h2 =
         preformattedAttrs h0 ++ firstSep h0
         ++ quoted (P ++ [keyComponentSep] ++ key) ++ [x3d] ++ quoted v) /\
  (forall os goos cache sock r h0,
     NewHandler (E:=error) (inl sock) None = inl h0 ->
     rec_Message r = str "m" ->
     rec_Attrs r = [mkAttr (str "a") (StringValue (str "1"))] ->
     exists digit slot res t,
       Handle os goos cache (WithGroup h0 []) r =
         Some (res,
               EvWriteMsgUnix sock
                 (entryHeader digit ++ slot ++ str "m: .a=1"
                  ++ (loadSuffix cache (rec_PC r)).1 ++ timestampField r)
                 [] (addr h0) :: t,
               (loadSuffix cache (rec_PC r)).2)).
Proof.
  repeat apply conj.
  - done.
  - intros s. simpl. unfold buffer_WriteByte, buffer_WriteString. by rewrite app_nil_r.
  - intros h0 key v Hr P.
    pose proof (WithGroup_groupsInRange h0 [] Hr) as Hr2.
    eexists. split; [apply WithAttrs_leaf; [done | discriminate | by destruct key] |].
    assert (HP : groupPrefix (WithGroup h0 [])
                 ++ dotted (drop (Z.to_nat (nOpenGroups (WithGroup h0 [])))
                              (groups (WithGroup h0 [])))
                 = P ++ [keyComponentSep]).
    { unfold WithGroup, clone, slices_Clip. simpl.
      destruct Hr as [Hlo Hhi]. unfold len in Hhi.
      rewrite drop_app_le by lia. rewrite dotted_app. subst P.
      by rewrite <- app_assoc. }
    simpl. split; [exact HP |].
    change (groupPrefix h0 ++
            dotted (drop (Z.to_nat (nOpenGroups h0)) (slices_Clip (groups h0) ++ [[]])))
      with (groupPrefix (WithGroup h0 [])
            ++ dotted (drop (Z.to_nat (nOpenGroups (WithGroup h0 [])))
                         (groups (WithGroup h0 [])))).
    rewrite HP. unfold firstSep. simpl. unfold slices_Clip. by rewrite <- !app_assoc.
  - intros os goos cache sock0 r h0 Hnew Hmsg Hattrs.
    injection Hnew as <-.
    destruct (selectPrefix_shape (rec_Level r)) as [digit Hp].
    match goal with |- context [Handle _ _ _ ?hg r] => set (hg0 := hg) end.
    assert (Hb : Handle_entry hg0 r (priorityPrefix digit) (loadSuffix cache (rec_PC r)).1 =
                 Some (entryHeader digit ++ le64 (uint64 (len (str "m: .a=1")))
                       ++ str "m: .a=1"
                       ++ (loadSuffix cache (rec_PC r)).1 ++ timestampField r)).
    { eapply (Handle_entry_Some hg0 r digit _ _ (str "m: .a=1")).
      - unfold appendNonBuiltIns. rewrite Hattrs, Hmsg. reflexivity.
      - reflexivity. }
    destruct (Handle_spec os goos cache hg0 r digit _ Hp Hb) as (res & t & HH).
    by eexists digit, _, res, t.
Qed.

End EmptyGroupName.

Lemma C10_WithGroup_empty_name_witness :
  exists h2,
    WithAttrs (H:=noRuntime) (WithGroup sampleHandler [])
      [mkAttr (str "a") (StringValue (str "1"))] = Some h2 /\
    groupPrefix h2 = str "." /\
    preformattedAttrs h2 = str ".a=1".
Proof.
  assert (Hr : groupsInRange sampleHandler).
  { solve_groupsInRange. }
  exact (proj1 (proj2 (proj2 (C10_WithGroup_empty_name (H:=noRuntime))))
           sampleHandler (str "a") (str "1") Hr).
Defined.
(** ** Backing arrays *)

Section MemArrays.
Context {A : Type}.
Variable zero : A.
Variable growslice : nat -> nat -> nat.

Local Abbreviation contents := (@Mem.contents A).
Local Abbreviation valid := (@Mem.valid A).
Local Abbreviation preserved := (@Mem.preserved A).
Local Abbreviation append := (Mem.append zero growslice).
Local Abbreviation appends := (Mem.appends zero growslice).

Lemma preserved_refl arrays : preserved arrays arrays.
Proof. by intros p arr. Qed.

Lemma preserved_trans a1 a2 a3 : preserved a1 a2 -> preserved a2 a3 -> preserved a1 a3.
Proof. intros H12 H23 p arr Hp. by apply H23, H12. Qed.

Lemma length_contents arrays s :
  valid arrays s -> length (contents arrays s) = Mem.slen s.
Proof.
  intros [Hle Harr]. unfold Mem.contents. rewrite length_take.
  destruct (decide (Mem.scap s = 0)%nat) as [Hz | Hnz]; [lia |].
  destruct Harr as (arr & -> & Hlen); [lia |]. simpl. lia.
Qed.

Lemma contents_preserved arrays arrays' s :
  valid arrays s -> preserved arrays arrays' ->
  contents arrays' s = contents arrays s /\ valid arrays' s.
Proof.
  intros [Hle Harr] Hpres. unfold Mem.contents, Mem.valid.
  destruct (decide (Mem.scap s = 0)%nat) as [Hz | Hnz].
  - assert (Mem.slen s = 0)%nat as -> by lia. split; [done |]. split; [lia |]. lia.
  - destruct Harr as (arr & Harr & Hlen); [lia |].
    rewrite (Hpres _ _ Harr), Harr. split; [done |]. split; [done |].
    intros _. by exists arr.
Qed.

Lemma contents_Clip arrays s : contents arrays (Mem.Clip s) = contents arrays s.
Proof. done. Qed.

Lemma valid_Clip arrays s : valid arrays s -> valid arrays (Mem.Clip s).
Proof.
  intros [Hle Harr]. split; simpl; [done |]. intros Hpos.
  destruct Harr as (arr & Harr & Hlen); [lia |]. exists arr. split; [done | lia].
Qed.

(** One [append], on a slice that is full or whose array is not among those
    to be preserved. *)
Lemma append_private arrays0 arrays s xs :
  preserved arrays0 arrays -> valid arrays s ->
  (Mem.slen s = Mem.scap s \/ arrays0 !! Mem.ptr s = None) ->
  preserved arrays0 (append arrays s xs).1 /\
  valid (append arrays s xs).1 (append arrays s xs).2 /\
  (Mem.slen (append arrays s xs).2 = Mem.scap (append arrays s xs).2 \/
   arrays0 !! Mem.ptr (append arrays s xs).2 = None) /\
  contents (append arrays s xs).1 (append arrays s xs).2 = contents arrays s ++ xs.
Proof.
  intros Hpres Hvalid Hpriv. pose proof (length_contents arrays s Hvalid) as Hlen.
  destruct Hvalid as [Hle Harr]. unfold Mem.append.
  destruct (Nat.leb_spec (Mem.slen s + length xs) (Mem.scap s)) as [Hfit | Hgrow]; simpl.
  - destruct xs as [| x xs].
    + (* nothing to write *)
      rewrite alter_id.
      2: { intros arr _. by rewrite Nat.add_0_r, app_nil_l, take_drop. }
      rewrite Nat.add_0_r.
      split; [done |]. split; [by split |]. split; [done |].
      unfold Mem.contents. simpl. by rewrite app_nil_r.
    + simpl in Hfit. destruct Harr as (arr & Harr & Hcap); [lia |].
      destruct Hpriv as [Hfull | Hnone]; [lia |].
      split; [| split; [split |]; [| | split]]; simpl.
      * intros p arr' Hp. rewrite lookup_alter_ne; [by apply Hpres |].
        intros Heq. rewrite <- Heq in Hp. by rewrite Hnone in Hp.
      * lia.
      * intros _. rewrite lookup_alter_eq, Harr. simpl. eexists. split; [done |].
        rewrite length_app. simpl. rewrite length_app, length_take, length_drop. lia.
      * by right.
      * unfold Mem.contents. simpl. rewrite lookup_alter_eq, Harr. simpl.
        change (x :: xs ++ ?l) with ((x :: xs) ++ l).
        rewrite app_assoc, take_app_length'; [done |].
        rewrite length_app, length_take. simpl. lia.
  - assert (Hfresh : arrays !! fresh (dom arrays) = None).
    { apply not_elem_of_dom. apply is_fresh. }
    split; [| split; [split |]; [| | split]]; simpl.
    + intros p arr Hp. rewrite lookup_insert_ne; [by apply Hpres |].
      intros <-. apply Hpres in Hp. by rewrite Hfresh in Hp.
    + lia.
    + intros _. rewrite lookup_insert_eq. eexists. split; [done |].
      rewrite !length_app, length_replicate, Hlen. lia.
    + right. destruct (arrays0 !! fresh (dom arrays)) as [arr |] eqn:Hp; [| done].
      apply Hpres in Hp. by rewrite Hfresh in Hp.
    + unfold Mem.contents at 1. simpl. rewrite lookup_insert_eq. simpl.
      rewrite app_assoc, take_app_length'; [done |].
      rewrite length_app, Hlen. lia.
Qed.

Lemma appends_private arrays0 chunks :
  forall arrays s,
  preserved arrays0 arrays -> valid arrays s ->
  (Mem.slen s = Mem.scap s \/ arrays0 !! Mem.ptr s = None) ->
  preserved arrays0 (appends arrays s chunks).1 /\
  valid (appends arrays s chunks).1 (appends arrays s chunks).2 /\
  contents (appends arrays s chunks).1 (appends arrays s chunks).2
  = contents arrays s ++ concat chunks.
Proof.
  induction chunks as [| xs chunks IH]; intros arrays s Hpres Hvalid Hpriv; simpl.
  - split; [done |]. split; [done |]. by rewrite app_nil_r.
  - destruct (append_private arrays0 arrays s xs Hpres Hvalid Hpriv)
      as (Hpres' & Hvalid' & Hpriv' & Hc).
    destruct (append arrays s xs) as [arrays' s']. simpl in *.
    destruct (IH arrays' s' Hpres' Hvalid' Hpriv') as (Hp2 & Hv2 & Hc2).
    split; [done |]. split; [done |]. by rewrite Hc2, Hc, <- app_assoc.
Qed.

(** Appending to a clipped slice leaves every array as it was. *)
Lemma appends_Clip arrays s chunks :
  valid arrays s ->
  preserved arrays (appends arrays (Mem.Clip s) chunks).1 /\
  valid (appends arrays (Mem.Clip s) chunks).1 (appends arrays (Mem.Clip s) chunks).2 /\
  contents (appends arrays (Mem.Clip s) chunks).1 (appends arrays (Mem.Clip s) chunks).2
  = contents arrays s ++ concat chunks.
Proof.
  intros Hvalid.
  apply (appends_private arrays chunks arrays (Mem.Clip s)).
  - apply preserved_refl.
  - by apply valid_Clip.
  - by left.
Qed.

End MemArrays.

(** ** Handlers over backing arrays *)

Lemma view_preserved st st' m :
  Mem.validHandler st m ->
  Mem.preserved (Mem.byteArrays st) (Mem.byteArrays st') ->
  Mem.preserved (Mem.stringArrays st) (Mem.stringArrays st') ->
  Mem.view st' m = Mem.view st m /\ Mem.validHandler st' m.
Proof.
  intros [Hvb Hvs] Hpb Hps.
  destruct (contents_preserved _ _ _ Hvb Hpb) as [Hcb Hvb'].
  destruct (contents_preserved _ _ _ Hvs Hps) as [Hcs Hvs'].
  unfold Mem.view. rewrite Hcb, Hcs. by split.
Qed.

Section MemDerivation.
Context `{GoRuntime}.
Variable growslice : nat -> nat -> nat.

Lemma Mem_WithGroup_spec st m name :
  Mem.validHandler st m ->
  Mem.view (Mem.WithGroup growslice st m name).1 (Mem.WithGroup growslice st m name).2
  = WithGroup (Mem.view st m) name /\
  Mem.validHandler (Mem.WithGroup growslice st m name).1
    (Mem.WithGroup growslice st m name).2 /\
  Mem.preserved (Mem.byteArrays st) (Mem.byteArrays (Mem.WithGroup growslice st m name).1) /\
  Mem.preserved (Mem.stringArrays st)
    (Mem.stringArrays (Mem.WithGroup growslice st m name).1).
Proof.
  intros [Hvb Hvs]. unfold Mem.WithGroup.
  change (Mem.groups_slice (Mem.clone m)) with (Mem.Clip (Mem.groups_slice m)).
  pose proof (append_private [] growslice (Mem.stringArrays st) (Mem.stringArrays st)
                (Mem.Clip (Mem.groups_slice m)) [name]
                (preserved_refl _) (valid_Clip _ _ Hvs) (or_introl eq_refl))
    as (Hp & Hv & _ & Hc).
  destruct (Mem.append [] growslice (Mem.stringArrays st)
              (Mem.Clip (Mem.groups_slice m)) [name]) as [arrays g].
  cbn [fst snd] in *.
  split; [| split; [| split]].
  - unfold Mem.view. cbn [Mem.stringArrays Mem.byteArrays Mem.groups_slice
                           Mem.preformattedAttrs_slice Mem.fields].
    assert (Hc' : @Mem.contents gostring arrays g
                  = Mem.contents (Mem.stringArrays st) (Mem.groups_slice m) ++ [name])
      by exact Hc.
    rewrite Hc'. destruct m as [[] pslice gslice]. reflexivity.
  - split; cbn [Mem.stringArrays Mem.byteArrays Mem.groups_slice
                Mem.preformattedAttrs_slice]; [by apply valid_Clip | done].
  - by intros p arr.
  - done.
Qed.

Lemma Mem_WithAttrs_spec chunking st m as_ :
  (forall d, concat (chunking d) = d) ->
  Mem.validHandler st m -> groupsInRange (Mem.view st m) ->
  exists st' m',
    Mem.WithAttrs growslice chunking st m as_ = Some (st', m') /\
    WithAttrs (Mem.view st m) as_ = Some (Mem.view st' m') /\
    Mem.validHandler st' m' /\
    Mem.preserved (Mem.byteArrays st) (Mem.byteArrays st') /\
    Mem.preserved (Mem.stringArrays st) (Mem.stringArrays st').
Proof.
  intros Hchunk [Hvb Hvs] Hr. unfold Mem.WithAttrs.
  change (Mem.view st (Mem.clone m)) with (Mem.view st m).
  destruct (WithAttrs_Some (Mem.view st m) as_ Hr) as (s' & Hs' & Hw).
  match type of Hs' with appendAttrs ?s0 _ = _ =>
    destruct (appendAttrs_total as_ s0) as (s2 & Hs2 & _ & _ & _ & d & Hb) end.
  rewrite Hs' in Hs2. injection Hs2 as <-. simpl in Hb.
  rewrite Hw. simpl.
  assert (Hd : drop (Mem.slen (Mem.preformattedAttrs_slice m)) (buf s') = d).
  { rewrite Hb. apply drop_app_length'. symmetry. by apply length_contents. }
  rewrite Hd.
  pose proof (appends_Clip x00 growslice (Mem.byteArrays st)
                (Mem.preformattedAttrs_slice m) (chunking d) Hvb) as (Hp & Hv & Hc).
  rewrite Hchunk in Hc.
  destruct (Mem.appends x00 growslice (Mem.byteArrays st)
              (Mem.Clip (Mem.preformattedAttrs_slice m)) (chunking d)) as [arrays p].
  simpl in *.
  eexists _, _. split; [done |].
  split; [| split; [| split]].
  - f_equal. unfold Mem.view. simpl. rewrite Hc, <- Hb.
    destruct m as [[] pslice gslice]. reflexivity.
  - split; simpl; [done | by apply valid_Clip].
  - done.
  - by intros q arr.
Qed.

End MemDerivation.

(** ** Binding twice *)

Section BindingTwice.
Context `{GoRuntime}.

Lemma Handle_entry_no_attrs h0 r digit suffix :
  groupsInRange h0 -> rec_Attrs r = [] -> preformattedAttrs h0 <> [] ->
  Handle_entry h0 r (priorityPrefix digit) suffix =
    Some (entryHeader digit
          ++ le64 (uint64 (len (msgPrefix h0 ++ rec_Message r ++ str ": "
                                ++ preformattedAttrs h0)))
          ++ (msgPrefix h0 ++ rec_Message r ++ str ": " ++ preformattedAttrs h0)
          ++ suffix ++ timestampField r).
Proof.
  intros Hr Hattrs Hpre.
  assert (Hpos : (0 <? len (preformattedAttrs h0)) = true).
  { apply Z.ltb_lt. destruct (preformattedAttrs h0); [done |].
    unfold len. simpl. lia. }
  eapply Handle_entry_Some.
  - unfold appendNonBuiltIns. rewrite Hattrs. simpl. rewrite Hpos.
    rewrite openGroups_spec by exact Hr. reflexivity.
  - simpl. unfold buffer_Write, buffer_WriteString. by rewrite <- !app_assoc.
Qed.

Lemma WithAttrs_x_y A :
  wellFormed A ->
  let P := dotted (groups A) in
  exists B C,
    WithAttrs A [mkAttr (str "x") (Int64Value 1)] = Some B /\
    WithAttrs B [mkAttr (str "y") (Int64Value 2)] = Some C /\
    preformattedAttrs B =
      preformattedAttrs A ++ firstSep A ++ quoted (P ++ str "x") ++ str "=1" /\
    preformattedAttrs C =
      preformattedAttrs A ++ firstSep A
      ++ quoted (P ++ str "x") ++ str "=1 " ++ quoted (P ++ str "y") ++ str "=2" /\
    wellFormed B /\ wellFormed C /\
    msgPrefix C = msgPrefix A /\ sock C = sock A /\ addr C = addr A.
Proof.
  intros [Hr Hp] P.
  assert (HP : groupPrefix A ++ dotted (drop (Z.to_nat (nOpenGroups A)) (groups A)) = P).
  { subst P. by rewrite Hp, <- dotted_app, take_drop. }
  pose proof (WithAttrs_leaf A (str "x") (Int64Value 1) Hr ltac:(discriminate) eq_refl)
    as HB.
  cbv zeta in HB. rewrite HP in HB.
  match type of HB with _ = Some ?b => set (B := b) in * end.
  assert (HwB : wellFormed B) by (by eapply WithAttrs_wellFormed).
  assert (HPB : groupPrefix B ++ dotted (drop (Z.to_nat (nOpenGroups B)) (groups B)) = P).
  { subst B. simpl. unfold len. by rewrite Nat2Z.id, drop_all, app_nil_r. }
  pose proof (WithAttrs_leaf B (str "y") (Int64Value 2) (proj1 HwB)
                ltac:(discriminate) eq_refl) as HC.
  cbv zeta in HC. rewrite HPB in HC.
  match type of HC with _ = Some ?c => set (C := c) in * end.
  assert (HsepB : firstSep B = str " ").
  { unfold firstSep. subst B. simpl.
    replace (0 <? _) with true; [done |]. symmetry. apply Z.ltb_lt.
    rewrite !len_app. pose proof (len_nonneg (preformattedAttrs A)).
    pose proof (len_nonneg (firstSep A)). pose proof (len_nonneg (quoted (P ++ str "x"))).
    unfold len in *. simpl. lia. }
  exists B, C. split; [done |]. split; [done |].
  split; [by subst B |]. split.
  - subst C. simpl. rewrite HsepB. simpl. by rewrite <- !app_assoc.
  - split; [done |]. split; [by eapply WithAttrs_wellFormed |]. by subst C B.
Qed.

End BindingTwice.

(** C6, as the code has it: for a handler A whose key prefix matches its
    groups, binding x=1 and then y=2 gives handlers B and C; the buffer of C
    is that of A, a space when that is not empty, and the two fields with
    their keys after the dotted path of the groups of A, which is x=1 y=2 when
    A has no groups; a record without attributes handled by C carries its
    message, a colon and a space, and that buffer.  On the slices: both
    derivations succeed, A reads the same after them and B the same after
    the second, and every backing array of before is unchanged. *)
Theorem C6_bind_twice `{GoRuntime} :
  (forall A,
     wellFormed A ->
     exists B C,
       WithAttrs A [mkAttr (str "x") (Int64Value 1)] = Some B /\
       WithAttrs B [mkAttr (str "y") (Int64Value 2)] = Some C /\
       preformattedAttrs C =
         preformattedAttrs A ++ firstSep A
         ++ quoted (dotted (groups A) ++ str "x") ++ str "=1 "
         ++ quoted (dotted (groups A) ++ str "y") ++ str "=2" /\
       (groups A = [] ->
        preformattedAttrs C = preformattedAttrs A ++ firstSep A ++ str "x=1 y=2") /\
       forall os goos cache r,
         rec_Attrs r = [] ->
         exists digit slot res t,
           Handle os goos cache C r =
             Some (res,
                   EvWriteMsgUnix (sock A)
                     (entryHeader digit ++ slot
                      ++ (msgPrefix A ++ rec_Message r ++ str ": " ++ preformattedAttrs C)
                      ++ (loadSuffix cache (rec_PC r)).1 ++ timestampField r)
                     [] (addr A) :: t,
                   (loadSuffix cache (rec_PC r)).2)) /\
  (forall growslice chunking st m,
     (forall d, concat (chunking d) = d) ->
     Mem.validHandler st m -> wellFormed (Mem.view st m) ->
     exists st1 mB st2 mC,
       Mem.WithAttrs growslice chunking st m [mkAttr (str "x") (Int64Value 1)]
       = Some (st1, mB) /\
       Mem.WithAttrs growslice chunking st1 mB [mkAttr (str "y") (Int64Value 2)]
       = Some (st2, mC) /\
       WithAttrs (Mem.view st m) [mkAttr (str "x") (Int64Value 1)]
       = Some (Mem.view st1 mB) /\
       WithAttrs (Mem.view st1 mB) [mkAttr (str "y") (Int64Value 2)]
       = Some (Mem.view st2 mC) /\
       Mem.view st1 m = Mem.view st m /\
       Mem.view st2 m = Mem.view st m /\
       Mem.view st2 mB = Mem.view st1 mB /\
       Mem.preserved (Mem.byteArrays st) (Mem.byteArrays st2) /\
       Mem.preserved (Mem.stringArrays st) (Mem.stringArrays st2)).
Proof.
  split.
  - intros A HA.
    destruct (WithAttrs_x_y A HA) as (B & C & HB & HC & _ & HpC & _ & HwC & Hm & Hs & Ha).
    exists B, C. split; [done |]. split; [done |]. split; [done |]. split.
    + intros Hg. rewrite HpC, Hg. reflexivity.
    + intros os goos cache r Hattrs.
      destruct (selectPrefix_shape (rec_Level r)) as [digit Hp].
      assert (Hne : preformattedAttrs C <> []).
      { rewrite HpC. intros Hnil.
        apply (f_equal (@length byte)) in Hnil. rewrite !length_app in Hnil.
        simpl in Hnil. lia. }
      pose proof (Handle_entry_no_attrs C r digit (loadSuffix cache (rec_PC r)).1
                    (proj1 HwC) Hattrs Hne) as Hb.
      destruct (Handle_spec os goos cache C r digit _ Hp Hb) as (res & t & HH).
      rewrite Hm, Hs, Ha in HH. by eexists digit, _, res, t.
  - intros growslice chunking st m Hchunk Hvalid Hwf.
    destruct (Mem_WithAttrs_spec growslice chunking st m
                [mkAttr (str "x") (Int64Value 1)] Hchunk Hvalid (proj1 Hwf))
      as (st1 & mB & HmB & HvB & HvalidB & Hpb1 & Hps1).
    assert (HwfB : wellFormed (Mem.view st1 mB)) by (by eapply WithAttrs_wellFormed).
    destruct (Mem_WithAttrs_spec growslice chunking st1 mB
                [mkAttr (str "y") (Int64Value 2)] Hchunk HvalidB (proj1 HwfB))
      as (st2 & mC & HmC & HvC & HvalidC & Hpb2 & Hps2).
    exists st1, mB, st2, mC.
    destruct (view_preserved st st1 m Hvalid Hpb1 Hps1) as [Hv1 Hvalid1].
    destruct (view_preserved st1 st2 m Hvalid1 Hpb2 Hps2) as [Hv2 _].
    destruct (view_preserved st1 st2 mB HvalidB Hpb2 Hps2) as [HvB2 _].
    repeat (split; [done |]).
    split; [congruence |]. split; [done |].
    split; by eapply preserved_trans.
Qed.

(** Under the group g the fields are g.x=1 and g.y=2. *)
Lemma C6_counterexample :
  reachable (H:=noRuntime) (WithGroup sampleHandler (str "g")) /\
  exists B C,
    WithAttrs (H:=noRuntime) (WithGroup sampleHandler (str "g"))
      [mkAttr (str "x") (Int64Value 1)] = Some B /\
    WithAttrs (H:=noRuntime) B [mkAttr (str "y") (Int64Value 2)] = Some C /\
    preformattedAttrs C = str "g.x=1 g.y=2" /\
    preformattedAttrs C <> str "x=1 y=2".
Proof.
  split.
  - apply reach_WithGroup. by apply (reach_NewHandler (inl 3) None).
  - eexists _, _.
    split; [vm_compute; reflexivity |].
    split; [vm_compute; reflexivity |].
    split; [vm_compute; reflexivity |].
    vm_compute. discriminate.
Qed.

Lemma C6_bind_twice_witness :
  (exists B C,
     WithAttrs (H:=noRuntime) sampleHandler [mkAttr (str "x") (Int64Value 1)] = Some B /\
     WithAttrs (H:=noRuntime) B [mkAttr (str "y") (Int64Value 2)] = Some C /\
     preformattedAttrs C = str "x=1 y=2") /\
  (exists st1 mB st2 mC,
     Mem.WithAttrs (H:=noRuntime) (fun _ n => (2 * n)%nat) (fun d => [d])
       {| Mem.byteArrays := ∅; Mem.stringArrays := ∅ |}
       {| Mem.fields := sampleHandler; Mem.preformattedAttrs_slice := Mem.nilSlice;
          Mem.groups_slice := Mem.nilSlice |}
       [mkAttr (str "x") (Int64Value 1)] = Some (st1, mB) /\
     Mem.WithAttrs (H:=noRuntime) (fun _ n => (2 * n)%nat) (fun d => [d])
       st1 mB [mkAttr (str "y") (Int64Value 2)] = Some (st2, mC) /\
     Mem.view st2 mB = Mem.view st1 mB /\
     preformattedAttrs (Mem.view st2 mC) = str "x=1 y=2").
Proof.
  assert (Hwf : wellFormed sampleHandler).
  { split; [solve_groupsInRange | reflexivity]. }
  split.
  - destruct (proj1 (C6_bind_twice (H:=noRuntime)) sampleHandler Hwf)
      as (B & C & HB & HC & _ & HpC & _).
    exists B, C. split; [exact HB |]. split; [exact HC |]. exact (HpC eq_refl).
  - set (st0 := {| Mem.byteArrays := ∅; Mem.stringArrays := ∅ |}).
    set (m0 := {| Mem.fields := sampleHandler; Mem.preformattedAttrs_slice := Mem.nilSlice;
                  Mem.groups_slice := Mem.nilSlice |}).
    assert (Hvalid : Mem.validHandler st0 m0).
    { split; (split; simpl; [lia | intros Hpos; lia]). }
    destruct (proj2 (C6_bind_twice (H:=noRuntime)) (fun _ n => (2 * n)%nat) (fun d => [d])
                st0 m0 (fun d => app_nil_r d) Hvalid Hwf)
      as (st1 & mB & st2 & mC & HmB & HmC & HvB & HvC & _ & _ & HvB2 & _ & _).
    exists st1, mB, st2, mC.
    split; [exact HmB |]. split; [exact HmC |]. split; [exact HvB2 |].
    destruct (proj1 (C6_bind_twice (H:=noRuntime)) sampleHandler Hwf)
      as (B & C & HB & HC & _ & HpC & _).
    change (Mem.view st0 m0) with sampleHandler in HvB.
    rewrite HB in HvB. injection HvB as HvB. rewrite <- HvB in HvC.
    rewrite HC in HvC. injection HvC as HvC. rewrite <- HvC.
    exact (HpC eq_refl).
Defined.

(** * Further properties *)

(** ** Rendering, whatever the buffer holds *)

Lemma AppendQuote_shift b0 b x : AppendQuote (b0 ++ b) x = b0 ++ AppendQuote b x.
Proof. by rewrite AppendQuote_app, (AppendQuote_app b), app_assoc. Qed.

Lemma appendString_shiftBuf b0 fb s x :
  appendString (shiftBuf b0 fb s) x = shiftBuf b0 fb (appendString s x).
Proof.
  unfold appendString. destruct (needsQuoting x); unfold shiftBuf, set_buf; simpl.
  - by rewrite AppendQuote_shift.
  - unfold buffer_WriteString. by rewrite app_assoc.
Qed.

Lemma appendKey_shiftBuf b0 fb s key :
  appendKey (shiftBuf b0 fb s) key = shiftBuf b0 fb (appendKey s key).
Proof.
  unfold appendKey. simpl.
  change (set_buf (buffer_WriteString (b0 ++ buf s) (sep s)) (shiftBuf b0 fb s))
    with (set_buf (buffer_WriteString (b0 ++ buf s) (sep s)) (shiftBuf b0 fb s)).
  assert (Hw : set_buf (buffer_WriteString (b0 ++ buf s) (sep s)) (shiftBuf b0 fb s)
               = shiftBuf b0 fb (set_buf (buffer_WriteString (buf s) (sep s)) s)).
  { unfold shiftBuf, set_buf, buffer_WriteString. simpl. by rewrite app_assoc. }
  rewrite Hw.
  destruct (0 <? len (prefix s)); rewrite appendString_shiftBuf;
    unfold shiftBuf, set_buf, set_sep, buffer_WriteByte; simpl; by rewrite app_assoc.
Qed.

Lemma closeGroup_shiftBuf b0 fb s key :
  closeGroup (shiftBuf b0 fb s) key = shiftBuf b0 fb <$> closeGroup s key.
Proof. unfold closeGroup. simpl. by destruct (0 <=? _). Qed.

Section Shift.
Context `{GoRuntime}.

Lemma appendAttrs_shiftBuf b0 fb l :
  Forall (fun a => forall s, appendAttr (shiftBuf b0 fb s) a
                             = shiftBuf b0 fb <$> appendAttr s a) l ->
  forall s, appendAttrs (shiftBuf b0 fb s) l = shiftBuf b0 fb <$> appendAttrs s l.
Proof.
  induction 1 as [| a l Ha _ IH]; intros s; simpl; [done |].
  rewrite Ha. destruct (appendAttr s a) as [s1 |]; simpl; [apply IH | done].
Qed.

Lemma appendAttr_shiftBuf b0 fb a s :
  appendAttr (shiftBuf b0 fb s) a = shiftBuf b0 fb <$> appendAttr s a.
Proof.
  revert s. induction a as [key v IH] using Attr_resolve_ind. intros s.
  destruct (Attr_isZero (mkAttr key (Resolve v))) eqn:Hz.
  { rewrite !appendAttr_unfold. by rewrite Hz. }
  destruct (decide (Value_Kind (Resolve v) = KindGroup)) as [Hg | Hng].
  - destruct (Resolve v) as [| | | | | | | | g |] eqn:Hres; try discriminate.
    specialize (IH g eq_refl).
    rewrite !appendAttr_unfold, Hres.
    replace (Attr_isZero (mkAttr key (GroupValue g))) with false by (by destruct key).
    destruct (0 <? len g); [| done].
    destruct (bool_decide (key <> [])).
    + change (openGroup (shiftBuf b0 fb s) key) with (shiftBuf b0 fb (openGroup s key)).
      rewrite (appendAttrs_shiftBuf b0 fb g IH).
      destruct (appendAttrs (openGroup s key) g) as [s1 |]; simpl; [| done].
      apply closeGroup_shiftBuf.
    + rewrite (appendAttrs_shiftBuf b0 fb g IH).
      by destruct (appendAttrs s g).
  - rewrite !appendAttr_leaf by done.
    change (specialCases (shiftBuf b0 fb s) (Resolve v)) with (specialCases s (Resolve v)).
    by rewrite appendKey_shiftBuf, appendString_shiftBuf.
Qed.

Lemma appendAttrs_shiftBuf_all b0 fb l s :
  appendAttrs (shiftBuf b0 fb s) l = shiftBuf b0 fb <$> appendAttrs s l.
Proof.
  apply appendAttrs_shiftBuf. apply Forall_forall. intros a _ s0. apply appendAttr_shiftBuf.
Qed.

(** Rendering into a state is rendering into an empty buffer, put after what
    the buffer holds. *)
Lemma appendAttrs_renderAttrs s l :
  appendAttrs s l =
    (fun '(d, sp) => set_sep sp (set_buf (buf s ++ d) s))
      <$> renderAttrs (h s) (prefix s) (sep s) l.
Proof.
  assert (Hs : s = shiftBuf (buf s) (freeBuf s) (renderState (h s) (prefix s) (sep s))).
  { destruct s. unfold shiftBuf, renderState. simpl. by rewrite app_nil_r. }
  rewrite Hs at 1. rewrite appendAttrs_shiftBuf_all. unfold renderAttrs.
  destruct (appendAttrs_total l (renderState (h s) (prefix s) (sep s)))
    as (s' & -> & Hh & Hp & Hf & _).
  simpl. f_equal. unfold shiftBuf, set_sep, set_buf. simpl.
  simpl in Hh, Hp. by rewrite Hh, Hp.
Qed.

Lemma renderAttrs_is_Some h0 pfx sep0 l : is_Some (renderAttrs h0 pfx sep0 l).
Proof.
  unfold renderAttrs.
  by destruct (appendAttrs_total l (renderState h0 pfx sep0)) as (s' & -> & _).
Qed.

End Shift.

Section RenderLaws.
Context `{GoRuntime}.

Lemma renderAttrs_timeFormat h1 h2 pfx sep0 l :
  timeFormat h1 = timeFormat h2 ->
  renderAttrs h1 pfx sep0 l = renderAttrs h2 pfx sep0 l.
Proof.
  intros Ht. unfold renderAttrs.
  change (renderState h1 pfx sep0) with (set_h h1 (renderState h2 pfx sep0)).
  rewrite appendAttrs_set_h_all by done.
  by destruct (appendAttrs (renderState h2 pfx sep0) l).
Qed.

Lemma renderAttrs_nil h0 pfx sep0 : renderAttrs h0 pfx sep0 [] = Some ([], sep0).
Proof. done. Qed.

Lemma appendAttrs_app l1 l2 s :
  appendAttrs s (l1 ++ l2) = appendAttrs s l1 ≫= fun s1 => appendAttrs s1 l2.
Proof.
  revert s. induction l1 as [| a l1 IH]; intros s; simpl; [done |].
  destruct (appendAttr s a) as [s1 |]; simpl; [apply IH | done].
Qed.

Lemma renderAttrs_app h0 pfx sep0 l1 l2 :
  renderAttrs h0 pfx sep0 (l1 ++ l2) =
    '(d1, sep1) ← renderAttrs h0 pfx sep0 l1;
    '(d2, sep2) ← renderAttrs h0 pfx sep1 l2;
    Some (d1 ++ d2, sep2).
Proof.
  unfold renderAttrs at 1. rewrite appendAttrs_app.
  rewrite (appendAttrs_renderAttrs (renderState h0 pfx sep0) l1). simpl.
  destruct (renderAttrs h0 pfx sep0 l1) as [[d1 sep1] |]; simpl; [| done].
  rewrite appendAttrs_renderAttrs. simpl.
  by destruct (renderAttrs h0 pfx sep1 l2) as [[d2 sep2] |].
Qed.

Lemma sepStep_refl s : sepStep s s.
Proof. by right. Qed.

Lemma sepStep_trans s1 s2 s3 : sepStep s1 s2 -> sepStep s2 s3 -> sepStep s1 s3.
Proof.
  unfold sepStep. intros [H12 | [H12 B12]] [H23 | [H23 B23]]; [by left | | by left |].
  - left. congruence.
  - right. split; congruence.
Qed.

Lemma appendAttrs_sepStep l :
  Forall (fun a => forall s s', appendAttr s a = Some s' -> sepStep s s') l ->
  forall s s', appendAttrs s l = Some s' -> sepStep s s'.
Proof.
  induction 1 as [| a l Ha _ IH]; intros s s'; simpl.
  - intros [= <-]. apply sepStep_refl.
  - destruct (appendAttr s a) as [s1 |] eqn:H1; simpl; [| done].
    intros H2. eapply sepStep_trans; [by apply Ha | by apply IH].
Qed.

Lemma appendAttr_sepStep a s s' : appendAttr s a = Some s' -> sepStep s s'.
Proof.
  revert s s'. induction a as [key v IH] using Attr_resolve_ind. intros s s'.
  destruct (Attr_isZero (mkAttr key (Resolve v))) eqn:Hz.
  { rewrite appendAttr_unfold, Hz. intros [= <-]. apply sepStep_refl. }
  destruct (decide (Value_Kind (Resolve v) = KindGroup)) as [Hg | Hng].
  - destruct (Resolve v) as [| | | | | | | | g |] eqn:Hres; try discriminate.
    specialize (IH g eq_refl).
    rewrite appendAttr_unfold, Hres.
    replace (Attr_isZero (mkAttr key (GroupValue g))) with false by (by destruct key).
    destruct (0 <? len g); [| intros [= <-]; apply sepStep_refl].
    destruct (bool_decide (key <> [])).
    + destruct (appendAttrs (openGroup s key) g) as [s1 |]; simpl; [| done].
      unfold closeGroup. destruct (0 <=? _); [| done]. intros [= <-]. by left.
    + destruct (appendAttrs s g) as [s1 |] eqn:H1; simpl; [| done].
      intros [= <-]. by apply (appendAttrs_sepStep g IH).
  - rewrite appendAttr_leaf by done. intros [= <-]. left.
    destruct (appendString_frame (appendKey s key)
                (Value_String (specialCases s (Resolve v)))) as (_ & _ & Hsep & _).
    rewrite Hsep. by destruct (appendKey_frame s key) as (_ & _ & Hs & _).
Qed.

Lemma renderAttrs_sep h0 pfx sep0 l d sep1 :
  renderAttrs h0 pfx sep0 l = Some (d, sep1) ->
  sep1 = str " " \/ (sep1 = sep0 /\ d = []).
Proof.
  unfold renderAttrs.
  destruct (appendAttrs (renderState h0 pfx sep0) l) as [s' |] eqn:Hs; simpl; [| done].
  intros [= <- <-].
  apply (appendAttrs_sepStep l) in Hs; [exact Hs |].
  apply Forall_forall. intros a _ s0 s1. apply appendAttr_sepStep.
Qed.

End RenderLaws.

Section Leaves.
Context `{GoRuntime}.

Lemma leavesText_sep h0 pfx sep0 l :
  l <> [] -> leavesText h0 pfx sep0 l = sep0 ++ leavesText h0 pfx [] l.
Proof. by destruct l. Qed.

Lemma appendAttrs_leaves l s :
  Forall isLeaf l ->
  appendAttrs s l =
    Some (set_sep (if l is [] then sep s else str " ")
            (set_buf (buf s ++ leavesText (h s) (prefix s) (sep s) l) s)).
Proof.
  intros Hl. revert s. induction Hl as [| [key v] l [Hk Hz] _ IH]; intros s.
  - simpl. rewrite app_nil_r. by destruct s.
  - cbn [appendAttrs]. simpl in Hk, Hz. rewrite appendAttr_leaf by done.
    cbn [mbind option_bind]. rewrite IH.
    destruct (appendString_frame (appendKey s key)
                (Value_String (specialCases s (Resolve v)))) as (Hh & Hp & Hs & Hf).
    destruct (appendKey_frame s key) as (Hh' & Hp' & Hs' & Hf').
    rewrite buf_appendString, buf_appendKey, Hh, Hp, Hs, Hh', Hp', Hs'.
    cbn [leavesText Key Val].
    f_equal. unfold set_sep, set_buf. cbn [h buf freeBuf sep prefix].
    rewrite Hh, Hp, Hf, Hh', Hp', Hf'.
    f_equal.
    + unfold valueText.
      change (specialCases (newHandleState (h s) [] false []) (Resolve v))
        with (specialCases s (Resolve v)).
      by rewrite <- !app_assoc.
    + by destruct l.
Qed.

Lemma renderAttrs_leaves h0 pfx sep0 l :
  Forall isLeaf l ->
  renderAttrs h0 pfx sep0 l =
    Some (leavesText h0 pfx sep0 l, if l is [] then sep0 else str " ").
Proof.
  intros Hl. unfold renderAttrs. rewrite appendAttrs_leaves by done. simpl.
  by destruct l.
Qed.

(** What [appendNonBuiltIns] does, in terms of the rendering of the
    attributes of the record. *)
Lemma appendNonBuiltIns_render s r :
  groupsInRange (h s) ->
  appendNonBuiltIns s r =
    (let pre := preformattedAttrs (h s) in
     let pfx := prefix s ++ groupPrefix (h s)
                ++ dotted (drop (Z.to_nat (nOpenGroups (h s))) (groups (h s))) in
     '(d, sep1) ← renderAttrs (h s) pfx (if 0 <? len pre then str " " else sep s)
                    (rec_Attrs r);
     Some {| h := h s;
             buf := buf s ++ (if 0 <? len pre then sep s ++ pre else []) ++ d;
             freeBuf := freeBuf s; sep := sep1; prefix := pfx |}).
Proof.
  intros Hr. unfold appendNonBuiltIns. cbv zeta.
  set (s1 := if 0 <? len (preformattedAttrs (h s)) then _ else s).
  assert (Hs1 : s1 = set_sep (if 0 <? len (preformattedAttrs (h s)) then str " " else sep s)
                       (set_buf (buf s ++ (if 0 <? len (preformattedAttrs (h s))
                                           then sep s ++ preformattedAttrs (h s) else [])) s)).
  { subst s1. destruct (0 <? len (preformattedAttrs (h s))).
    - unfold set_sep, set_buf, buffer_Write, buffer_WriteString. simpl.
      by rewrite app_assoc.
    - rewrite app_nil_r. by destruct s. }
  clearbody s1. subst s1.
  rewrite openGroups_spec by done. cbn [mbind option_bind].
  rewrite appendAttrs_renderAttrs. unfold buffer_WriteString. simpl.
  rewrite <- !app_assoc.
  destruct (renderAttrs _ _ _ _) as [[d sep1] |]; simpl; [| done].
  by rewrite <- !app_assoc.
Qed.

(** The entry of a record, in terms of the rendering of its attributes. *)
Lemma Handle_entry_render h0 r digit suffix d sep1 :
  groupsInRange h0 ->
  renderAttrs h0
    (groupPrefix h0 ++ dotted (drop (Z.to_nat (nOpenGroups h0)) (groups h0)))
    (if 0 <? len (preformattedAttrs h0) then str " " else str ": ")
    (rec_Attrs r) = Some (d, sep1) ->
  let payload :=
    msgPrefix h0 ++ rec_Message r
    ++ (if 0 <? len (preformattedAttrs h0) then str ": " ++ preformattedAttrs h0 else [])
    ++ d in
  Handle_entry h0 r (priorityPrefix digit) suffix =
    Some (entryHeader digit ++ le64 (uint64 (len payload)) ++ payload
          ++ suffix ++ timestampField r).
Proof.
  intros Hr Hd payload.
  eapply Handle_entry_Some.
  - rewrite appendNonBuiltIns_render by done. cbv zeta.
    cbn [h buf sep prefix freeBuf set_sep set_buf newHandleState newBuffer app].
    rewrite Hd. reflexivity.
  - simpl. subst payload. by rewrite <- !app_assoc.
Qed.

(** The handler of [WithAttrs], in terms of the rendering of the attributes. *)
Lemma WithAttrs_render h0 l :
  groupsInRange h0 ->
  WithAttrs h0 l =
    (let pfx := groupPrefix h0
                ++ dotted (drop (Z.to_nat (nOpenGroups h0)) (groups h0)) in
     '(d, _) ← renderAttrs h0 pfx (firstSep h0) l;
     Some (set_nOpenGroups (len (groups h0))
             (set_groupPrefix pfx (set_preformattedAttrs (preformattedAttrs h0 ++ d) h0)))).
Proof.
  intros Hr. destruct (WithAttrs_Some h0 l Hr) as (s' & Hs' & ->).
  rewrite appendAttrs_renderAttrs in Hs'. cbv zeta. simpl in Hs'.
  unfold firstSep.
  destruct (renderAttrs _ _ _ _) as [[d sep1] |]; simpl in *; [| done].
  by injection Hs' as <-.
Qed.

End Leaves.

(** ** Rendering one attribute *)


Section Laws.
Context `{GoRuntime}.

Lemma Handle_entry_None h0 r p suffix :
  ~ groupsInRange h0 -> Handle_entry h0 r p suffix = None.
Proof.
  intros Hn. unfold Handle_entry, appendNonBuiltIns. cbv zeta.
  rewrite openGroups_None; [done |].
  by destruct (0 <? len (preformattedAttrs _)).
Qed.

Lemma wellFormed_prefix h0 :
  wellFormed h0 ->
  groupPrefix h0 ++ dotted (drop (Z.to_nat (nOpenGroups h0)) (groups h0))
  = dotted (groups h0).
Proof.
  intros [_ ->]. by rewrite <- dotted_app, take_drop.
Qed.

Lemma Handle_congr os goos cache h1 r1 h2 r2 :
  sock h1 = sock h2 -> addr h1 = addr h2 ->
  rec_Level r1 = rec_Level r2 -> rec_PC r1 = rec_PC r2 ->
  (forall digit suffix,
     Handle_entry h1 r1 (priorityPrefix digit) suffix
     = Handle_entry h2 r2 (priorityPrefix digit) suffix) ->
  Handle os goos cache h1 r1 = Handle os goos cache h2 r2.
Proof.
  intros Hs Ha Hl Hpc He. unfold Handle. rewrite Hl, Hpc.
  destruct (selectPrefix_shape (rec_Level r2)) as [digit ->]. simpl.
  destruct (loadSuffix cache (rec_PC r2)) as [suffix cache'].
  rewrite He, Hs, Ha.
  destruct (Handle_entry h2 r2 (priorityPrefix digit) suffix) as [b |]; simpl; [| done].
  destruct (os_WriteMsgUnix os (sock h2) b [] (addr h2)) as [err |]; [| done].
  assert (Hsend : sendViaFileIfTooLarge goos os h1 err b
                  = sendViaFileIfTooLarge goos os h2 err b).
  { unfold sendViaFileIfTooLarge.
    destruct (LargeMessageSupport goos); [| done].
    unfold sendViaFileIfTooLarge_yes. by rewrite Hs, Ha. }
  by rewrite Hsend.
Qed.

End Laws.

Section HandleLaws.
Context `{GoRuntime}.

(** X2: for a handler whose key prefix is that of its opened groups, and a
    record whose attributes are each one key and one value, the payload of
    the datagram of [Handle] is the message prefix, the message, the
    pre-rendered attributes after a colon and a space when there are any, and
    then each attribute of the record as key=value under the dotted names of
    all the groups of the handler, after a colon and a space for the first
    thing after the message and after one space for the rest. *)
Theorem X2_Handle_leaf_attrs os goos cache h0 r :
  wellFormed h0 -> Forall isLeaf (rec_Attrs r) ->
  let pre := preformattedAttrs h0 in
  let payload :=
    msgPrefix h0 ++ rec_Message r
    ++ (if 0 <? len pre then str ": " ++ pre else [])
    ++ leavesText h0 (dotted (groups h0))
         (if 0 <? len pre then str " " else str ": ") (rec_Attrs r) in
  exists digit res t,
    Handle os goos cache h0 r =
      Some (res,
            EvWriteMsgUnix (sock h0)
              (entryHeader digit ++ le64 (uint64 (len payload)) ++ payload
               ++ (loadSuffix cache (rec_PC r)).1 ++ timestampField r)
              [] (addr h0) :: t,
            (loadSuffix cache (rec_PC r)).2).
Proof.
  intros Hwf Hl pre payload.
  destruct (selectPrefix_shape (rec_Level r)) as [digit Hp].
  exists digit.
  apply (Handle_spec os goos cache h0 r digit); [done |].
  apply (Handle_entry_render h0 r digit _ _
           (if rec_Attrs r is [] then
              (if 0 <? len (preformattedAttrs h0) then str " " else str ": ")
            else str " ")); [apply Hwf |].
  rewrite wellFormed_prefix by done. by apply renderAttrs_leaves.
Qed.

Lemma len_leavesText_pos h0 pfx sep0 l : l <> [] -> 0 < len (leavesText h0 pfx sep0 l).
Proof.
  destruct l as [| a l]; [done | intros _]. cbn [leavesText]. rewrite !len_app.
  pose proof (len_nonneg sep0). pose proof (len_nonneg (quoted (pfx ++ Key a))).
  pose proof (len_nonneg (quoted (valueText h0 (Val a)) ++ leavesText h0 pfx (str " ") l)).
  unfold len in *. simpl. lia.
Qed.

(** X3: a handler that [WithAttrs] returns for attributes that are each one
    key and one value handles a record as the handler it came from handles
    the record with those attributes put before its own: the same calls, the
    same bytes, the same result. *)
Theorem X3_WithAttrs_as_record_attrs os goos cache h0 h1 l r :
  Forall isLeaf l -> WithAttrs h0 l = Some h1 ->
  Handle os goos cache h1 r =
  Handle os goos cache h0 (set_rec_Attrs (l ++ rec_Attrs r) r).
Proof.
  intros Hl Hw.
  destruct (decide (groupsInRange h0)) as [Hr | Hn];
    [| by rewrite WithAttrs_None in Hw].
  rewrite WithAttrs_render in Hw by done. cbv zeta in Hw.
  rewrite renderAttrs_leaves in Hw by done. simpl in Hw. injection Hw as <-.
  set (pfx := groupPrefix h0 ++ dotted (drop (Z.to_nat (nOpenGroups h0)) (groups h0))).
  set (pre := preformattedAttrs h0).
  set (h1 := set_nOpenGroups _ _).
  assert (Hr1 : groupsInRange h1).
  { unfold groupsInRange, h1. simpl. pose proof (len_nonneg (groups h0)). lia. }
  assert (Hgp : groupPrefix h1 ++ dotted (drop (Z.to_nat (nOpenGroups h1)) (groups h1)) = pfx).
  { unfold h1. simpl.
    replace (Z.to_nat (len (groups h0))) with (length (groups h0)) by (unfold len; lia).
    rewrite drop_all. apply app_nil_r. }
  assert (Hpre1 : preformattedAttrs h1 = pre ++ leavesText h0 pfx (firstSep h0) l) by done.
  assert (Hmp : msgPrefix h1 = msgPrefix h0) by done.
  assert (Htf : timeFormat h1 = timeFormat h0) by done.
  assert (Hs : sock h1 = sock h0) by done.
  assert (Ha : addr h1 = addr h0) by done.
  clearbody h1.
  apply Handle_congr; try done.
  intros digit suffix.
  set (sep0 := if 0 <? len pre then str " " else str ": ").
  destruct (renderAttrs_is_Some h0 pfx (if l is [] then sep0 else str " ") (rec_Attrs r))
    as [[d2 sep2] Hd2].
  assert (Hpos : (0 <? len (preformattedAttrs h1))
                 = if l is [] then 0 <? len pre else true).
  { rewrite Hpre1, len_app. destruct l as [| a l'].
    - simpl. f_equal. unfold len. simpl. lia.
    - apply Z.ltb_lt. pose proof (len_nonneg pre).
      assert (0 < len (leavesText h0 pfx (firstSep h0) (a :: l')))
        by (by apply len_leavesText_pos).
      lia. }
  rewrite (Handle_entry_render h0 (set_rec_Attrs (l ++ rec_Attrs r) r) digit suffix
             (leavesText h0 pfx sep0 l ++ d2) sep2 Hr).
  2: { fold pfx. simpl. rewrite renderAttrs_app, renderAttrs_leaves by done. simpl.
       fold pre sep0. by rewrite Hd2. }
  rewrite (Handle_entry_render h1 r digit suffix d2 sep2 Hr1).
  2: { rewrite Hgp, (renderAttrs_timeFormat h1 h0), Hpos, <- Hd2 by done.
       unfold sep0. by destruct l. }
  cbv zeta. change (timestampField (set_rec_Attrs (l ++ rec_Attrs r) r)) with (timestampField r).
  cbn [rec_Message set_rec_Attrs]. fold pre.
  match goal with
  | |- Some (_ ++ le64 (uint64 (len ?P1)) ++ ?P1 ++ _)
       = Some (_ ++ le64 (uint64 (len ?P2)) ++ ?P2 ++ _) =>
      assert (HP : P1 = P2); [| by rewrite HP]
  end.
  rewrite Hmp, Hpos, Hpre1. unfold firstSep. fold pre.
  destruct l as [| a l'].
  - cbn [leavesText]. by rewrite !app_nil_r.
  - unfold sep0. destruct (0 <? len pre) eqn:Hp.
    + by rewrite <- !app_assoc.
    + assert (pre = []) as ->.
      { apply len_nil_iff. apply Z.ltb_ge in Hp. pose proof (len_nonneg pre). lia. }
      cbn [leavesText]. by rewrite <- !app_assoc.
Qed.

End HandleLaws.

Section DerivedLaws.
Context `{GoRuntime}.

Lemma renderAttrs_group h0 pfx sep0 name g :
  name <> [] ->
  renderAttrs h0 pfx sep0 [mkAttr name (GroupValue g)] =
    if g is [] then Some ([], sep0)
    else '(d, _) ← renderAttrs h0 (pfx ++ name ++ [keyComponentSep]) sep0 g;
         Some (d, str " ").
Proof.
  intros Hname. unfold renderAttrs at 1. cbn [appendAttrs].
  destruct g as [| a g].
  - by rewrite appendAttr_group_empty.
  - destruct (appendAttr_group (renderState h0 pfx sep0) name (GroupValue (a :: g)) (a :: g))
      as (s1 & Hs1 & Hp1 & ->); [done | done | done |].
    assert (Ho : openGroup (renderState h0 pfx sep0) name
                 = renderState h0 (pfx ++ name ++ [keyComponentSep]) sep0).
    { unfold openGroup, renderState, set_prefix, buffer_WriteByte, buffer_WriteString.
      simpl. by rewrite <- app_assoc. }
    rewrite Ho in Hs1. unfold renderAttrs. rewrite Hs1. done.
Qed.

Lemma firstSep_nonempty h0 : preformattedAttrs h0 <> [] -> firstSep h0 = str " ".
Proof.
  unfold firstSep. destruct (preformattedAttrs h0) as [| b l]; [done | intros _].
  replace (0 <? len (b :: l)) with true; [done |].
  symmetry. apply Z.ltb_lt. unfold len. simpl. lia.
Qed.

(** X4: binding attributes in two calls of [WithAttrs] gives the handler of
    one call with both lists, provided the first call left something in the
    buffer of pre-rendered attributes. *)
Theorem X4_WithAttrs_twice h0 h1 l1 l2 :
  WithAttrs h0 l1 = Some h1 -> preformattedAttrs h1 <> [] ->
  WithAttrs h1 l2 = WithAttrs h0 (l1 ++ l2).
Proof.
  intros Hw Hne.
  destruct (decide (groupsInRange h0)) as [Hr | Hn];
    [| by rewrite WithAttrs_None in Hw].
  rewrite (WithAttrs_render h0 (l1 ++ l2)) by done.
  rewrite WithAttrs_render in Hw by done. cbv zeta in Hw |- *.
  set (pfx := groupPrefix h0 ++ dotted (drop (Z.to_nat (nOpenGroups h0)) (groups h0))) in *.
  rewrite renderAttrs_app.
  destruct (renderAttrs h0 pfx (firstSep h0) l1) as [[d1 sep1] |] eqn:Hd1;
    simpl in Hw; [| done].
  injection Hw as <-. cbn [mbind option_bind].
  set (h1 := set_nOpenGroups _ _) in *.
  assert (Hr1 : groupsInRange h1).
  { unfold groupsInRange, h1. simpl. pose proof (len_nonneg (groups h0)). lia. }
  rewrite WithAttrs_render by done. cbv zeta.
  assert (Hgp : groupPrefix h1 ++ dotted (drop (Z.to_nat (nOpenGroups h1)) (groups h1)) = pfx).
  { unfold h1. simpl.
    replace (Z.to_nat (len (groups h0))) with (length (groups h0)) by (unfold len; lia).
    rewrite drop_all. apply app_nil_r. }
  assert (Hsep : firstSep h1 = sep1).
  { rewrite (firstSep_nonempty h1) by done.
    destruct (renderAttrs_sep _ _ _ _ _ _ Hd1) as [-> | [-> ->]]; [done |].
    unfold h1 in Hne. simpl in Hne. rewrite app_nil_r in Hne.
    by rewrite firstSep_nonempty. }
  rewrite Hgp, Hsep, (renderAttrs_timeFormat h1 h0) by done.
  destruct (renderAttrs h0 pfx sep1 l2) as [[d2 sep2] |]; simpl; [| done].
  unfold h1. destruct h0. simpl. by rewrite <- app_assoc.
Qed.

(** X5: a handler that [WithGroup] returns for a name that is not empty
    handles a record as the handler it came from handles the record with its
    attributes put into one group attribute of that name. *)
Theorem X5_WithGroup_as_group_attr os goos cache h0 name r :
  name <> [] -> groupsInRange h0 ->
  Handle os goos cache (WithGroup h0 name) r =
  Handle os goos cache h0
    (set_rec_Attrs [mkAttr name (GroupValue (rec_Attrs r))] r).
Proof.
  intros Hname Hr.
  apply Handle_congr; try done.
  intros digit suffix.
  pose proof (WithGroup_groupsInRange h0 name Hr) as Hr1.
  set (pfx := groupPrefix h0 ++ dotted (drop (Z.to_nat (nOpenGroups h0)) (groups h0))).
  set (sep0 := if 0 <? len (preformattedAttrs h0) then str " " else str ": ").
  assert (Hgp : groupPrefix (WithGroup h0 name)
                ++ dotted (drop (Z.to_nat (nOpenGroups (WithGroup h0 name)))
                             (groups (WithGroup h0 name)))
                = pfx ++ name ++ [keyComponentSep]).
  { unfold WithGroup, clone, slices_Clip. simpl.
    rewrite drop_app_le by (unfold groupsInRange, len in Hr; lia).
    rewrite dotted_app. unfold pfx. rewrite <- app_assoc. f_equal. f_equal.
    unfold dotted. simpl. by rewrite app_nil_r. }
  destruct (renderAttrs_is_Some h0 (pfx ++ name ++ [keyComponentSep]) sep0 (rec_Attrs r))
    as [[d sep1] Hd].
  rewrite (Handle_entry_render (WithGroup h0 name) r digit suffix d sep1 Hr1).
  2: { rewrite Hgp, (renderAttrs_timeFormat _ h0) by done. exact Hd. }
  rewrite (Handle_entry_render h0 (set_rec_Attrs [mkAttr name (GroupValue (rec_Attrs r))] r)
             digit suffix d (if rec_Attrs r is [] then sep0 else str " ") Hr).
  2: { cbn [rec_Attrs set_rec_Attrs]. fold pfx sep0. rewrite renderAttrs_group by done.
       destruct (rec_Attrs r) as [| a l] eqn:Ha.
       - rewrite renderAttrs_nil in Hd. by injection Hd as <- <-.
       - by rewrite Hd. }
  done.
Qed.

(** X6: a handler that [ExtendPrefix] returns handles a record as the handler
    it came from handles the record with the extension put before its
    message; and on a handler that panics both panic. *)
Theorem X6_ExtendPrefix_as_message os goos cache h0 x r :
  Handle os goos cache (ExtendPrefix h0 x) r =
  Handle os goos cache h0 (set_rec_Message (x ++ rec_Message r) r).
Proof.
  apply Handle_congr; try done.
  intros digit suffix.
  destruct (decide (groupsInRange h0)) as [Hr | Hn].
  - set (pfx := groupPrefix h0 ++ dotted (drop (Z.to_nat (nOpenGroups h0)) (groups h0))).
    set (sep0 := if 0 <? len (preformattedAttrs h0) then str " " else str ": ").
    destruct (renderAttrs_is_Some h0 pfx sep0 (rec_Attrs r)) as [[d sep1] Hd].
    rewrite (Handle_entry_render (ExtendPrefix h0 x) r digit suffix d sep1 Hr).
    2: { rewrite (renderAttrs_timeFormat _ h0) by done. exact Hd. }
    rewrite (Handle_entry_render h0 (set_rec_Message (x ++ rec_Message r) r)
               digit suffix d sep1 Hr) by exact Hd.
    cbv zeta. change (timestampField (set_rec_Message _ r)) with (timestampField r).
    cbn [rec_Message set_rec_Message].
    change (msgPrefix (ExtendPrefix h0 x)) with (msgPrefix h0 ++ x).
    change (preformattedAttrs (ExtendPrefix h0 x)) with (preformattedAttrs h0).
    by rewrite <- !app_assoc.
  - rewrite !Handle_entry_None; done.
Qed.

(** X7: extending the message prefix and binding attributes, or opening a
    group, can be done in either order, and two extensions are the extension
    by both strings. *)
Theorem X7_ExtendPrefix_commutes h0 x y l name :
  WithAttrs (ExtendPrefix h0 x) l = (fun h2 => ExtendPrefix h2 x) <$> WithAttrs h0 l /\
  WithGroup (ExtendPrefix h0 x) name = ExtendPrefix (WithGroup h0 name) x /\
  ExtendPrefix (ExtendPrefix h0 x) y = ExtendPrefix h0 (x ++ y).
Proof.
  split; [| split].
  - destruct (decide (groupsInRange h0)) as [Hr | Hn].
    + rewrite (WithAttrs_render h0), (WithAttrs_render (ExtendPrefix h0 x)) by done.
      cbv zeta. rewrite (renderAttrs_timeFormat _ h0) by done.
      change (firstSep (ExtendPrefix h0 x)) with (firstSep h0).
      change (groupPrefix (ExtendPrefix h0 x)) with (groupPrefix h0).
      change (nOpenGroups (ExtendPrefix h0 x)) with (nOpenGroups h0).
      change (groups (ExtendPrefix h0 x)) with (groups h0).
      destruct (renderAttrs h0 _ (firstSep h0) l) as [[d sep1] |]; [| done].
      simpl. by destruct h0.
    + rewrite !WithAttrs_None; done.
  - by destruct h0.
  - unfold ExtendPrefix, clone, slices_Clip. destruct h0. simpl.
    unfold set_msgPrefix. simpl. by rewrite <- app_assoc.
Qed.


End DerivedLaws.

(** ** The suffix cache *)

Section Cache.
Context `{GoRuntime}.

Lemma loadSuffix_consistent cache pc :
  cacheConsistent cache ->
  (loadSuffix cache pc).1 = formatSuffix (CallersFrame pc) /\
  (loadSuffix cache pc).2 = <[pc := formatSuffix (CallersFrame pc)]> cache.
Proof.
  intros Hc. unfold loadSuffix.
  destruct (cache !! pc) as [x |] eqn:Hx; simpl; [| done].
  rewrite (Hc pc x Hx). split; [done |].
  symmetry. apply insert_id. by rewrite Hx, (Hc pc x Hx).
Qed.

(** X9: with a cache that holds only suffixes that [Handle] has formatted,
    [Handle] returns the same result and makes the same calls as with any
    other such cache, the empty one included: a hit changes nothing that is
    sent. *)
Theorem X9_suffixCache_transparent os goos cache1 cache2 h0 r :
  cacheConsistent cache1 -> cacheConsistent cache2 ->
  fst <$> Handle os goos cache1 h0 r = fst <$> Handle os goos cache2 h0 r.
Proof.
  intros H1 H2. unfold Handle.
  destruct (selectPrefix (rec_Level r)) as [p |]; simpl; [| done].
  destruct (loadSuffix_consistent cache1 (rec_PC r) H1) as [Hs1 _].
  destruct (loadSuffix_consistent cache2 (rec_PC r) H2) as [Hs2 _].
  destruct (loadSuffix cache1 (rec_PC r)) as [s1 c1].
  destruct (loadSuffix cache2 (rec_PC r)) as [s2 c2]. simpl in *. subst s1 s2.
  destruct (Handle_entry h0 r p _) as [b |]; simpl; [| done].
  destruct (os_WriteMsgUnix os (sock h0) b [] (addr h0)) as [err |]; [| done].
  by destruct (sendViaFileIfTooLarge goos os h0 err b).
Qed.

(** X10: [Handle] keeps such a cache such a cache; it never removes or
    changes an entry; afterwards the cache holds the suffix of the program
    counter of the record; and when it held one before, the cache is left as
    it was. *)
Theorem X10_suffixCache_grows os goos cache h0 r res t cache' :
  cacheConsistent cache ->
  Handle os goos cache h0 r = Some (res, t, cache') ->
  cacheConsistent cache' /\
  cache ⊆ cache' /\
  cache' !! rec_PC r = Some (formatSuffix (CallersFrame (rec_PC r))) /\
  (forall pc, pc <> rec_PC r -> cache' !! pc = cache !! pc) /\
  (is_Some (cache !! rec_PC r) -> cache' = cache).
Proof.
  intros Hc HH.
  assert (Hcache : cache' = (loadSuffix cache (rec_PC r)).2).
  { unfold Handle in HH.
    destruct (selectPrefix (rec_Level r)) as [p |]; simpl in HH; [| done].
    destruct (loadSuffix cache (rec_PC r)) as [s1 c1].
    destruct (Handle_entry h0 r p s1) as [b |]; simpl in HH; [| done].
    destruct (os_WriteMsgUnix os (sock h0) b [] (addr h0)) as [err |].
    - destruct (sendViaFileIfTooLarge goos os h0 err b). by injection HH as _ _ <-.
    - by injection HH as _ _ <-. }
  destruct (loadSuffix_consistent cache (rec_PC r) Hc) as [_ Hins].
  rewrite Hins in Hcache. subst cache'.
  split; [| split; [| split; [| split]]].
  - intros pc x. destruct (decide (pc = rec_PC r)) as [-> | Hne].
    + rewrite lookup_insert_eq. by intros [= <-].
    + rewrite lookup_insert_ne by done. apply Hc.
  - apply map_subseteq_spec. intros pc x Hx.
    destruct (decide (pc = rec_PC r)) as [-> | Hne].
    + rewrite lookup_insert_eq. f_equal. symmetry. by apply Hc.
    + by rewrite lookup_insert_ne.
  - apply lookup_insert_eq.
  - intros pc Hne. by rewrite lookup_insert_ne.
  - intros [x Hx]. apply insert_id. by rewrite Hx, (Hc _ _ Hx).
Qed.

End Cache.

(** ** The anonymous file of the fallback *)

Lemma createNonlinkedFile_no_close goos os :
  existsb isClose (createNonlinkedFile goos os).2 = false.
Proof.
  destruct goos; simpl; unfold createNonlinkedFile_linux, createNonlinkedFile_other;
    by repeat case_match.
Qed.

(** X11: the fallback returns nil exactly when the build has it, the error of
    the send is one of size, the file is created, the whole entry is written
    to it and the datagram that carries its descriptor, and no bytes, is sent
    to the socket address of the handler; its calls are then those that
    create the file, the write of the entry, that datagram, and the close. *)
Theorem X11_fallback_success goos os h0 err b :
  (sendViaFileIfTooLarge goos os h0 err b).1 = None <->
  LargeMessageSupport goos = true /\ tooLarge err = true /\
  exists f t,
    createNonlinkedFile goos os = (inl f, t) /\
    os_Write os f b = None /\
    os_WriteMsgUnix os (sock h0) [] (UnixRights (Fd f)) (addr h0) = None /\
    (sendViaFileIfTooLarge goos os h0 err b).2 =
      t ++ [EvWrite f b;
            EvWriteMsgUnix (sock h0) [] (UnixRights (Fd f)) (addr h0);
            EvClose f].
Proof.
  unfold sendViaFileIfTooLarge, tooLarge.
  destruct (LargeMessageSupport goos) eqn:Hs.
  2: { split; [done | by intros [? _]]. }
  unfold sendViaFileIfTooLarge_yes.
  destruct (errors_Is err EMSGSIZE || errors_Is err ENOBUFS) eqn:Hy; simpl.
  2: { split; [done | by intros (_ & ? & _)]. }
  destruct (createNonlinkedFile goos os) as [[f | e] t] eqn:Hc.
  2: { split; [done | by intros (_ & _ & f & t' & [=] & _)]. }
  destruct (os_Write os f b) as [e |] eqn:Hw.
  { split; [done |]. intros (_ & _ & f' & t' & [= <- <-] & Hw' & _). congruence. }
  destruct (os_WriteMsgUnix os (sock h0) [] (UnixRights (Fd f)) (addr h0)) as [e |] eqn:Hd.
  { split; [done |]. intros (_ & _ & f' & t' & [= <- <-] & _ & Hd' & _). congruence. }
  simpl. split; [| done]. intros _. split; [done |]. split; [done |].
  by exists f, t.
Qed.

(** X12: the fallback closes a file exactly when it has created one, and the
    close is then its last call, the only close, of that file; on the unix
    systems other than linux the temporary file is removed by name right
    after it is created, before anything is written to it. *)
Theorem X12_fallback_closes_file goos os h0 err b :
  let t := (sendViaFileIfTooLarge goos os h0 err b).2 in
  (existsb isClose t = true <->
   LargeMessageSupport goos = true /\ tooLarge err = true /\
   exists f, (createNonlinkedFile goos os).1 = inl f) /\
  (forall f,
     LargeMessageSupport goos = true -> tooLarge err = true ->
     (createNonlinkedFile goos os).1 = inl f ->
     exists t', t = t' ++ [EvClose f] /\ existsb isClose t' = false) /\
  (forall f,
     goos = unix_other -> tooLarge err = true ->
     (createNonlinkedFile goos os).1 = inl f ->
     exists t',
       t = [EvCreateTemp [] (str "journal-entry-*"); EvRemove (File_Name f); EvWrite f b]
           ++ t').
Proof.
  cbv zeta.
  assert (Hyes : LargeMessageSupport goos = true -> tooLarge err = true ->
            forall f, (createNonlinkedFile goos os).1 = inl f ->
            exists mid,
              (sendViaFileIfTooLarge goos os h0 err b).2
              = (createNonlinkedFile goos os).2 ++ (EvWrite f b :: mid) ++ [EvClose f]
              /\ existsb isClose mid = false).
  { intros Hs Hy f Hf. unfold sendViaFileIfTooLarge, sendViaFileIfTooLarge_yes.
    unfold tooLarge in Hy. rewrite Hs, Hy. simpl.
    destruct (createNonlinkedFile goos os) as [[f' | e] t]; simpl in *; [| done].
    injection Hf as ->.
    destruct (os_Write os f b); [by exists [] |].
    destruct (os_WriteMsgUnix os (sock h0) [] (UnixRights (Fd f)) (addr h0));
      by eexists [_]. }
  split; [| split].
  - split.
    + intros Hex. destruct (LargeMessageSupport goos) eqn:Hs.
      2: { unfold sendViaFileIfTooLarge in Hex. by rewrite Hs in Hex. }
      destruct (tooLarge err) eqn:Hy.
      2: { by rewrite sendViaFileIfTooLarge_other in Hex. }
      split; [done |]. split; [done |].
      destruct (createNonlinkedFile goos os) as [[f | e] t] eqn:Hc; [by exists f |].
      exfalso. unfold sendViaFileIfTooLarge, sendViaFileIfTooLarge_yes in Hex.
      unfold tooLarge in Hy. rewrite Hs, Hy, Hc in Hex. simpl in Hex.
      pose proof (createNonlinkedFile_no_close goos os) as Hn. rewrite Hc in Hn.
      simpl in Hn. congruence.
    + intros (Hs & Hy & f & Hf). destruct (Hyes Hs Hy f Hf) as (mid & -> & _).
      rewrite !existsb_app. simpl. by rewrite !orb_true_r.
  - intros f Hs Hy Hf. destruct (Hyes Hs Hy f Hf) as (mid & -> & Hmid).
    exists ((createNonlinkedFile goos os).2 ++ EvWrite f b :: mid).
    split; [by rewrite <- !app_assoc |].
    rewrite existsb_app, createNonlinkedFile_no_close. simpl. done.
  - intros f -> Hy Hf. destruct (Hyes eq_refl Hy f Hf) as (mid & -> & _).
    simpl in Hf |- *. unfold createNonlinkedFile_other in *.
    destruct (os_CreateTemp os [] (str "journal-entry-*")) as [f' | e]; simpl in *; [| done].
    injection Hf as ->. by eexists.
Qed.

(** ** Handlers derived from a handler *)

Section Derives.
Context `{GoRuntime}.

(** X13: a handler derived from another by any number of calls of
    [WithAttrs], [WithGroup] and [ExtendPrefix] has the socket, the address,
    the time format and the level floor of the first, so [Enabled] answers
    the same; its message prefix, its pre-rendered attributes and its groups
    are those of the first with something added at the end. *)
Theorem X13_derived_handler h0 h1 :
  derives h0 h1 ->
  sock h1 = sock h0 /\ addr h1 = addr h0 /\ timeFormat h1 = timeFormat h0 /\
  level h1 = level h0 /\ (forall l, Enabled h1 l = Enabled h0 l) /\
  (exists x, msgPrefix h1 = msgPrefix h0 ++ x) /\
  (exists d, preformattedAttrs h1 = preformattedAttrs h0 ++ d) /\
  (exists g, groups h1 = groups h0 ++ g).
Proof.
  induction 1 as [| h1 l h2 _ IH Hw | h1 name _ IH | h1 x _ IH].
  - repeat split; try done; exists []; by rewrite app_nil_r.
  - destruct IH as (Hs & Ha & Ht & Hl & He & [x Hx] & [d Hd] & [g Hg]).
    destruct (decide (groupsInRange h1)) as [Hr | Hn];
      [| by rewrite WithAttrs_None in Hw].
    rewrite WithAttrs_render in Hw by done. cbv zeta in Hw.
    destruct (renderAttrs h1 _ (firstSep h1) l) as [[d1 sep1] |]; [| done].
    simpl in Hw. injection Hw as <-. simpl.
    repeat split; try done.
    + by exists x.
    + exists (d ++ d1). by rewrite Hd, <- app_assoc.
    + by exists g.
  - destruct IH as (Hs & Ha & Ht & Hl & He & [x Hx] & [d Hd] & [g Hg]).
    unfold WithGroup, clone, slices_Clip. simpl.
    repeat split; try done.
    + by exists x.
    + by exists d.
    + exists (g ++ [name]). by rewrite Hg, <- app_assoc.
  - destruct IH as (Hs & Ha & Ht & Hl & He & [x0 Hx] & [d Hd] & [g Hg]).
    unfold ExtendPrefix, clone, slices_Clip. simpl.
    repeat split; try done.
    + exists (x0 ++ x). by rewrite Hx, <- app_assoc.
    + by exists d.
    + by exists g.
Qed.

End Derives.

(** ** Handlers as values *)

Section Pool.
Context `{GoRuntime}.
Variable growslice : nat -> nat -> nat.
Variable chunking : list byte -> list (list byte).
Hypothesis chunking_concat : forall d, concat (chunking d) = d.

Lemma Mem_WithAttrs_inv st m l st' m' :
  Mem.validHandler st m ->
  Mem.WithAttrs growslice chunking st m l = Some (st', m') ->
  WithAttrs (Mem.view st m) l = Some (Mem.view st' m') /\
  Mem.validHandler st' m' /\
  Mem.preserved (Mem.byteArrays st) (Mem.byteArrays st') /\
  Mem.preserved (Mem.stringArrays st) (Mem.stringArrays st').
Proof.
  intros Hv Hw.
  destruct (decide (groupsInRange (Mem.view st m))) as [Hr | Hn].
  - destruct (Mem_WithAttrs_spec growslice chunking st m l chunking_concat Hv Hr)
      as (st2 & m2 & Hw2 & Hrest).
    rewrite Hw in Hw2. by injection Hw2 as <- <-.
  - exfalso. unfold Mem.WithAttrs in Hw. cbv zeta in Hw.
    assert (Hview : Mem.view st (Mem.clone m) = Mem.view st m) by done.
    rewrite Hview, WithAttrs_None in Hw; done.
Qed.

Lemma Mem_ExtendPrefix_spec st m x :
  Mem.validHandler st m ->
  Mem.view st (Mem.ExtendPrefix m x) = ExtendPrefix (Mem.view st m) x /\
  Mem.validHandler st (Mem.ExtendPrefix m x).
Proof.
  intros [Hvb Hvs]. split.
  - unfold Mem.view, Mem.ExtendPrefix, Mem.clone, ExtendPrefix, clone, slices_Clip.
    simpl. by destruct m as [[] pslice gslice].
  - split; simpl; by apply valid_Clip.
Qed.

Lemma derivations_frame st pool st' pool' :
  derivations growslice chunking st pool st' pool' ->
  Forall (Mem.validHandler st) pool ->
  Forall (Mem.validHandler st') pool' /\
  Mem.preserved (Mem.byteArrays st) (Mem.byteArrays st') /\
  Mem.preserved (Mem.stringArrays st) (Mem.stringArrays st').
Proof.
  induction 1 as [st pool
                 | st pool st1 pool1 m l st2 m2 _ IH Hm Hw
                 | st pool st1 pool1 m name _ IH Hm
                 | st pool st1 pool1 m x _ IH Hm]; intros Hvalid.
  - split; [done |]. split; apply preserved_refl.
  - destruct (IH Hvalid) as (Hv1 & Hb1 & Hs1).
    pose proof (proj1 (Forall_forall _ _) Hv1 m Hm) as Hvm.
    destruct (Mem_WithAttrs_inv st1 m l st2 m2 Hvm Hw) as (_ & Hv2 & Hb2 & Hs2).
    split; [| split; eapply preserved_trans; eauto].
    constructor; [done |].
    eapply Forall_impl; [exact Hv1 |]. intros m0 Hm0.
    by apply (view_preserved st1 st2 m0).
  - destruct (IH Hvalid) as (Hv1 & Hb1 & Hs1).
    pose proof (proj1 (Forall_forall _ _) Hv1 m Hm) as Hvm.
    destruct (Mem_WithGroup_spec growslice st1 m name Hvm) as (_ & Hv2 & Hb2 & Hs2).
    split; [| split; eapply preserved_trans; eauto].
    constructor; [done |].
    eapply Forall_impl; [exact Hv1 |]. intros m0 Hm0.
    by apply (view_preserved st1 _ m0).
  - destruct (IH Hvalid) as (Hv1 & Hb1 & Hs1).
    pose proof (proj1 (Forall_forall _ _) Hv1 m Hm) as Hvm.
    split; [| done].
    constructor; [| done]. by apply Mem_ExtendPrefix_spec.
Qed.

End Pool.

(** X14: whatever handlers a program derives afterwards, and from whichever
    of its handlers, a handler that it holds stays the handler it was: no
    derivation writes into the array behind the pre-rendered attributes or
    the groups of another handler, parent or sibling. *)
Theorem X14_handlers_are_values `{GoRuntime} growslice chunking st pool st' pool' :
  (forall d, concat (chunking d) = d) ->
  Forall (Mem.validHandler st) pool ->
  derivations growslice chunking st pool st' pool' ->
  Forall (Mem.validHandler st') pool' /\
  forall m, m ∈ pool -> Mem.view st' m = Mem.view st m.
Proof.
  intros Hch Hvalid Hd.
  destruct (derivations_frame growslice chunking Hch st pool st' pool' Hd Hvalid)
    as (Hv' & Hb & Hs).
  split; [done |]. intros m Hm.
  pose proof (proj1 (Forall_forall _ _) Hvalid m Hm) as Hvm.
  by apply (view_preserved st st' m).
Qed.

(** ** The receiver of the test *)


Lemma Buffer_ReadString_shorter r line rest :
  Buffer_ReadString r x0a = (line, false, rest) -> (length rest < length r)%nat.
Proof.
  revert line rest. induction r as [| c r IH]; intros line rest;
    cbn [Buffer_ReadString]; [done |].
  destruct (decide (c = x0a)).
  - intros [= <- <-]. simpl. lia.
  - destruct (Buffer_ReadString r x0a) as [[line' eof'] rest'].
    intros [= <- -> <-]. specialize (IH _ _ eq_refl). simpl. lia.
Qed.

Lemma io_ReadFull_shorter r n b rest :
  io_ReadFull r n = (inl b, rest) -> (length rest <= length r)%nat.
Proof.
  unfold io_ReadFull. destruct (n <=? 0); [by intros [= <- <-] |].
  destruct (bool_decide (r = [])); [done |].
  destruct (len r <? n); [done |]. intros [= <- <-]. rewrite length_drop. lia.
Qed.

(** The loop ends within the fuel that [parseProtocolMessage_fields] gives. *)
Lemma parseProtocolMessage_loop_fuel maxAlloc fuel r data :
  (length r < fuel)%nat -> parseProtocolMessage_loop maxAlloc fuel r data <> OutOfFuel.
Proof.
  revert r data. induction fuel as [| fuel IH]; intros r data Hlt; [lia |].
  simpl. destruct (Buffer_ReadString r x0a) as [[line eof] rest] eqn:Hrs.
  destruct eof; [by destruct (bool_decide (line = [])) |].
  apply Buffer_ReadString_shorter in Hrs.
  assert (Hrec : forall r1 d1, (length r1 <= length rest)%nat ->
            parseProtocolMessage_loop maxAlloc fuel r1 d1 <> OutOfFuel).
  { intros r1 d1 Hle. apply IH. lia. }
  assert (Hbin :
    match io_ReadFull rest 8 with
    | (inl b, r0) =>
        match Uint64 b with
        | Some size =>
            if maxAlloc <? size then Panic
            else match io_ReadFull r0 size with
                 | (inl b0, r1) =>
                     match Buffer_ReadByte r1 with
                     | Some (c, r2) =>
                         if bool_decide (c <> x0a)
                         then Error (NewlineExpected
                                       (take (Z.to_nat (len line - 1)) line) b0)
                         else parseProtocolMessage_loop maxAlloc fuel r2
                                (<[take (Z.to_nat (len line - 1)) line := b0]> data)
                     | None => Error io_EOF
                     end
                 | (inr err, _) => Error err
                 end
        | None => Panic
        end
    | (inr err, _) => Error err
    end <> OutOfFuel).
  { destruct (io_ReadFull rest 8) as [[b | err] r0] eqn:H8; [| done].
    apply io_ReadFull_shorter in H8.
    destruct (Uint64 b) as [size |]; [| done].
    destruct (maxAlloc <? size); [done |].
    destruct (io_ReadFull r0 size) as [[b0 | err] r1] eqn:Hn; [| done].
    apply io_ReadFull_shorter in Hn.
    destruct r1 as [| c r2]; simpl; [done |].
    destruct (bool_decide (c <> x0a)); [done |].
    apply Hrec. simpl in Hn. lia. }
  destruct (strings_SplitN2 (take (Z.to_nat (len line - 1)) line) x3d)
    as [| key [| value [| ? ?]]]; try exact Hbin.
  by apply Hrec.
Qed.











Section Receiver.
Context `{GoRuntime}.




End Receiver.

(** ** Levels and priorities *)

(** X16: up to the last four values of [int], where the subtraction in
    [Handle] wraps around, the priority does not rise when the level rises,
    and it lies between 1 and 7; the named levels of the package get the
    priorities 7 (debug), 6 (info), 5 (notice), 4 (warn), 3 (error),
    2 (crit) and 1 (alert). *)
Theorem X16_priority_antitone l1 l2 :
  MinInt64 <= l1 -> l1 <= l2 -> l2 <= MaxInt64 - 4 ->
  (exists p1 p2,
     priority l1 = Some p1 /\ priority l2 = Some p2 /\ 1 <= p2 <= p1 /\ p1 <= 7) /\
  priority LevelDebug = Some 7 /\ priority LevelInfo = Some 6 /\
  priority LevelNotice = Some 5 /\ priority LevelWarn = Some 4 /\
  priority LevelError = Some 3 /\ priority LevelCrit = Some 2 /\
  priority LevelAlert = Some 1.
Proof.
  intros H1 H12 H2. split; [| repeat split; reflexivity].
  exists (tablePriority l1), (tablePriority l2).
  rewrite !priority_tablePriority by lia.
  split; [done |]. split; [done |].
  pose proof (tablePriority_antitone l1 l2 H12).
  assert (Hb : forall l, 1 <= tablePriority l <= 7).
  { intros l. unfold tablePriority. repeat case_match; lia. }
  pose proof (Hb l1). pose proof (Hb l2). lia.
Qed.

(** ** A new handler at work *)

(** X17: [NewHandler] fails exactly when the socket cannot be opened; the
    handler it returns answers [Enabled] by the level of the options, or by
    [LevelDebug] without one, and sends the entry of a record whose
    attributes are each one key and one value to the socket path of the
    options, or to the default path when they give none, with the payload
    made of the prefix of the options, the message and the attributes. *)
Theorem X17_NewHandler_Handle `{GoRuntime} {E} (listen : Z + E) opts os goos cache r :
  Forall isLeaf (rec_Attrs r) ->
  match NewHandler listen opts with
  | inr err => listen = inr err
  | inl h0 =>
      let o := default {| opt_Level := None; opt_Prefix := []; opt_TimeFormat := [];
                          opt_Socket := [] |} opts in
      let payload := opt_Prefix o ++ rec_Message r
                     ++ leavesText h0 [] (str ": ") (rec_Attrs r) in
      let path := if bool_decide (opt_Socket o <> []) then opt_Socket o
                  else defaultSocket in
      (forall l, Enabled h0 l = (default LevelDebug (opt_Level o) <=? l)) /\
      exists s digit res t,
        listen = inl s /\
        Handle os goos cache h0 r =
          Some (res,
                EvWriteMsgUnix s
                  (entryHeader digit ++ le64 (uint64 (len payload)) ++ payload
                   ++ (loadSuffix cache (rec_PC r)).1 ++ timestampField r)
                  [] {| Net := str "unixgram"; Name := path |} :: t,
                (loadSuffix cache (rec_PC r)).2)
  end.
Proof.
  intros Hl. destruct listen as [s | err]; [| done].
  destruct (NewHandler (inl s) opts) as [h0 | err] eqn:Hn.
  2: { by destruct opts. }
  assert (Hf : preformattedAttrs h0 = [] /\ groups h0 = [] /\ nOpenGroups h0 = 0 /\
               groupPrefix h0 = [] /\ sock h0 = s /\
               msgPrefix h0 = match opts with Some o => opt_Prefix o | None => [] end /\
               level h0 = match opts with Some o => opt_Level o | None => None end /\
               addr h0 = {| Net := str "unixgram";
                            Name := match opts with
                                    | Some o => if bool_decide (opt_Socket o <> [])
                                                then opt_Socket o else defaultSocket
                                    | None => defaultSocket
                                    end |}).
  { destruct opts as [o |]; simpl in Hn; injection Hn as <-; [| done].
    destruct (bool_decide (opt_Socket o <> [])), (bool_decide (opt_TimeFormat o <> []));
      done. }
  destruct Hf as (Hpre & Hg & Hno & Hgp & Hs & Hmp & Hlv & Ha).
  cbv zeta. split.
  - intros l. unfold Enabled. rewrite Hlv. by destruct opts as [[[lv |] ? ? ?] |].
  - assert (Hwf : wellFormed h0).
    { split; [unfold groupsInRange; rewrite Hno, Hg; done |]. by rewrite Hgp, Hno, Hg. }
    destruct (selectPrefix_shape (rec_Level r)) as [digit Hp].
    assert (Hb : Handle_entry h0 r (priorityPrefix digit) (loadSuffix cache (rec_PC r)).1
                 = Some (entryHeader digit
                         ++ le64 (uint64 (len (msgPrefix h0 ++ rec_Message r ++ []
                                    ++ leavesText h0 [] (str ": ") (rec_Attrs r))))
                         ++ (msgPrefix h0 ++ rec_Message r ++ []
                             ++ leavesText h0 [] (str ": ") (rec_Attrs r))
                         ++ (loadSuffix cache (rec_PC r)).1 ++ timestampField r)).
    { pose proof (Handle_entry_render h0 r digit (loadSuffix cache (rec_PC r)).1
                    (leavesText h0 [] (str ": ") (rec_Attrs r))
                    (if rec_Attrs r is [] then str ": " else str " ") (proj1 Hwf)) as He.
      rewrite wellFormed_prefix, Hpre, Hg in He by done.
      apply He. by apply renderAttrs_leaves. }
    destruct (Handle_spec os goos cache h0 r digit _ Hp Hb) as (res & t & HH).
    exists s, digit, res, t. split; [done |].
    rewrite HH, Hs, Ha, Hmp. simpl.
    by destruct opts.
Qed.

(** ** Control characters *)

Lemma plain_app d1 d2 : plain d1 -> plain d2 -> plain (d1 ++ d2).
Proof. apply Forall_app_2. Qed.

Lemma appendEscapedRune_app buf0 c :
  appendEscapedRune buf0 c = buf0 ++ appendEscapedRune [] c.
Proof.
  unfold appendEscapedRune. repeat case_match; by rewrite ?app_nil_l, ?app_assoc.
Qed.

Lemma plain_escaped c :
  plain (if Z_of_byte c <? 128 then appendEscapedRune [] c else [c]).
Proof.
  assert (Hall : forallb (fun b => negb (isControl b))
                   (if Z_of_byte c <? 128 then appendEscapedRune [] c else [c]) = true).
  { destruct c; vm_compute; reflexivity. }
  apply Forall_forall. intros b Hb.
  rewrite forallb_forall in Hall. apply list_elem_of_In, Hall in Hb.
  by destruct (isControl b).
Qed.

Lemma plain_AppendQuote x : plain (AppendQuote [] x).
Proof.
  unfold AppendQuote. apply plain_app; [| by repeat constructor].
  assert (Hacc : plain ([] ++ [x22])) by (by repeat constructor).
  revert Hacc. generalize ([] ++ [x22] : list byte).
  induction x as [| c x IH]; intros acc Hacc; simpl; [done |].
  apply IH. pose proof (plain_escaped c) as Hc.
  destruct (Z_of_byte c <? 128).
  - rewrite appendEscapedRune_app. by apply plain_app.
  - by apply plain_app.
Qed.

Lemma plain_quoted x : plain (quoted x).
Proof.
  unfold quoted. destruct (needsQuoting x) eqn:Hq; [apply plain_AppendQuote |].
  apply Forall_forall. intros c Hc.
  destruct (isControl c) eqn:Hctl; [| done].
  assert (needsQuoting x = true); [| congruence].
  unfold needsQuoting. apply existsb_exists. exists c.
  split; [by apply list_elem_of_In |]. by rewrite Hctl, orb_true_r.
Qed.

Section Plain.
Context `{GoRuntime}.

Lemma appendAttrs_plain l :
  Forall (fun a => forall s s', plain (sep s) -> appendAttr s a = Some s' ->
            plain (sep s') /\ exists d, buf s' = buf s ++ d /\ plain d) l ->
  forall s s', plain (sep s) -> appendAttrs s l = Some s' ->
    plain (sep s') /\ exists d, buf s' = buf s ++ d /\ plain d.
Proof.
  induction 1 as [| a l Ha _ IH]; intros s s' Hsep; simpl.
  - intros [= <-]. split; [done |]. exists []. split; [by rewrite app_nil_r | constructor].
  - destruct (appendAttr s a) as [s1 |] eqn:H1; simpl; [| done].
    intros H2. destruct (Ha s s1 Hsep H1) as (Hsep1 & d1 & Hb1 & Hd1).
    destruct (IH s1 s' Hsep1 H2) as (Hsep2 & d2 & Hb2 & Hd2).
    split; [done |]. exists (d1 ++ d2). rewrite Hb2, Hb1, <- app_assoc.
    split; [done |]. by apply plain_app.
Qed.

Lemma appendAttr_plain a s s' :
  plain (sep s) -> appendAttr s a = Some s' ->
  plain (sep s') /\ exists d, buf s' = buf s ++ d /\ plain d.
Proof.
  revert s s'. induction a as [key v IH] using Attr_resolve_ind. intros s s' Hsep.
  assert (Hsp : plain (str " ")) by (by repeat constructor).
  destruct (Attr_isZero (mkAttr key (Resolve v))) eqn:Hz.
  { rewrite appendAttr_unfold, Hz. intros [= <-]. split; [done |].
    exists []. split; [by rewrite app_nil_r | constructor]. }
  destruct (decide (Value_Kind (Resolve v) = KindGroup)) as [Hg | Hng].
  - destruct (Resolve v) as [| | | | | | | | g |] eqn:Hres; try discriminate.
    specialize (IH g eq_refl).
    rewrite appendAttr_unfold, Hres.
    replace (Attr_isZero (mkAttr key (GroupValue g))) with false by (by destruct key).
    destruct (0 <? len g).
    2: { intros [= <-]. split; [done |]. exists []. split; [by rewrite app_nil_r | constructor]. }
    destruct (bool_decide (key <> [])).
    + destruct (appendAttrs (openGroup s key) g) as [s1 |] eqn:H1; simpl; [| done].
      destruct (appendAttrs_plain g IH (openGroup s key) s1 Hsep H1) as (_ & d & Hb & Hd).
      unfold closeGroup. destruct (0 <=? _); [| done]. intros [= <-]. simpl.
      split; [done |]. by exists d.
    + destruct (appendAttrs s g) as [s1 |] eqn:H1; simpl; [| done].
      intros [= <-]. by apply (appendAttrs_plain g IH s).
  - rewrite appendAttr_leaf by done. intros [= <-].
    destruct (appendString_frame (appendKey s key)
                (Value_String (specialCases s (Resolve v)))) as (_ & _ & Hs1 & _).
    destruct (appendKey_frame s key) as (_ & _ & Hs2 & _).
    rewrite Hs1, Hs2. split; [done |].
    rewrite buf_appendString, buf_appendKey.
    eexists. rewrite <- !app_assoc. split; [reflexivity |].
    repeat apply plain_app; try apply plain_quoted; try done. by repeat constructor.
Qed.

(** X18: what [appendAttr] writes for an attribute, whatever its keys and
    values hold, has no control character in it, and so no newline: keys
    and values go through [appendString], which quotes them when they have
    one, and the quoted form escapes it. *)
Theorem X18_no_control_characters s a s' :
  plain (sep s) -> appendAttr s a = Some s' ->
  exists d, buf s' = buf s ++ d /\ plain d /\ x0a ∉ d.
Proof.
  intros Hsep Ha. destruct (appendAttr_plain a s s' Hsep Ha) as (_ & d & Hb & Hd).
  exists d. split; [done |]. split; [done |].
  intros Hin. unfold plain in Hd. rewrite Forall_forall in Hd.
  by specialize (Hd _ Hin).
Qed.

End Plain.

(** ** A group of attributes that are all left out *)

Section Elided.
Context `{GoRuntime}.

Lemma renderAttrs_elided h0 pfx sep0 g :
  Forall isElided g -> renderAttrs h0 pfx sep0 g = Some ([], sep0).
Proof.
  intros Hg. unfold renderAttrs.
  assert (Hs : forall s, appendAttrs s g = Some s).
  { induction Hg as [| [key v] g Ha _ IH]; intros s; [done |].
    cbn [appendAttrs]. rewrite appendAttr_unfold.
    unfold isElided in Ha. cbn [Key Val] in Ha. rewrite Ha. cbn [mbind option_bind]. apply IH. }
  by rewrite Hs.
Qed.

(** X19: a group attribute with a key, whose members are all left out,
    writes nothing, yet the separator after it is one space.  When it is the
    first attribute of a record and the handler has no pre-rendered
    attributes, the attributes after it follow the message after one space,
    without the colon. *)
Theorem X19_elided_group_drops_colon os goos cache h0 r key g l :
  wellFormed h0 -> preformattedAttrs h0 = [] ->
  key <> [] -> g <> [] -> Forall isElided g -> Forall isLeaf l ->
  rec_Attrs r = mkAttr key (GroupValue g) :: l ->
  renderAttrs h0 (dotted (groups h0)) (str ": ") [mkAttr key (GroupValue g)]
  = Some ([], str " ") /\
  exists digit res t,
    let payload := msgPrefix h0 ++ rec_Message r
                   ++ leavesText h0 (dotted (groups h0)) (str " ") l in
    Handle os goos cache h0 r =
      Some (res,
            EvWriteMsgUnix (sock h0)
              (entryHeader digit ++ le64 (uint64 (len payload)) ++ payload
               ++ (loadSuffix cache (rec_PC r)).1 ++ timestampField r)
              [] (addr h0) :: t,
            (loadSuffix cache (rec_PC r)).2).
Proof.
  intros Hwf Hpre Hkey Hg Hel Hl Hattrs.
  assert (Hgroup : forall pfx sep0,
            renderAttrs h0 pfx sep0 [mkAttr key (GroupValue g)] = Some ([], str " ")).
  { intros pfx sep0. rewrite renderAttrs_group by done.
    destruct g as [| a g']; [done |]. by rewrite renderAttrs_elided. }
  split; [apply Hgroup |].
  destruct (selectPrefix_shape (rec_Level r)) as [digit Hp].
  exists digit.
  apply (Handle_spec os goos cache h0 r digit); [done |].
  pose proof (Handle_entry_render h0 r digit (loadSuffix cache (rec_PC r)).1
                (leavesText h0 (dotted (groups h0)) (str " ") l)
                (str " ") (proj1 Hwf)) as He.
  rewrite wellFormed_prefix, Hpre in He by done. cbv zeta in He.
  change (0 <? len []) with false in He. cbv iota in He.
  rewrite app_nil_l in He. apply He.
  rewrite Hattrs.
  change (mkAttr key (GroupValue g) :: l) with ([mkAttr key (GroupValue g)] ++ l).
  rewrite renderAttrs_app, Hgroup. cbn [mbind option_bind].
  rewrite renderAttrs_leaves by done. simpl. by destruct l.
Qed.

End Elided.


(** * Instances of the further properties *)

Lemma X2_Handle_leaf_attrs_witness :
  exists digit res t,
    let payload := str "m: a=1 b=" ++ [x22] ++ str "x y" ++ [x22] in
    Handle (H:=noRuntime) okOS linux ∅ sampleHandler sampleRecord =
      Some (res,
            EvWriteMsgUnix 3
              (entryHeader digit ++ le64 (uint64 (len payload)) ++ payload
               ++ (loadSuffix (H:=noRuntime) ∅ (rec_PC sampleRecord)).1
               ++ timestampField sampleRecord)
              [] (addr sampleHandler) :: t,
            (loadSuffix (H:=noRuntime) ∅ (rec_PC sampleRecord)).2).
Proof.
  apply (X2_Handle_leaf_attrs (H:=noRuntime) okOS linux ∅ sampleHandler sampleRecord).
  - split; [unfold groupsInRange; simpl; unfold len; simpl; lia | reflexivity].
  - repeat constructor; discriminate.
Defined.

Lemma X3_WithAttrs_as_record_attrs_witness :
  Handle (H:=noRuntime) okOS linux ∅ sampleBound sampleRecord =
  Handle (H:=noRuntime) okOS linux ∅ sampleHandler
    (set_rec_Attrs (rec_Attrs sampleRecord ++ rec_Attrs sampleRecord) sampleRecord).
Proof.
  apply (X3_WithAttrs_as_record_attrs (H:=noRuntime) okOS linux ∅ sampleHandler sampleBound
           (rec_Attrs sampleRecord) sampleRecord).
  - repeat constructor; discriminate.
  - vm_compute. reflexivity.
Defined.

Lemma X4_WithAttrs_twice_witness :
  WithAttrs (H:=noRuntime) sampleBound [mkAttr (str "c") (Int64Value 3)] =
  WithAttrs (H:=noRuntime) sampleHandler
    (rec_Attrs sampleRecord ++ [mkAttr (str "c") (Int64Value 3)]).
Proof.
  apply (X4_WithAttrs_twice (H:=noRuntime) sampleHandler sampleBound).
  - vm_compute. reflexivity.
  - discriminate.
Defined.

Lemma X5_WithGroup_as_group_attr_witness :
  Handle (H:=noRuntime) okOS linux ∅ (WithGroup sampleHandler (str "g")) sampleRecord =
  Handle (H:=noRuntime) okOS linux ∅ sampleHandler
    (set_rec_Attrs [mkAttr (str "g") (GroupValue (rec_Attrs sampleRecord))] sampleRecord).
Proof.
  apply (X5_WithGroup_as_group_attr (H:=noRuntime) okOS linux ∅ sampleHandler (str "g")
           sampleRecord).
  - discriminate.
  - unfold groupsInRange. simpl. unfold len. simpl. lia.
Defined.


Lemma X9_suffixCache_transparent_witness :
  fst <$> Handle (H:=noRuntime) okOS linux
            {[ 25 := formatSuffix (CallersFrame (GoRuntime:=noRuntime) 25) ]}
            sampleHandler sampleRecord
  = fst <$> Handle (H:=noRuntime) okOS linux ∅ sampleHandler sampleRecord.
Proof.
  apply (X9_suffixCache_transparent (H:=noRuntime)).
  - intros pc x Hx. apply lookup_singleton_Some in Hx as [<- <-]. reflexivity.
  - intros pc x Hx. rewrite lookup_empty in Hx. discriminate.
Defined.

Lemma X10_suffixCache_grows_witness :
  let cache' : gmap Z gostring :=
    {[ 25 := formatSuffix (CallersFrame (GoRuntime:=noRuntime) 25) ]} in
  cacheConsistent (H:=noRuntime) cache' /\
  ∅ ⊆ cache' /\
  cache' !! rec_PC sampleRecord
  = Some (formatSuffix (CallersFrame (GoRuntime:=noRuntime) (rec_PC sampleRecord))) /\
  (forall pc, pc <> rec_PC sampleRecord -> cache' !! pc = (∅ : gmap Z gostring) !! pc) /\
  (is_Some ((∅ : gmap Z gostring) !! rec_PC sampleRecord) -> cache' = ∅).
Proof.
  cbv zeta.
  refine (X10_suffixCache_grows (H:=noRuntime) okOS linux ∅ sampleHandler sampleRecord
            None _ _ _ _).
  - intros pc x Hx. rewrite lookup_empty in Hx. discriminate.
  - vm_compute. reflexivity.
Defined.

Lemma X11_fallback_success_witness :
  (sendViaFileIfTooLarge linux okOS sampleHandler sampleError (str "entry")).1 = None.
Proof.
  apply (proj2 (X11_fallback_success linux okOS sampleHandler sampleError (str "entry"))).
  split; [reflexivity |]. split; [reflexivity |].
  exists {| Fd := 7; File_Name := str "journal-entry" |},
         [EvMemfdCreate (str "journal-entry")].
  repeat split; reflexivity.
Defined.

Lemma X12_fallback_closes_file_witness :
  existsb isClose
    (sendViaFileIfTooLarge unix_other okOS sampleHandler sampleError (str "entry")).2 = true /\
  exists t',
    (sendViaFileIfTooLarge unix_other okOS sampleHandler sampleError (str "entry")).2 =
      [EvCreateTemp [] (str "journal-entry-*");
       EvRemove (str "/tmp/journal-entry-1");
       EvWrite {| Fd := 7; File_Name := str "/tmp/journal-entry-1" |} (str "entry")] ++ t'.
Proof.
  pose proof (X12_fallback_closes_file unix_other okOS sampleHandler sampleError (str "entry"))
    as (Hclose & _ & Hremove).
  split.
  - apply Hclose. split; [reflexivity |]. split; [reflexivity |]. eexists. reflexivity.
  - apply (Hremove {| Fd := 7; File_Name := str "/tmp/journal-entry-1" |}); reflexivity.
Defined.

Lemma X13_derived_handler_witness :
  let h1 := ExtendPrefix (WithGroup sampleHandler (str "g")) (str "p") in
  sock h1 = sock sampleHandler /\ addr h1 = addr sampleHandler /\
  timeFormat h1 = timeFormat sampleHandler /\ level h1 = level sampleHandler /\
  (forall l, Enabled h1 l = Enabled sampleHandler l) /\
  (exists x, msgPrefix h1 = msgPrefix sampleHandler ++ x) /\
  (exists d, preformattedAttrs h1 = preformattedAttrs sampleHandler ++ d) /\
  (exists g, groups h1 = groups sampleHandler ++ g).
Proof.
  apply (X13_derived_handler (H:=noRuntime) sampleHandler).
  apply derives_ExtendPrefix, derives_WithGroup, derives_refl.
Defined.

Lemma X14_handlers_are_values_witness :
  let growslice := fun _ n : nat => n in
  let step := Mem.WithGroup growslice emptyStore sampleHandlerM (str "g") in
  Forall (Mem.validHandler step.1) [step.2; sampleHandlerM] /\
  forall m, m ∈ [sampleHandlerM] -> Mem.view step.1 m = Mem.view emptyStore m.
Proof.
  cbv zeta.
  apply (X14_handlers_are_values (H:=noRuntime) (fun _ n => n) (fun d => [d])
           emptyStore [sampleHandlerM]).
  - intros d. simpl. apply app_nil_r.
  - repeat constructor; simpl; lia.
  - apply (derivations_WithGroup (H:=noRuntime) (fun _ n => n) (fun d => [d])
             emptyStore [sampleHandlerM] emptyStore [sampleHandlerM] sampleHandlerM (str "g")).
    + apply derivations_nil.
    + left.
Defined.

Lemma X16_priority_antitone_witness :
  (exists p1 p2,
     priority LevelInfo = Some p1 /\ priority LevelError = Some p2 /\
     1 <= p2 <= p1 /\ p1 <= 7) /\
  priority LevelDebug = Some 7 /\ priority LevelInfo = Some 6 /\
  priority LevelNotice = Some 5 /\ priority LevelWarn = Some 4 /\
  priority LevelError = Some 3 /\ priority LevelCrit = Some 2 /\
  priority LevelAlert = Some 1.
Proof.
  apply (X16_priority_antitone LevelInfo LevelError);
    unfold MinInt64, MaxInt64, LevelInfo, LevelError, slog_LevelInfo, slog_LevelError; lia.
Defined.

Lemma X18_no_control_characters_witness :
  exists d,
    buf (default sampleState (appendAttr (H:=noRuntime) sampleState sampleAttr))
    = buf sampleState ++ d /\ plain d /\ x0a ∉ d.
Proof.
  apply (X18_no_control_characters (H:=noRuntime) sampleState sampleAttr).
  - repeat constructor.
  - vm_compute. reflexivity.
Defined.


Lemma X17_NewHandler_Handle_witness :
  match NewHandler (E:=unit) (inl 3) None with
  | inr err => @inl Z unit 3 = inr err
  | inl h0 =>
      let payload := rec_Message sampleRecord
                     ++ leavesText (H:=noRuntime) h0 [] (str ": ") (rec_Attrs sampleRecord) in
      (forall l, Enabled h0 l = (LevelDebug <=? l)) /\
      exists s digit res t,
        @inl Z unit 3 = inl s /\
        Handle (H:=noRuntime) okOS linux ∅ h0 sampleRecord =
          Some (res,
                EvWriteMsgUnix s
                  (entryHeader digit ++ le64 (uint64 (len payload)) ++ payload
                   ++ (loadSuffix (H:=noRuntime) ∅ (rec_PC sampleRecord)).1
                   ++ timestampField sampleRecord)
                  [] {| Net := str "unixgram"; Name := defaultSocket |} :: t,
                (loadSuffix (H:=noRuntime) ∅ (rec_PC sampleRecord)).2)
  end.
Proof.
  apply (X17_NewHandler_Handle (H:=noRuntime) (E:=unit) (inl 3) None okOS linux ∅
           sampleRecord).
  repeat constructor; discriminate.
Defined.

Lemma X19_elided_group_drops_colon_witness :
  let r := set_rec_Attrs
             (mkAttr (str "g") (GroupValue [mkAttr [] (AnyValue AnyNil)])
              :: rec_Attrs sampleRecord) sampleRecord in
  renderAttrs (H:=noRuntime) sampleHandler (dotted (groups sampleHandler)) (str ": ")
    [mkAttr (str "g") (GroupValue [mkAttr [] (AnyValue AnyNil)])]
  = Some ([], str " ") /\
  exists digit res t,
    let payload := str "m a=1 b=" ++ [x22] ++ str "x y" ++ [x22] in
    Handle (H:=noRuntime) okOS linux ∅ sampleHandler r =
      Some (res,
            EvWriteMsgUnix 3
              (entryHeader digit ++ le64 (uint64 (len payload)) ++ payload
               ++ (loadSuffix (H:=noRuntime) ∅ (rec_PC r)).1 ++ timestampField r)
              [] (addr sampleHandler) :: t,
            (loadSuffix (H:=noRuntime) ∅ (rec_PC r)).2).
Proof.
  cbv zeta.
  apply (X19_elided_group_drops_colon (H:=noRuntime) okOS linux ∅ sampleHandler
           (set_rec_Attrs
              (mkAttr (str "g") (GroupValue [mkAttr [] (AnyValue AnyNil)])
               :: rec_Attrs sampleRecord) sampleRecord)
           (str "g") [mkAttr [] (AnyValue AnyNil)] (rec_Attrs sampleRecord)).
  - split; [unfold groupsInRange; simpl; unfold len; simpl; lia | reflexivity].
  - reflexivity.
  - discriminate.
  - discriminate.
  - repeat constructor.
  - repeat constructor; discriminate.
  - reflexivity.
Defined.
